(** * LMS media scanner: the file-scanning step

    A shallow embedding of [ScanStepScanFiles.cpp] (the per-file change
    detector, the artist / release / cluster resolvers, duplicate-recording
    suppression, the track upsert and the walk orchestrator), and the
    properties of it that the specification states.

    The catalog store (Wt::Dbo session, entity classes), the tag parser and
    the directory walker are not part of the translated sources.  The store
    is modelled as an arena of records addressed by identifiers; the parser,
    the file system and the walker are fields of an environment record. *)

From Stdlib Require Import Ascii String List NArith ZArith Bool Lia.
Import ListNotations.
Local Open Scope string_scope.
Local Open Scope list_scope.
Local Open Scope N_scope.

Set Implicit Arguments.

(** ** A small state monad

    The C++ code threads a database session and a scan context through
    every call; [M S A] is a computation over a state [S] returning [A]. *)

Definition M (S A : Type) : Type := S -> A * S.

Definition ret {S A} (a : A) : M S A := fun s => (a, s).

Definition bind {S A B} (m : M S A) (f : A -> M S B) : M S B :=
  fun s => let '(a, s') := m s in f a s'.

Definition gets {S A} (f : S -> A) : M S A := fun s => (f s, s).

Definition modify {S} (f : S -> S) : M S unit := fun s => (tt, f s).

Definition exec {S A} (m : M S A) (s : S) : S := snd (m s).

Definition eval {S A} (m : M S A) (s : S) : A := fst (m s).

Declare Scope monad_scope.
Delimit Scope monad_scope with monad.
Notation "x <- c1 ;; c2" := (bind c1 (fun x => c2))
  (at level 61, c1 at next level, right associativity) : monad_scope.
Notation "c1 ;; c2" := (bind c1 (fun _ => c2))
  (at level 61, right associativity) : monad_scope.
Local Open Scope monad_scope.

(** [for (x : xs) body] with no early exit. *)
Fixpoint forEach {S A} (xs : list A) (body : A -> M S unit) : M S unit :=
  match xs with
  | [] => ret tt
  | x :: rest => body x ;; forEach rest body
  end.

(** ** Basic types *)

(** [UUID]: a MusicBrainz identifier, kept in its textual form. *)
Definition UUID := string.

(** [std::filesystem::path]. *)
Definition path := string.

(** [std::size_t]: 64-bit unsigned, [++] wraps around. *)
Definition size_t := N.
Definition size_max : N := 2 ^ 64.
Definition incr (n : size_t) : size_t := (n + 1) mod size_max.

Definition opt_eqb {A} (eqb : A -> A -> bool) (x y : option A) : bool :=
  match x, y with
  | Some a, Some b => eqb a b
  | None, None => true
  | _, _ => false
  end.

Definition isSome {A} (o : option A) : bool :=
  match o with Some _ => true | None => false end.

(** [Wt::WDateTime]: seconds since the epoch and the millisecond part;
    [toTime_t] keeps the whole seconds only. *)
Record WDateTime := { dt_secs : Z; dt_msec : Z }.
Definition toTime_t (d : WDateTime) : Z := dt_secs d.

(** [Wt::WDate]: a default-constructed date is not valid. *)
Inductive WDate :=
| NullDate
| Date (year month day : N).

Definition isValid (d : WDate) : bool :=
  match d with NullDate => false | Date _ _ _ => true end.

(** [std::chrono::milliseconds]. *)
Definition milliseconds := Z.

(** Replay gain, [std::optional<float>] in the code; the scanner only
    copies the value, so it is kept as an opaque number. *)
Definition Gain := Z.

(** ** Parsed metadata ([MetaData::*], produced by the tag parser) *)

Module MetaData.

Inductive ParserReadStyle := Fast | Average | Accurate.
Inductive ParserType := TagLib | AvFormat.

Module Artist.
Record t := {
  name : string;
  sortName : option string;
  musicBrainzArtistID : option UUID
}.
End Artist.

Module Album.
Record t := {
  name : string;
  musicBrainzAlbumID : option UUID
}.
End Album.

Record AudioStream := { bitRate : N }.

(** [std::map<std::string, std::set<std::string>>], in key order. *)
Definition Clusters := list (string * list string).

(** [std::map<std::string, std::vector<Artist>>], keyed by role. *)
Definition PerformerContainer := list (string * list Artist.t).

Module Track.
Record t := {
  artists : list Artist.t;
  albumArtists : list Artist.t;
  conductorArtists : list Artist.t;
  composerArtists : list Artist.t;
  lyricistArtists : list Artist.t;
  mixerArtists : list Artist.t;
  performerArtists : PerformerContainer;
  producerArtists : list Artist.t;
  remixerArtists : list Artist.t;
  album : option Album.t;
  clusters : Clusters;
  audioStreams : list AudioStream;
  duration : milliseconds;
  title : string;
  trackNumber : option size_t;
  discNumber : option size_t;
  totalTrack : option size_t;
  totalDisc : option size_t;
  discSubtitle : string;
  date : WDate;
  originalDate : WDate;
  recordingMBID : option UUID;
  trackMBID : option UUID;
  hasCover : bool;
  copyright : string;
  copyrightURL : string;
  trackReplayGain : option Gain;
  albumReplayGain : option Gain
}.

Definition with_album (a : option Album.t) (ti : t) : t :=
  let 'Build_t x1 x2 x3 x4 x5 x6 x7 x8 x9 _ x11 x12 x13 x14 x15 x16 x17
               x18 x19 x20 x21 x22 x23 x24 x25 x26 x27 x28 := ti in
  Build_t x1 x2 x3 x4 x5 x6 x7 x8 x9 a x11 x12 x13 x14 x15 x16 x17
          x18 x19 x20 x21 x22 x23 x24 x25 x26 x27 x28.
End Track.

(** The parser object: its read style is fixed at creation, the cluster
    type names are set at the start of every scan. *)
Record IParser := {
  parserType : ParserType;
  readStyle : ParserReadStyle;
  clusterTypeNames : list string
}.

Definition createParser (ty : ParserType) (rs : ParserReadStyle) : IParser :=
  {| parserType := ty; readStyle := rs; clusterTypeNames := [] |}.

Definition setClusterTypeNames (names : list string) (p : IParser) : IParser :=
  {| parserType := parserType p; readStyle := readStyle p;
     clusterTypeNames := names |}.

End MetaData.

(** ** The catalog store ([Database::*])

    Modelled from the spec: the entity classes and the session ([Artist],
    [Release], [Cluster], [ClusterType], [Track], [TrackArtistLink],
    [TrackFeatures], [Session]) are not among the translated sources.  The
    spec describes the store as an arena of entities addressed by opaque
    identifiers, with find-by-path, find-by-MBID, find-by-name (zero or more
    matches, in encounter order), create, modify-in-place and remove.

    An object pointer ([Artist::pointer], ...) is the identifier of the
    object.  A query hands back the records it found; the scanner reads
    their fields right after the query, and modifies through the
    identifier. *)

Module Database.

Definition Id := N.

Module Artist.
Record t := {
  getId : Id;
  getName : string;
  getSortName : option string;
  getMBID : option UUID
}.

Definition setName (v : string) (a : t) : t :=
  {| getId := getId a; getName := v;
     getSortName := getSortName a; getMBID := getMBID a |}.

Definition setSortName (v : string) (a : t) : t :=
  {| getId := getId a; getName := getName a;
     getSortName := Some v; getMBID := getMBID a |}.

Definition setMBID (v : UUID) (a : t) : t :=
  {| getId := getId a; getName := getName a;
     getSortName := getSortName a; getMBID := Some v |}.
End Artist.

Module Release.
Record t := {
  getId : Id;
  getName : string;
  getMBID : option UUID
}.

Definition setName (v : string) (r : t) : t :=
  {| getId := getId r; getName := v; getMBID := getMBID r |}.
End Release.

Module ClusterType.
Record t := { getId : Id; getName : string }.
End ClusterType.

Module Cluster.
Record t := { getId : Id; getType : Id; getName : string }.
End Cluster.

Module TrackArtistLinkType.
Inductive t :=
| Artist | ReleaseArtist | Conductor | Composer | Lyricist
| Mixer | Performer | Producer | Remixer.
End TrackArtistLinkType.

Module TrackArtistLink.
Record t := {
  getId : Id;
  getTrack : Id;
  getArtist : Id;
  getType : TrackArtistLinkType.t;
  getRole : string
}.
End TrackArtistLink.

Module TrackFeatures.
Record t := { getId : Id; getTrackId : Id }.
End TrackFeatures.

Module Track.
Record t := {
  getId : Id;
  getPath : path;
  getScanVersion : size_t;
  getRelease : option Id;
  getClusters : list Id;
  getLastWriteTime : WDateTime;
  getName : string;
  getDuration : milliseconds;
  getAddedTime : WDateTime;
  getTrackNumber : size_t;
  getDiscNumber : size_t;
  getTotalTrack : option size_t;
  getTotalDisc : option size_t;
  getDiscSubtitle : string;
  getDate : WDate;
  getOriginalDate : WDate;
  getRecordingMBID : option UUID;
  getTrackMBID : option UUID;
  hasCover : bool;
  getCopyright : string;
  getCopyrightURL : string;
  getTrackReplayGain : option Gain;
  getReleaseReplayGain : option Gain
}.

Definition setScanVersion (v : size_t) (tr : t) : t :=
  let 'Build_t x1 x2 _ x4 x5 x6 x7 x8 x9 x10 x11 x12 x13 x14 x15 x16 x17
      x18 x19 x20 x21 x22 x23 := tr in
  Build_t x1 x2 v x4 x5 x6 x7 x8 x9 x10 x11 x12 x13 x14 x15 x16 x17 x18
      x19 x20 x21 x22 x23.

Definition setRelease (v : option Id) (tr : t) : t :=
  let 'Build_t x1 x2 x3 _ x5 x6 x7 x8 x9 x10 x11 x12 x13 x14 x15 x16 x17
      x18 x19 x20 x21 x22 x23 := tr in
  Build_t x1 x2 x3 v x5 x6 x7 x8 x9 x10 x11 x12 x13 x14 x15 x16 x17 x18
      x19 x20 x21 x22 x23.

(** The cluster association is a set: duplicates collapse. *)
Definition setClusters (v : list Id) (tr : t) : t :=
  let 'Build_t x1 x2 x3 x4 _ x6 x7 x8 x9 x10 x11 x12 x13 x14 x15 x16 x17
      x18 x19 x20 x21 x22 x23 := tr in
  Build_t x1 x2 x3 x4 (nodup N.eq_dec v) x6 x7 x8 x9 x10 x11 x12 x13 x14
      x15 x16 x17 x18 x19 x20 x21 x22 x23.

Definition setLastWriteTime (v : WDateTime) (tr : t) : t :=
  let 'Build_t x1 x2 x3 x4 x5 _ x7 x8 x9 x10 x11 x12 x13 x14 x15 x16 x17
      x18 x19 x20 x21 x22 x23 := tr in
  Build_t x1 x2 x3 x4 x5 v x7 x8 x9 x10 x11 x12 x13 x14 x15 x16 x17 x18
      x19 x20 x21 x22 x23.

Definition setName (v : string) (tr : t) : t :=
  let 'Build_t x1 x2 x3 x4 x5 x6 _ x8 x9 x10 x11 x12 x13 x14 x15 x16 x17
      x18 x19 x20 x21 x22 x23 := tr in
  Build_t x1 x2 x3 x4 x5 x6 v x8 x9 x10 x11 x12 x13 x14 x15 x16 x17 x18
      x19 x20 x21 x22 x23.

Definition setDuration (v : milliseconds) (tr : t) : t :=
  let 'Build_t x1 x2 x3 x4 x5 x6 x7 _ x9 x10 x11 x12 x13 x14 x15 x16 x17
      x18 x19 x20 x21 x22 x23 := tr in
  Build_t x1 x2 x3 x4 x5 x6 x7 v x9 x10 x11 x12 x13 x14 x15 x16 x17 x18
      x19 x20 x21 x22 x23.

Definition setAddedTime (v : WDateTime) (tr : t) : t :=
  let 'Build_t x1 x2 x3 x4 x5 x6 x7 x8 _ x10 x11 x12 x13 x14 x15 x16 x17
      x18 x19 x20 x21 x22 x23 := tr in
  Build_t x1 x2 x3 x4 x5 x6 x7 x8 v x10 x11 x12 x13 x14 x15 x16 x17 x18
      x19 x20 x21 x22 x23.

Definition setTrackNumber (v : size_t) (tr : t) : t :=
  let 'Build_t x1 x2 x3 x4 x5 x6 x7 x8 x9 _ x11 x12 x13 x14 x15 x16 x17
      x18 x19 x20 x21 x22 x23 := tr in
  Build_t x1 x2 x3 x4 x5 x6 x7 x8 x9 v x11 x12 x13 x14 x15 x16 x17 x18
      x19 x20 x21 x22 x23.

Definition setDiscNumber (v : size_t) (tr : t) : t :=
  let 'Build_t x1 x2 x3 x4 x5 x6 x7 x8 x9 x10 _ x12 x13 x14 x15 x16 x17
      x18 x19 x20 x21 x22 x23 := tr in
  Build_t x1 x2 x3 x4 x5 x6 x7 x8 x9 x10 v x12 x13 x14 x15 x16 x17 x18
      x19 x20 x21 x22 x23.

Definition setTotalTrack (v : option size_t) (tr : t) : t :=
  let 'Build_t x1 x2 x3 x4 x5 x6 x7 x8 x9 x10 x11 _ x13 x14 x15 x16 x17
      x18 x19 x20 x21 x22 x23 := tr in
  Build_t x1 x2 x3 x4 x5 x6 x7 x8 x9 x10 x11 v x13 x14 x15 x16 x17 x18
      x19 x20 x21 x22 x23.

Definition setTotalDisc (v : option size_t) (tr : t) : t :=
  let 'Build_t x1 x2 x3 x4 x5 x6 x7 x8 x9 x10 x11 x12 _ x14 x15 x16 x17
      x18 x19 x20 x21 x22 x23 := tr in
  Build_t x1 x2 x3 x4 x5 x6 x7 x8 x9 x10 x11 x12 v x14 x15 x16 x17 x18
      x19 x20 x21 x22 x23.

Definition setDiscSubtitle (v : string) (tr : t) : t :=
  let 'Build_t x1 x2 x3 x4 x5 x6 x7 x8 x9 x10 x11 x12 x13 _ x15 x16 x17
      x18 x19 x20 x21 x22 x23 := tr in
  Build_t x1 x2 x3 x4 x5 x6 x7 x8 x9 x10 x11 x12 x13 v x15 x16 x17 x18
      x19 x20 x21 x22 x23.

Definition setDate (v : WDate) (tr : t) : t :=
  let 'Build_t x1 x2 x3 x4 x5 x6 x7 x8 x9 x10 x11 x12 x13 x14 _ x16 x17
      x18 x19 x20 x21 x22 x23 := tr in
  Build_t x1 x2 x3 x4 x5 x6 x7 x8 x9 x10 x11 x12 x13 x14 v x16 x17 x18
      x19 x20 x21 x22 x23.

Definition setOriginalDate (v : WDate) (tr : t) : t :=
  let 'Build_t x1 x2 x3 x4 x5 x6 x7 x8 x9 x10 x11 x12 x13 x14 x15 _ x17
      x18 x19 x20 x21 x22 x23 := tr in
  Build_t x1 x2 x3 x4 x5 x6 x7 x8 x9 x10 x11 x12 x13 x14 x15 v x17 x18
      x19 x20 x21 x22 x23.

Definition setRecordingMBID (v : option UUID) (tr : t) : t :=
  let 'Build_t x1 x2 x3 x4 x5 x6 x7 x8 x9 x10 x11 x12 x13 x14 x15 x16 _
      x18 x19 x20 x21 x22 x23 := tr in
  Build_t x1 x2 x3 x4 x5 x6 x7 x8 x9 x10 x11 x12 x13 x14 x15 x16 v x18
      x19 x20 x21 x22 x23.

Definition setTrackMBID (v : option UUID) (tr : t) : t :=
  let 'Build_t x1 x2 x3 x4 x5 x6 x7 x8 x9 x10 x11 x12 x13 x14 x15 x16
      x17 _ x19 x20 x21 x22 x23 := tr in
  Build_t x1 x2 x3 x4 x5 x6 x7 x8 x9 x10 x11 x12 x13 x14 x15 x16 x17 v
      x19 x20 x21 x22 x23.

Definition setHasCover (v : bool) (tr : t) : t :=
  let 'Build_t x1 x2 x3 x4 x5 x6 x7 x8 x9 x10 x11 x12 x13 x14 x15 x16
      x17 x18 _ x20 x21 x22 x23 := tr in
  Build_t x1 x2 x3 x4 x5 x6 x7 x8 x9 x10 x11 x12 x13 x14 x15 x16 x17 x18
      v x20 x21 x22 x23.

Definition setCopyright (v : string) (tr : t) : t :=
  let 'Build_t x1 x2 x3 x4 x5 x6 x7 x8 x9 x10 x11 x12 x13 x14 x15 x16
      x17 x18 x19 _ x21 x22 x23 := tr in
  Build_t x1 x2 x3 x4 x5 x6 x7 x8 x9 x10 x11 x12 x13 x14 x15 x16 x17 x18
      x19 v x21 x22 x23.

Definition setCopyrightURL (v : string) (tr : t) : t :=
  let 'Build_t x1 x2 x3 x4 x5 x6 x7 x8 x9 x10 x11 x12 x13 x14 x15 x16
      x17 x18 x19 x20 _ x22 x23 := tr in
  Build_t x1 x2 x3 x4 x5 x6 x7 x8 x9 x10 x11 x12 x13 x14 x15 x16 x17 x18
      x19 x20 v x22 x23.

Definition setTrackReplayGain (v : option Gain) (tr : t) : t :=
  let 'Build_t x1 x2 x3 x4 x5 x6 x7 x8 x9 x10 x11 x12 x13 x14 x15 x16
      x17 x18 x19 x20 x21 _ x23 := tr in
  Build_t x1 x2 x3 x4 x5 x6 x7 x8 x9 x10 x11 x12 x13 x14 x15 x16 x17 x18
      x19 x20 x21 v x23.

Definition setReleaseReplayGain (v : option Gain) (tr : t) : t :=
  let 'Build_t x1 x2 x3 x4 x5 x6 x7 x8 x9 x10 x11 x12 x13 x14 x15 x16
      x17 x18 x19 x20 x21 x22 _ := tr in
  Build_t x1 x2 x3 x4 x5 x6 x7 x8 x9 x10 x11 x12 x13 x14 x15 x16 x17 x18
      x19 x20 x21 x22 v.

(** [session.create<Track>(file)]: only the path is set. *)
Definition create (i : Id) (p : path) : t :=
  {| getId := i; getPath := p; getScanVersion := 0; getRelease := None;
     getClusters := []; getLastWriteTime := {| dt_secs := 0; dt_msec := 0 |};
     getName := ""; getDuration := 0%Z;
     getAddedTime := {| dt_secs := 0; dt_msec := 0 |};
     getTrackNumber := 0; getDiscNumber := 0; getTotalTrack := None;
     getTotalDisc := None; getDiscSubtitle := ""; getDate := NullDate;
     getOriginalDate := NullDate; getRecordingMBID := None;
     getTrackMBID := None; hasCover := false; getCopyright := "";
     getCopyrightURL := ""; getTrackReplayGain := None;
     getReleaseReplayGain := None |}.
End Track.

(** The content of the store, as one session sees it. New objects are
    appended, so a table lists its objects in creation order. *)
Module Session.
Record t := {
  artists : list Artist.t;
  releases : list Release.t;
  clusterTypes : list ClusterType.t;
  clusters : list Cluster.t;
  tracks : list Track.t;
  trackArtistLinks : list TrackArtistLink.t;
  trackFeatures : list TrackFeatures.t;
  nextId : Id
}.

Definition with_artists (f : list Artist.t -> list Artist.t) (s : t) : t :=
  let 'Build_t a r ct c tr l tf n := s in Build_t (f a) r ct c tr l tf n.
Definition with_releases (f : list Release.t -> list Release.t) (s : t) : t :=
  let 'Build_t a r ct c tr l tf n := s in Build_t a (f r) ct c tr l tf n.
Definition with_clusters (f : list Cluster.t -> list Cluster.t) (s : t) : t :=
  let 'Build_t a r ct c tr l tf n := s in Build_t a r ct (f c) tr l tf n.
Definition with_tracks (f : list Track.t -> list Track.t) (s : t) : t :=
  let 'Build_t a r ct c tr l tf n := s in Build_t a r ct c (f tr) l tf n.
Definition with_trackArtistLinks
  (f : list TrackArtistLink.t -> list TrackArtistLink.t) (s : t) : t :=
  let 'Build_t a r ct c tr l tf n := s in Build_t a r ct c tr (f l) tf n.
Definition with_trackFeatures
  (f : list TrackFeatures.t -> list TrackFeatures.t) (s : t) : t :=
  let 'Build_t a r ct c tr l tf n := s in Build_t a r ct c tr l (f tf) n.
Definition with_nextId (f : Id -> Id) (s : t) : t :=
  let 'Build_t a r ct c tr l tf n := s in Build_t a r ct c tr l tf (f n).
End Session.

Definition DbM := M Session.t.

(** A fresh identifier for a created object. *)
Definition freshId : DbM Id :=
  i <- gets Session.nextId ;;
  modify (Session.with_nextId N.succ) ;;
  ret i.

(** *** Artists *)

(** [Artist::find(session, MBID)] *)
Definition findArtistByMBID (mbid : UUID) : DbM (option Artist.t) :=
  gets (fun s => find (fun a => opt_eqb String.eqb (Artist.getMBID a) (Some mbid))
                      (Session.artists s)).

(** [Artist::find(session, name)] *)
Definition findArtistsByName (name : string) : DbM (list Artist.t) :=
  gets (fun s => filter (fun a => String.eqb (Artist.getName a) name)
                        (Session.artists s)).

(** [session.create<Artist>(name)] *)
Definition createArtistObject (name : string) : DbM Id :=
  i <- freshId ;;
  modify (Session.with_artists (fun l =>
    l ++ [ {| Artist.getId := i; Artist.getName := name;
              Artist.getSortName := None; Artist.getMBID := None |} ])) ;;
  ret i.

(** [artist.modify()->...] *)
Definition modifyArtist (p : Id) (f : Artist.t -> Artist.t) : DbM unit :=
  modify (Session.with_artists
    (map (fun a => if Artist.getId a =? p then f a else a))).

(** *** Releases *)

(** [Release::find(session, MBID)] *)
Definition findReleaseByMBID (mbid : UUID) : DbM (option Release.t) :=
  gets (fun s => find (fun r => opt_eqb String.eqb (Release.getMBID r) (Some mbid))
                      (Session.releases s)).

(** [Release::find(session, name)] *)
Definition findReleasesByName (name : string) : DbM (list Release.t) :=
  gets (fun s => filter (fun r => String.eqb (Release.getName r) name)
                        (Session.releases s)).

(** [session.create<Release>(name, MBID)] *)
Definition createReleaseObject (name : string) (mbid : option UUID) : DbM Id :=
  i <- freshId ;;
  modify (Session.with_releases (fun l =>
    l ++ [ {| Release.getId := i; Release.getName := name;
              Release.getMBID := mbid |} ])) ;;
  ret i.

(** [release.modify()->...] *)
Definition modifyRelease (p : Id) (f : Release.t -> Release.t) : DbM unit :=
  modify (Session.with_releases
    (map (fun r => if Release.getId r =? p then f r else r))).

(** *** Clusters *)

(** [ClusterType::find(session, name)] *)
Definition findClusterType (name : string) : DbM (option ClusterType.t) :=
  gets (fun s => find (fun ct => String.eqb (ClusterType.getName ct) name)
                      (Session.clusterTypes s)).

(** [clusterType->getCluster(name)] *)
Definition getCluster (ct : ClusterType.t) (name : string) : DbM (option Cluster.t) :=
  gets (fun s => find (fun c => (Cluster.getType c =? ClusterType.getId ct)
                                && String.eqb (Cluster.getName c) name)
                      (Session.clusters s)).

(** [session.create<Cluster>(clusterType, name)] *)
Definition createClusterObject (ct : ClusterType.t) (name : string) : DbM Id :=
  i <- freshId ;;
  modify (Session.with_clusters (fun l =>
    l ++ [ {| Cluster.getId := i; Cluster.getType := ClusterType.getId ct;
              Cluster.getName := name |} ])) ;;
  ret i.

(** *** Tracks *)

(** [Track::findByPath(session, file)] *)
Definition findTrackByPath (p : path) : DbM (option Track.t) :=
  gets (fun s => find (fun tr => String.eqb (Track.getPath tr) p)
                      (Session.tracks s)).

(** [Track::findByRecordingMBID(session, MBID)] *)
Definition findTracksByRecordingMBID (mbid : UUID) : DbM (list Track.t) :=
  gets (fun s => filter (fun tr => opt_eqb String.eqb (Track.getRecordingMBID tr)
                                           (Some mbid))
                        (Session.tracks s)).

(** [session.create<Track>(file)] *)
Definition createTrackObject (p : path) : DbM Id :=
  i <- freshId ;;
  modify (Session.with_tracks (fun l => l ++ [Track.create i p])) ;;
  ret i.

(** [track.modify()->...] *)
Definition modifyTrack (p : Id) (f : Track.t -> Track.t) : DbM unit :=
  modify (Session.with_tracks
    (map (fun tr => if Track.getId tr =? p then f tr else tr))).

(** [track.remove()]: the track goes, and with it the artist links it
    owns. *)
Definition removeTrack (p : Id) : DbM unit :=
  modify (Session.with_tracks
    (filter (fun tr => negb (Track.getId tr =? p)))) ;;
  modify (Session.with_trackArtistLinks
    (filter (fun l => negb (TrackArtistLink.getTrack l =? p)))).

(** [track.modify()->clearArtistLinks()] *)
Definition clearArtistLinks (p : Id) : DbM unit :=
  modify (Session.with_trackArtistLinks
    (filter (fun l => negb (TrackArtistLink.getTrack l =? p)))).

(** [track.modify()->addArtistLink(TrackArtistLink::create(session, track,
    artist, type, role))] *)
Definition addArtistLink (track artist : Id) (ty : TrackArtistLinkType.t)
  (role : string) : DbM unit :=
  i <- freshId ;;
  modify (Session.with_trackArtistLinks (fun l =>
    l ++ [ {| TrackArtistLink.getId := i; TrackArtistLink.getTrack := track;
              TrackArtistLink.getArtist := artist;
              TrackArtistLink.getType := ty;
              TrackArtistLink.getRole := role |} ])).

(** [TrackFeatures::find(session, trackId)] *)
Definition findTrackFeatures (track : Id) : DbM (option TrackFeatures.t) :=
  gets (fun s => find (fun tf => TrackFeatures.getTrackId tf =? track)
                      (Session.trackFeatures s)).

(** [trackFeatures.remove()] *)
Definition removeTrackFeatures (p : Id) : DbM unit :=
  modify (Session.with_trackFeatures
    (filter (fun tf => negb (TrackFeatures.getId tf =? p)))).

End Database.

Import Database.

(** ** External collaborators *)

(** [LmsException], with its [what()] message. *)
Record LmsException := { what : string }.

(** [std::error_code]: it tests true when its value is not zero. *)
Record error_code := { ec_value : Z; ec_message : string }.
Definition ec_is_error (ec : error_code) : bool := negb (ec_value ec =? 0)%Z.

(** Modelled from the spec: [IConfig] is a set of string options;
    [getString key def] is the option's value, or [def] when it is unset. *)
Definition IConfig := list (string * string).

Fixpoint getString (cfg : IConfig) (key def : string) : string :=
  match cfg with
  | [] => def
  | (k, v) :: rest => if String.eqb k key then v else getString rest key def
  end.

(** What the scanner asks of the outside world. None of these is part of
    the translated sources; they are taken as given.
    - [getLastWriteTime]    is [PathUtils::getLastWriteTime], which throws;
    - [parse]               is [IParser::parse];
    - [currentDateTime f]   is the clock reading when [f] is written to the
                            catalog;
    - [exploreFilesRecursive dir excl] is the sequence of entries that the
                            directory walker reports for [dir];
    - [hasFileAnyExtension] is [PathUtils::hasFileAnyExtension];
    - [filename]            is [std::filesystem::path::filename];
    - [excludeDirFileName]  is the name of the marker file that excludes a
                            directory from the walk;
    - [abortScan k]         is the value of the abort flag when the callback
                            is entered for entry number [k] of the walk. *)
Record Env := {
  getLastWriteTime : path -> LmsException + WDateTime;
  parse : MetaData.IParser -> path -> option MetaData.Track.t;
  currentDateTime : path -> WDateTime;
  exploreFilesRecursive : path -> path -> list (error_code * path);
  hasFileAnyExtension : path -> list path -> bool;
  filename : path -> string;
  excludeDirFileName : path;
  abortScan : nat -> bool
}.

(** ** The resolvers (anonymous namespace of ScanStepScanFiles.cpp) *)

Definition createArtist (artistInfo : MetaData.Artist.t) : DbM Id :=
  artist <- createArtistObject (MetaData.Artist.name artistInfo) ;;
  match MetaData.Artist.musicBrainzArtistID artistInfo with
  | Some mbid => modifyArtist artist (Artist.setMBID mbid)
  | None => ret tt
  end ;;
  match MetaData.Artist.sortName artistInfo with
  | Some sortName => modifyArtist artist (Artist.setSortName sortName)
  | None => ret tt
  end ;;
  ret artist.

Definition updateArtistIfNeeded (artist : Artist.t)
  (artistInfo : MetaData.Artist.t) : DbM unit :=
  (* Name may have been updated *)
  (if negb (String.eqb (Artist.getName artist) (MetaData.Artist.name artistInfo))
   then modifyArtist (Artist.getId artist)
          (Artist.setName (MetaData.Artist.name artistInfo))
   else ret tt) ;;
  (* Sortname may have been updated *)
  match MetaData.Artist.sortName artistInfo with
  | Some sortName =>
      if negb (opt_eqb String.eqb (Some sortName) (Artist.getSortName artist))
      then modifyArtist (Artist.getId artist) (Artist.setSortName sortName)
      else ret tt
  | None => ret tt
  end.

(** The inner loop of [getOrCreateArtists] over the same-named artists:
    [continue] on a tagged artist unless the fallback is allowed, [break] on
    the first one kept. *)
Fixpoint selectSameNamedArtist (allowFallbackOnMBIDEntries : bool)
  (sameNamed : list Artist.t) : option Artist.t :=
  match sameNamed with
  | [] => None
  | sameNamedArtist :: rest =>
      if negb allowFallbackOnMBIDEntries && isSome (Artist.getMBID sameNamedArtist)
      then selectSameNamedArtist allowFallbackOnMBIDEntries rest
      else Some sameNamedArtist
  end.

(** The body of the outer loop of [getOrCreateArtists], for one parsed
    artist: the pointer it appends to the result, if any. *)
Definition getOrCreateArtist (artistInfo : MetaData.Artist.t)
  (allowFallbackOnMBIDEntries : bool) : DbM (option Id) :=
  match MetaData.Artist.musicBrainzArtistID artistInfo with
  | Some mbid =>
      (* First try to get by MBID *)
      found <- findArtistByMBID mbid ;;
      match found with
      | None => artist <- createArtist artistInfo ;; ret (Some artist)
      | Some artist =>
          updateArtistIfNeeded artist artistInfo ;;
          ret (Some (Artist.getId artist))
      end
  | None =>
      (* Fall back on artist name (collisions may occur) *)
      if negb (String.eqb (MetaData.Artist.name artistInfo) "")
      then
        sameNamed <- findArtistsByName (MetaData.Artist.name artistInfo) ;;
        match selectSameNamedArtist allowFallbackOnMBIDEntries sameNamed with
        | None => artist <- createArtist artistInfo ;; ret (Some artist)
        | Some artist =>
            updateArtistIfNeeded artist artistInfo ;;
            ret (Some (Artist.getId artist))
        end
      else ret None
  end.

Fixpoint getOrCreateArtists (artistsInfo : list MetaData.Artist.t)
  (allowFallbackOnMBIDEntries : bool) : DbM (list Id) :=
  match artistsInfo with
  | [] => ret []
  | artistInfo :: rest =>
      artist <- getOrCreateArtist artistInfo allowFallbackOnMBIDEntries ;;
      artists <- getOrCreateArtists rest allowFallbackOnMBIDEntries ;;
      ret (match artist with
           | Some a => a :: artists
           | None => artists
           end)
  end.

(** The loop of [getOrCreateRelease] over the same-named releases. *)
Fixpoint selectSameNamedRelease (sameNamed : list Release.t) : option Release.t :=
  match sameNamed with
  | [] => None
  | sameNamedRelease :: rest =>
      if negb (isSome (Release.getMBID sameNamedRelease))
      then Some sameNamedRelease
      else selectSameNamedRelease rest
  end.

Definition getOrCreateRelease (album : MetaData.Album.t) : DbM (option Id) :=
  match MetaData.Album.musicBrainzAlbumID album with
  | Some mbid =>
      (* First try to get by MBID *)
      found <- findReleaseByMBID mbid ;;
      match found with
      | None =>
          release <- createReleaseObject (MetaData.Album.name album) (Some mbid) ;;
          ret (Some release)
      | Some release =>
          (if negb (String.eqb (Release.getName release) (MetaData.Album.name album))
           then modifyRelease (Release.getId release)
                  (Release.setName (MetaData.Album.name album))
           else ret tt) ;;
          ret (Some (Release.getId release))
      end
  | None =>
      (* Fall back on release name (collisions may occur) *)
      if negb (String.eqb (MetaData.Album.name album) "")
      then
        sameNamed <- findReleasesByName (MetaData.Album.name album) ;;
        match selectSameNamedRelease sameNamed with
        | Some release => ret (Some (Release.getId release))
        | None =>
            release <- createReleaseObject (MetaData.Album.name album) None ;;
            ret (Some release)
        end
      else ret None
  end.

(** The inner loop of [getOrCreateClusters], over the names of one type. *)
Fixpoint getOrCreateClustersOfType (clusterType : ClusterType.t)
  (names : list string) : DbM (list Id) :=
  match names with
  | [] => ret []
  | clusterName :: rest =>
      found <- getCluster clusterType clusterName ;;
      cluster <- match found with
                 | Some c => ret (Cluster.getId c)
                 | None => createClusterObject clusterType clusterName
                 end ;;
      clusters <- getOrCreateClustersOfType clusterType rest ;;
      ret (cluster :: clusters)
  end.

Fixpoint getOrCreateClusters (clustersNames : MetaData.Clusters) : DbM (list Id) :=
  match clustersNames with
  | [] => ret []
  | clusterNames :: rest =>
      clusterType <- findClusterType (fst clusterNames) ;;
      here <- match clusterType with
              | None => ret []
              | Some ct => getOrCreateClustersOfType ct (snd clusterNames)
              end ;;
      clusters <- getOrCreateClusters rest ;;
      ret (here ++ clusters)
  end.

Definition getParserReadStyle (config : IConfig)
  : LmsException + MetaData.ParserReadStyle :=
  let readStyle := getString config "scanner-parser-read-style" "accurate" in
  if String.eqb readStyle "fast" then inr MetaData.Fast
  else if String.eqb readStyle "average" then inr MetaData.Average
  else if String.eqb readStyle "accurate" then inr MetaData.Accurate
  else inl {| what := "Invalid value for 'scanner-parser-read-style'" |}.

(** ** The scan step ([namespace Scanner]) *)

Module Scanner.

Inductive ScanErrorType :=
| CannotReadFile | CannotParseFile | NoAudioTrack | BadDuration.

Record ScanError := {
  file : path;
  error : ScanErrorType;
  systemError : string
}.

Record ScanStats := {
  filesScanned : size_t;
  skips : size_t;
  scans : size_t;
  additions : size_t;
  updates : size_t;
  deletions : size_t;
  errors : list ScanError
}.

Definition with_skips (f : size_t -> size_t) (s : ScanStats) : ScanStats :=
  let 'Build_ScanStats fs sk sc ad up de er := s in
  Build_ScanStats fs (f sk) sc ad up de er.
Definition with_scans (f : size_t -> size_t) (s : ScanStats) : ScanStats :=
  let 'Build_ScanStats fs sk sc ad up de er := s in
  Build_ScanStats fs sk (f sc) ad up de er.
Definition with_additions (f : size_t -> size_t) (s : ScanStats) : ScanStats :=
  let 'Build_ScanStats fs sk sc ad up de er := s in
  Build_ScanStats fs sk sc (f ad) up de er.
Definition with_updates (f : size_t -> size_t) (s : ScanStats) : ScanStats :=
  let 'Build_ScanStats fs sk sc ad up de er := s in
  Build_ScanStats fs sk sc ad (f up) de er.
Definition with_deletions (f : size_t -> size_t) (s : ScanStats) : ScanStats :=
  let 'Build_ScanStats fs sk sc ad up de er := s in
  Build_ScanStats fs sk sc ad up (f de) er.
(** [errors.emplace_back(e)] *)
Definition emplace_error (e : ScanError) (s : ScanStats) : ScanStats :=
  let 'Build_ScanStats fs sk sc ad up de er := s in
  Build_ScanStats fs sk sc ad up de (er ++ [e]).

Record ScanStepStats := {
  totalElems : size_t;
  processedElems : size_t
}.

Record ScanContext := {
  directory : path;
  forceScan : bool;
  stats : ScanStats;
  currentStepStats : ScanStepStats
}.

Definition with_stats (f : ScanStats -> ScanStats) (c : ScanContext) : ScanContext :=
  {| directory := directory c; forceScan := forceScan c;
     stats := f (stats c); currentStepStats := currentStepStats c |}.
Definition with_currentStepStats (f : ScanStepStats -> ScanStepStats)
  (c : ScanContext) : ScanContext :=
  {| directory := directory c; forceScan := forceScan c;
     stats := stats c; currentStepStats := f (currentStepStats c) |}.

Record ScannerSettings := {
  scanVersion : size_t;
  skipDuplicateRecordingMBID : bool;
  supportedExtensions : list path;
  clusterTypeNames : list string
}.

(** The step object: the members the file uses. *)
Record ScanStepScanFiles := {
  _settings : ScannerSettings;
  _metadataParser : MetaData.IParser
}.

(** [InitParams] of the step, as far as this file reads them. *)
Record InitParams := { initSettings : ScannerSettings }.

(** The constructor: [getParserReadStyle] runs in the member initializer
    list, so its exception leaves no step object. *)
Definition ScanStepScanFiles_new (config : IConfig) (initParams : InitParams)
  : LmsException + ScanStepScanFiles :=
  match getParserReadStyle config with
  | inl e => inl e
  | inr readStyle =>
      inr {| _settings := initSettings initParams;
             _metadataParser := MetaData.createParser MetaData.TagLib readStyle |}
  end.

(** Everything a method of the step can change: the step itself, the
    catalog behind [_db], the scan context it is given, and the calls
    received by [_progressCallback]. *)
Record St := {
  self : ScanStepScanFiles;
  db : Session.t;
  context : ScanContext;
  progressCalls : list ScanStepStats
}.

Definition with_self (f : ScanStepScanFiles -> ScanStepScanFiles) (st : St) : St :=
  {| self := f (self st); db := db st; context := context st;
     progressCalls := progressCalls st |}.
Definition with_db (f : Session.t -> Session.t) (st : St) : St :=
  {| self := self st; db := f (db st); context := context st;
     progressCalls := progressCalls st |}.
Definition with_context (f : ScanContext -> ScanContext) (st : St) : St :=
  {| self := self st; db := db st; context := f (context st);
     progressCalls := progressCalls st |}.
Definition with_progressCalls (f : list ScanStepStats -> list ScanStepStats)
  (st : St) : St :=
  {| self := self st; db := db st; context := context st;
     progressCalls := f (progressCalls st) |}.

(** A database operation, run on the session of the step. *)
Definition liftDb {A} (m : DbM A) : M St A :=
  fun st => let '(a, d) := m (db st) in (a, with_db (fun _ => d) st).

Definition modifyStats (f : ScanStats -> ScanStats) : M St unit :=
  modify (with_context (with_stats f)).

(** [_progressCallback(stats)] *)
Definition progressCallback (p : ScanStepStats) : M St unit :=
  modify (with_progressCalls (fun l => l ++ [p])).

(** Lines 286-303 of [scanAudioFile]: the loop over the tracks that carry
    the recording MBID.  The result tells whether the function returned
    from inside the loop. *)
Fixpoint skipDuplicateRecordingMBIDLoop (track : option Track.t)
  (others : list Track.t) : M St bool :=
  match others with
  | [] => ret false
  | otherTrack :: rest =>
      if match track with
         | Some t => Track.getId t =? Track.getId otherTrack
         | None => false
         end
      then skipDuplicateRecordingMBIDLoop track rest
      else
        (* This recording MBID already exists, just remove what we just scanned *)
        match track with
        | Some t =>
            liftDb (removeTrack (Track.getId t)) ;;
            modifyStats (with_deletions incr)
        | None => ret tt
        end ;;
        ret true
  end.

(** Lines 364-396 of [scanAudioFile]: the artist links are cleared and
    built again, role after role. *)
Definition rebuildArtistLinks (track : Id) (trackInfo : MetaData.Track.t)
  : DbM unit :=
  let link ty role := fun artist => addArtistLink track artist ty role in
  clearArtistLinks track ;;
  (* Do not fallback on artists with the same name but having a MBID for
     artist and releaseArtists *)
  l <- getOrCreateArtists (MetaData.Track.artists trackInfo) false ;;
  forEach l (link TrackArtistLinkType.Artist "") ;;
  l <- getOrCreateArtists (MetaData.Track.albumArtists trackInfo) false ;;
  forEach l (link TrackArtistLinkType.ReleaseArtist "") ;;
  (* Allow fallbacks on artists with the same name even if they have MBID *)
  l <- getOrCreateArtists (MetaData.Track.conductorArtists trackInfo) true ;;
  forEach l (link TrackArtistLinkType.Conductor "") ;;
  l <- getOrCreateArtists (MetaData.Track.composerArtists trackInfo) true ;;
  forEach l (link TrackArtistLinkType.Composer "") ;;
  l <- getOrCreateArtists (MetaData.Track.lyricistArtists trackInfo) true ;;
  forEach l (link TrackArtistLinkType.Lyricist "") ;;
  l <- getOrCreateArtists (MetaData.Track.mixerArtists trackInfo) true ;;
  forEach l (link TrackArtistLinkType.Mixer "") ;;
  forEach (MetaData.Track.performerArtists trackInfo) (fun rp =>
    l <- getOrCreateArtists (snd rp) true ;;
    forEach l (link TrackArtistLinkType.Performer (fst rp))) ;;
  l <- getOrCreateArtists (MetaData.Track.producerArtists trackInfo) true ;;
  forEach l (link TrackArtistLinkType.Producer "") ;;
  l <- getOrCreateArtists (MetaData.Track.remixerArtists trackInfo) true ;;
  forEach l (link TrackArtistLinkType.Remixer "").

(** Lines 398-428 of [scanAudioFile]: the fields of the track. *)
Definition updateTrackData (settings : ScannerSettings) (track : Id)
  (trackInfo : MetaData.Track.t) (lastWriteTime : WDateTime)
  (title : string) (now : WDateTime) : DbM unit :=
  modifyTrack track (Track.setScanVersion (scanVersion settings)) ;;
  match MetaData.Track.album trackInfo with
  | Some album =>
      release <- getOrCreateRelease album ;;
      modifyTrack track (Track.setRelease release)
  | None => modifyTrack track (Track.setRelease None)
  end ;;
  clusters <- getOrCreateClusters (MetaData.Track.clusters trackInfo) ;;
  modifyTrack track (Track.setClusters clusters) ;;
  modifyTrack track (Track.setLastWriteTime lastWriteTime) ;;
  modifyTrack track (Track.setName title) ;;
  modifyTrack track (Track.setDuration (MetaData.Track.duration trackInfo)) ;;
  modifyTrack track (Track.setAddedTime now) ;;
  modifyTrack track (Track.setTrackNumber
    (match MetaData.Track.trackNumber trackInfo with Some n => n | None => 0 end)) ;;
  modifyTrack track (Track.setDiscNumber
    (match MetaData.Track.discNumber trackInfo with Some n => n | None => 0 end)) ;;
  modifyTrack track (Track.setTotalTrack (MetaData.Track.totalTrack trackInfo)) ;;
  modifyTrack track (Track.setTotalDisc (MetaData.Track.totalDisc trackInfo)) ;;
  modifyTrack track (Track.setDiscSubtitle (MetaData.Track.discSubtitle trackInfo)) ;;
  modifyTrack track (Track.setDate (MetaData.Track.date trackInfo)) ;;
  modifyTrack track (Track.setOriginalDate (MetaData.Track.originalDate trackInfo)) ;;
  (* If a file has an OriginalYear but no Year, set it to ease filtering *)
  (if negb (isValid (MetaData.Track.date trackInfo))
      && isValid (MetaData.Track.originalDate trackInfo)
   then modifyTrack track (Track.setDate (MetaData.Track.originalDate trackInfo))
   else ret tt) ;;
  modifyTrack track (Track.setRecordingMBID (MetaData.Track.recordingMBID trackInfo)) ;;
  modifyTrack track (Track.setTrackMBID (MetaData.Track.trackMBID trackInfo)) ;;
  trackFeatures <- findTrackFeatures track ;;
  match trackFeatures with
  | Some tf => removeTrackFeatures (TrackFeatures.getId tf)
  | None => ret tt
  end ;;
  modifyTrack track (Track.setHasCover (MetaData.Track.hasCover trackInfo)) ;;
  modifyTrack track (Track.setCopyright (MetaData.Track.copyright trackInfo)) ;;
  modifyTrack track (Track.setCopyrightURL (MetaData.Track.copyrightURL trackInfo)) ;;
  modifyTrack track (Track.setTrackReplayGain
    (MetaData.Track.trackReplayGain trackInfo)) ;;
  modifyTrack track (Track.setReleaseReplayGain
    (MetaData.Track.albumReplayGain trackInfo)).

(** Lines 256-270 of [scanAudioFile]: whether the file is skipped because
    its last write is the same. *)
Definition lastWriteIsTheSame (file : path) (lastWriteTime : WDateTime)
  : M St bool :=
  force <- gets (fun st => forceScan (context st)) ;;
  if negb force
  then
    track <- liftDb (findTrackByPath file) ;;
    version <- gets (fun st => scanVersion (_settings (self st))) ;;
    ret match track with
        | Some t =>
            (toTime_t (Track.getLastWriteTime t) =? toTime_t lastWriteTime)%Z
            && (Track.getScanVersion t =? version)
        | None => false
        end
  else ret false.

(** Lines 335-428 of [scanAudioFile]: the file is a valid audio file, its
    track is created or updated. *)
Definition upsertTrack (env : Env) (file : path) (lastWriteTime : WDateTime)
  (trackInfo : MetaData.Track.t) (track : option Track.t) : M St unit :=
  let title :=
    if negb (String.eqb (MetaData.Track.title trackInfo) "")
    then MetaData.Track.title trackInfo
    else filename env file in
  (* If file already exists, update its data. Otherwise, create it *)
  trackId <- match track with
             | None =>
                 t <- liftDb (createTrackObject file) ;;
                 modifyStats (with_additions incr) ;;
                 ret t
             | Some t =>
                 modifyStats (with_updates incr) ;;
                 ret (Track.getId t)
             end ;;
  liftDb (rebuildArtistLinks trackId trackInfo) ;;
  settings <- gets (fun st => _settings (self st)) ;;
  liftDb (updateTrackData settings trackId trackInfo lastWriteTime title
            (currentDateTime env file)).

(** Lines 279-428 of [scanAudioFile]: the file has been parsed. *)
Definition scanParsedFile (env : Env) (file : path) (lastWriteTime : WDateTime)
  (trackInfo : MetaData.Track.t) : M St unit :=
  modifyStats (with_scans incr) ;;
  track <- liftDb (findTrackByPath file) ;;
  settings <- gets (fun st => _settings (self st)) ;;
  (* Skip duplicate recording MBID *)
  returned <-
    match MetaData.Track.recordingMBID trackInfo with
    | Some mbid =>
        if skipDuplicateRecordingMBID settings
        then
          others <- liftDb (findTracksByRecordingMBID mbid) ;;
          skipDuplicateRecordingMBIDLoop track others
        else ret false
    | None => ret false
    end ;;
  if returned : bool then ret tt
  else
    match MetaData.Track.audioStreams trackInfo with
    | [] =>
        (* If Track exists here, delete it! *)
        match track with
        | Some t =>
            liftDb (removeTrack (Track.getId t)) ;;
            modifyStats (with_deletions incr)
        | None => ret tt
        end ;;
        modifyStats (emplace_error
          {| file := file; error := NoAudioTrack; systemError := "" |})
    | _ :: _ =>
        if (MetaData.Track.duration trackInfo =? 0)%Z
        then
          (* If Track exists here, delete it! *)
          match track with
          | Some t =>
              liftDb (removeTrack (Track.getId t)) ;;
              modifyStats (with_deletions incr)
          | None => ret tt
          end ;;
          modifyStats (emplace_error
            {| file := file; error := BadDuration; systemError := "" |})
        else upsertTrack env file lastWriteTime trackInfo track
    end.

Definition scanAudioFile (env : Env) (file : path) : M St unit :=
  match getLastWriteTime env file with
  | inl e =>
      (* the exception is logged *)
      modifyStats (with_skips incr)
  | inr lastWriteTime =>
      same <- lastWriteIsTheSame file lastWriteTime ;;
      if same : bool then modifyStats (with_skips incr)
      else
        parser <- gets (fun st => _metadataParser (self st)) ;;
        match parse env parser file with
        | None =>
            modifyStats (emplace_error
              {| file := file; error := CannotParseFile; systemError := "" |})
        | Some trackInfo => scanParsedFile env file lastWriteTime trackInfo
        end
  end.

(** The callback that [process] hands to the directory walker, for entry
    number [k]; its result tells the walker whether to go on. *)
Definition processEntry (env : Env) (k : nat) (entry : error_code * path)
  : M St bool :=
  let '(ec, p) := entry in
  if abortScan env k then ret false
  else
    settings <- gets (fun st => _settings (self st)) ;;
    (if ec_is_error ec
     then
       modifyStats (emplace_error
         {| file := p; error := CannotReadFile; systemError := ec_message ec |})
     else if hasFileAnyExtension env p (supportedExtensions settings)
     then
       scanAudioFile env p ;;
       modify (with_context (with_currentStepStats (fun s =>
         {| totalElems := totalElems s;
            processedElems := incr (processedElems s) |}))) ;;
       current <- gets (fun st => currentStepStats (context st)) ;;
       progressCallback current
     else ret tt) ;;
    ret true.

(** The walker: it reports its entries in turn and stops as soon as the
    callback answers [false]. *)
Fixpoint explore (env : Env) (k : nat) (entries : list (error_code * path))
  : M St unit :=
  match entries with
  | [] => ret tt
  | entry :: rest =>
      goOn <- processEntry env k entry ;;
      if goOn : bool then explore env (S k) rest else ret tt
  end.

Definition process (env : Env) : M St unit :=
  modify (with_self (fun this =>
    {| _settings := _settings this;
       _metadataParser :=
         MetaData.setClusterTypeNames (clusterTypeNames (_settings this))
           (_metadataParser this) |})) ;;
  modify (with_context (fun c => with_currentStepStats (fun s =>
    {| totalElems := filesScanned (stats c);
       processedElems := processedElems s |}) c)) ;;
  dir <- gets (fun st => directory (context st)) ;;
  explore env 0 (exploreFilesRecursive env dir (excludeDirFileName env)).

End Scanner.

Import Scanner.

(** ** Notions used in the statements *)

(** The test of the duplicate loop: [otherTrack] is not the track found at
    the path being scanned. *)
Definition isOtherTrack (track : option Track.t) (otherTrack : Track.t) : bool :=
  negb match track with
       | Some t => Track.getId t =? Track.getId otherTrack
       | None => false
       end.

(** Whether the duplicate check of [scanParsedFile] makes it return. *)
Definition duplicateFound (p : path) (trackInfo : MetaData.Track.t) (st : St)
  : bool :=
  match MetaData.Track.recordingMBID trackInfo with
  | Some mbid =>
      skipDuplicateRecordingMBID (_settings (self st))
      && existsb (isOtherTrack (eval (findTrackByPath p) (db st)))
           (eval (findTracksByRecordingMBID mbid) (db st))
  | None => false
  end.

(** "If Track exists here, delete it!" *)
Definition removeIfExists (track : option Track.t) : M St unit :=
  match track with
  | Some t =>
      liftDb (removeTrack (Track.getId t)) ;;
      modifyStats (with_deletions incr)
  | None => ret tt
  end.

(** The catalog once the track [track] is removed from it, if there is one. *)
Definition withoutTrack (track : option Track.t) (s : Session.t) : Session.t :=
  match track with
  | Some t =>
      Session.with_trackArtistLinks
        (filter (fun l => negb (TrackArtistLink.getTrack l =? Track.getId t)))
        (Session.with_tracks
           (filter (fun tr => negb (Track.getId tr =? Track.getId t))) s)
  | None => s
  end.

(** A file that is not valid audio: its track goes, an error is recorded. *)
Definition invalidAudio (p : path) (ty : ScanErrorType) (track : option Track.t)
  : M St unit :=
  removeIfExists track ;;
  modifyStats (emplace_error {| file := p; error := ty; systemError := "" |}).

(** The flag of the artist resolution as the specification words it: by
    role, [false] for the main artists and the release artists only. *)
Definition allowFallbackOnTaggedEntries (ty : TrackArtistLinkType.t) : bool :=
  match ty with
  | TrackArtistLinkType.Artist | TrackArtistLinkType.ReleaseArtist => false
  | _ => true
  end.

(** The role lists of a parsed track, in the order the scanner takes them:
    link type, performer role, parsed artists. *)
Definition roleLists (trackInfo : MetaData.Track.t)
  : list (TrackArtistLinkType.t * string * list MetaData.Artist.t) :=
  [ (TrackArtistLinkType.Artist, "", MetaData.Track.artists trackInfo);
    (TrackArtistLinkType.ReleaseArtist, "", MetaData.Track.albumArtists trackInfo);
    (TrackArtistLinkType.Conductor, "", MetaData.Track.conductorArtists trackInfo);
    (TrackArtistLinkType.Composer, "", MetaData.Track.composerArtists trackInfo);
    (TrackArtistLinkType.Lyricist, "", MetaData.Track.lyricistArtists trackInfo);
    (TrackArtistLinkType.Mixer, "", MetaData.Track.mixerArtists trackInfo) ]
  ++ map (fun rp => (TrackArtistLinkType.Performer, fst rp, snd rp))
         (MetaData.Track.performerArtists trackInfo)
  ++ [ (TrackArtistLinkType.Producer, "", MetaData.Track.producerArtists trackInfo);
       (TrackArtistLinkType.Remixer, "", MetaData.Track.remixerArtists trackInfo) ].

(** The rebuilding of the artist links, with the flag computed from the
    role. *)
Definition rebuildArtistLinksByRole (track : Id) (trackInfo : MetaData.Track.t)
  : DbM unit :=
  clearArtistLinks track ;;
  forEach (roleLists trackInfo) (fun r =>
    l <- getOrCreateArtists (snd r) (allowFallbackOnTaggedEntries (fst (fst r))) ;;
    forEach l (fun artist => addArtistLink track artist (fst (fst r)) (snd (fst r)))).

(** What [updateArtistIfNeeded artist artistInfo] makes of a stored record
    [x]: the tests read [artist], the setters act on [x]. *)
Definition updatedArtist (artist : Artist.t) (artistInfo : MetaData.Artist.t)
  (x : Artist.t) : Artist.t :=
  let x1 :=
    if negb (String.eqb (Artist.getName artist) (MetaData.Artist.name artistInfo))
    then Artist.setName (MetaData.Artist.name artistInfo) x
    else x in
  match MetaData.Artist.sortName artistInfo with
  | Some sortName =>
      if negb (opt_eqb String.eqb (Some sortName) (Artist.getSortName artist))
      then Artist.setSortName sortName x1
      else x1
  | None => x1
  end.

(** The record of an artist created from [artistInfo] under the identifier
    [i]. *)
Definition newArtist (i : Id) (artistInfo : MetaData.Artist.t) : Artist.t :=
  {| Artist.getId := i;
     Artist.getName := MetaData.Artist.name artistInfo;
     Artist.getSortName := MetaData.Artist.sortName artistInfo;
     Artist.getMBID := MetaData.Artist.musicBrainzArtistID artistInfo |}.

(** An entry of the walk for which [processEntry] scans a file: no error
    from the walker, and a supported extension. *)
Definition isAudioEntry (env : Env) (settings : ScannerSettings)
  (entry : error_code * path) : bool :=
  negb (ec_is_error (fst entry))
  && hasFileAnyExtension env (snd entry) (supportedExtensions settings).

(** The entries that the walk reaches before the abort flag is seen set,
    [k] being the number of the first one. *)
Fixpoint visitedEntries (env : Env) (k : nat) (entries : list (error_code * path))
  : list (error_code * path) :=
  match entries with
  | [] => []
  | entry :: rest =>
      if abortScan env k then [] else entry :: visitedEntries env (S k) rest
  end.

(** What a method of the step leaves alone when it works on the catalog and
    on the statistics only. *)
Definition sameFrame (st st' : St) : Prop :=
  self st' = self st /\
  progressCalls st' = progressCalls st /\
  currentStepStats (context st') = currentStepStats (context st) /\
  directory (context st') = directory (context st) /\
  forceScan (context st') = forceScan (context st) /\
  filesScanned (stats (context st')) = filesScanned (stats (context st)).

Definition keepsFrame {A} (m : M St A) : Prop :=
  forall st, sameFrame st (exec m st).

(** The catalog [s] holds a track with the identifier [tid], and every
    track with this identifier has the value [v] in its field [g]. *)
Definition trackField {X} (g : Track.t -> X) (v : X) (tid : Id) (s : Session.t)
  : Prop :=
  (exists t, In t (Session.tracks s) /\ Track.getId t = tid) /\
  (forall t, In t (Session.tracks s) -> Track.getId t = tid -> g t = v).

(** The catalog holds a track with the identifier [tid]. *)
Definition trackExists (tid : Id) (s : Session.t) : Prop :=
  trackField (fun _ => tt) tt tid s.

(** Hoare triples over the database monad. *)
Definition hoare {A} (P : Session.t -> Prop) (m : DbM A)
  (Q : A -> Session.t -> Prop) : Prop :=
  forall s, P s -> Q (eval m s) (exec m s).

(** The operation leaves the table of tracks as it is. *)
Definition keepsTracks {A} (m : DbM A) : Prop :=
  forall s, Session.tracks (exec m s) = Session.tracks s.

(** The identifier of the track that [upsertTrack] writes: the one found at
    the path, or the one about to be created. *)
Definition upsertedTrackId (p : path) (s : Session.t) : Id :=
  match eval (findTrackByPath p) s with
  | Some t => Track.getId t
  | None => Session.nextId s
  end.

(** ** Further notions *)

(** The computation leaves the part [proj] of the state as it is. *)
Definition preserves {S A X} (proj : S -> X) (m : M S A) : Prop :=
  forall s, proj (exec m s) = proj s.

(** What [updateTrackData] makes of the record of the track, given the
    release and the clusters that the resolvers return: the setters of
    lines 398-428, in their order. *)
Definition writtenTrack (settings : ScannerSettings) (trackInfo : MetaData.Track.t)
  (lastWriteTime : WDateTime) (title : string) (now : WDateTime)
  (release : option Id) (clusters : list Id) (t : Track.t) : Track.t :=
  let t := Track.setScanVersion (scanVersion settings) t in
  let t := Track.setRelease release t in
  let t := Track.setClusters clusters t in
  let t := Track.setLastWriteTime lastWriteTime t in
  let t := Track.setName title t in
  let t := Track.setDuration (MetaData.Track.duration trackInfo) t in
  let t := Track.setAddedTime now t in
  let t := Track.setTrackNumber
             (match MetaData.Track.trackNumber trackInfo with
              | Some n => n | None => 0 end) t in
  let t := Track.setDiscNumber
             (match MetaData.Track.discNumber trackInfo with
              | Some n => n | None => 0 end) t in
  let t := Track.setTotalTrack (MetaData.Track.totalTrack trackInfo) t in
  let t := Track.setTotalDisc (MetaData.Track.totalDisc trackInfo) t in
  let t := Track.setDiscSubtitle (MetaData.Track.discSubtitle trackInfo) t in
  let t := Track.setDate (MetaData.Track.date trackInfo) t in
  let t := Track.setOriginalDate (MetaData.Track.originalDate trackInfo) t in
  let t := if negb (isValid (MetaData.Track.date trackInfo))
              && isValid (MetaData.Track.originalDate trackInfo)
           then Track.setDate (MetaData.Track.originalDate trackInfo) t
           else t in
  let t := Track.setRecordingMBID (MetaData.Track.recordingMBID trackInfo) t in
  let t := Track.setTrackMBID (MetaData.Track.trackMBID trackInfo) t in
  let t := Track.setHasCover (MetaData.Track.hasCover trackInfo) t in
  let t := Track.setCopyright (MetaData.Track.copyright trackInfo) t in
  let t := Track.setCopyrightURL (MetaData.Track.copyrightURL trackInfo) t in
  let t := Track.setTrackReplayGain (MetaData.Track.trackReplayGain trackInfo) t in
  Track.setReleaseReplayGain (MetaData.Track.albumReplayGain trackInfo) t.

(** The table of tracks [l0] with [F] applied to the tracks of identifier
    [tid], [F] keeping the identifier and the path. *)
Definition tracksUpdated (tid : Id) (l0 : list Track.t) (F : Track.t -> Track.t)
  (s : Session.t) : Prop :=
  Session.tracks s
  = map (fun t => if Track.getId t =? tid then F t else t) l0 /\
  (forall t, Track.getId (F t) = Track.getId t) /\
  (forall t, Track.getPath (F t) = Track.getPath t).

(** The title that [upsertTrack] gives to the track. *)
Definition trackTitle (env : Env) (p : path) (trackInfo : MetaData.Track.t)
  : string :=
  if negb (String.eqb (MetaData.Track.title trackInfo) "")
  then MetaData.Track.title trackInfo
  else filename env p.

(** The part [proj] of the catalog does not depend on the table that the
    setter [w] writes. *)
Definition ignores {X Y} (proj : Session.t -> X)
  (w : (Y -> Y) -> Session.t -> Session.t) : Prop :=
  forall f s, proj (w f s) = proj s.

(** Every state that the computation leads to is related by [R] to the
    state it starts from. *)
Definition follows {S A} (R : S -> S -> Prop) (m : M S A) : Prop :=
  forall s, R s (exec m s).

(** From [s] to [s'] the table of artist links has only received links of
    the track [tid], under identifiers that were free in [s]. *)
Definition linksAdded (tid : Id) (s s' : Session.t) : Prop :=
  Session.nextId s <= Session.nextId s' /\
  exists added,
    Session.trackArtistLinks s' = Session.trackArtistLinks s ++ added /\
    Forall (fun l => TrackArtistLink.getTrack l = tid
                     /\ Session.nextId s <= TrackArtistLink.getId l) added.

(** From [s] to [s'] the cluster types are the same and the table of
    clusters has only been extended. *)
Definition clustersGrow (s s' : Session.t) : Prop :=
  Session.clusterTypes s' = Session.clusterTypes s /\
  exists added, Session.clusters s' = Session.clusters s ++ added.


(** The errors of the walk among the errors recorded by a scan run. *)
Definition isCannotReadFile (e : ScanError) : bool :=
  match error e with
  | CannotReadFile => true
  | _ => false
  end.

Definition readErrors (st : St) : list ScanError :=
  filter isCannotReadFile (errors (stats (context st))).

(** The error that [process] records for an entry that the walker reports
    with an error code. *)
Definition readErrorOf (entry : error_code * path) : ScanError :=
  {| file := snd entry; error := CannotReadFile;
     systemError := ec_message (fst entry) |}.

(** The surroundings [env] with another directory walk. *)
Definition withWalk (walk : path -> path -> list (error_code * path))
  (env : Env) : Env :=
  {| getLastWriteTime := getLastWriteTime env;
     parse := parse env;
     currentDateTime := currentDateTime env;
     exploreFilesRecursive := walk;
     hasFileAnyExtension := hasFileAnyExtension env;
     filename := filename env;
     excludeDirFileName := excludeDirFileName env;
     abortScan := abortScan env |}.

(** The identifiers of the artists of the catalog, in its order. *)
Definition artistIds (s : Session.t) : list Id :=
  map Artist.getId (Session.artists s).

(** The link type and the role name of an artist link. *)
Definition linkKind (l : TrackArtistLink.t) : TrackArtistLinkType.t * string :=
  (TrackArtistLink.getType l, TrackArtistLink.getRole l).

(** A parsed artist that the resolution does not pass over. *)
Definition hasMBIDOrName (artistInfo : MetaData.Artist.t) : bool :=
  isSome (MetaData.Artist.musicBrainzArtistID artistInfo)
  || negb (String.eqb (MetaData.Artist.name artistInfo) "").

(** The link type and role name of the links that a parsed track asks for,
    in the order of its role lists: one for each parsed artist with an MBID
    or a name. *)
Definition expectedLinkKinds (trackInfo : MetaData.Track.t)
  : list (TrackArtistLinkType.t * string) :=
  flat_map (fun r => repeat (fst r) (length (filter hasMBIDOrName (snd r))))
           (roleLists trackInfo).

(** From [s] to [s'] the artists have only been updated or extended, and
    the table of artist links has received links of the track [tid] only:
    links to artists of the catalog, under identifiers that were free in
    [s], with the link types and role names [kinds], in this order. *)
Definition linksAddedAs (tid : Id) (kinds : list (TrackArtistLinkType.t * string))
  (s s' : Session.t) : Prop :=
  Session.nextId s <= Session.nextId s' /\
  (exists extra, artistIds s' = artistIds s ++ extra) /\
  exists added,
    Session.trackArtistLinks s' = Session.trackArtistLinks s ++ added /\
    Forall (fun l => TrackArtistLink.getTrack l = tid
                     /\ Session.nextId s <= TrackArtistLink.getId l
                     /\ In (TrackArtistLink.getArtist l) (artistIds s')) added /\
    map linkKind added = kinds.

(** ** A small catalog and its surroundings, to run the scanner on *)

Module Example.

Definition settings0 : ScannerSettings :=
  {| scanVersion := 3; skipDuplicateRecordingMBID := true;
     supportedExtensions := [".flac"; ".mp3"]; clusterTypeNames := ["GENRE"] |}.

Definition step0 : ScanStepScanFiles :=
  {| _settings := settings0;
     _metadataParser := MetaData.createParser MetaData.TagLib MetaData.Accurate |}.

Definition time0 : WDateTime := {| dt_secs := 1700000000; dt_msec := 0 |}.
Definition time1 : WDateTime := {| dt_secs := 1700000600; dt_msec := 250 |}.
Definition now0 : WDateTime := {| dt_secs := 1700001000; dt_msec := 0 |}.

Definition queenTagged : Artist.t :=
  {| Artist.getId := 1; Artist.getName := "Queen";
     Artist.getSortName := None; Artist.getMBID := Some "a-queen" |}.
Definition queenPlain : Artist.t :=
  {| Artist.getId := 2; Artist.getName := "Queen";
     Artist.getSortName := None; Artist.getMBID := None |}.
Definition bowie : Artist.t :=
  {| Artist.getId := 3; Artist.getName := "David Bowie";
     Artist.getSortName := Some "Bowie, David"; Artist.getMBID := Some "a-bowie" |}.

Definition trackA : Track.t :=
  Track.setRecordingMBID (Some "R1")
    (Track.setLastWriteTime time0
       (Track.setScanVersion 3 (Track.create 10 "/music/a.flac"))).

Definition trackSilent : Track.t :=
  Track.setLastWriteTime time0
    (Track.setScanVersion 3 (Track.create 11 "/music/silent.flac")).

Definition trackCopy : Track.t :=
  Track.setLastWriteTime time0
    (Track.setScanVersion 3 (Track.create 12 "/music/copy.flac")).

Definition db0 : Session.t :=
  {| Session.artists := [queenTagged; queenPlain; bowie];
     Session.releases := [];
     Session.clusterTypes :=
       [ {| ClusterType.getId := 5; ClusterType.getName := "GENRE" |} ];
     Session.clusters := [];
     Session.tracks := [trackA; trackSilent; trackCopy];
     Session.trackArtistLinks :=
       [ {| TrackArtistLink.getId := 20; TrackArtistLink.getTrack := 10;
            TrackArtistLink.getArtist := 1;
            TrackArtistLink.getType := TrackArtistLinkType.Artist;
            TrackArtistLink.getRole := "" |} ];
     Session.trackFeatures := [];
     Session.nextId := 100 |}.

Definition mkTrackInfo (artists : list MetaData.Artist.t)
  (album : option MetaData.Album.t) (streams : list MetaData.AudioStream)
  (duration : milliseconds) (date originalDate : WDate)
  (recordingMBID : option UUID) : MetaData.Track.t :=
  {| MetaData.Track.artists := artists;
     MetaData.Track.albumArtists := [];
     MetaData.Track.conductorArtists := [];
     MetaData.Track.composerArtists := [];
     MetaData.Track.lyricistArtists := [];
     MetaData.Track.mixerArtists := [];
     MetaData.Track.performerArtists := [];
     MetaData.Track.producerArtists := [];
     MetaData.Track.remixerArtists := [];
     MetaData.Track.album := album;
     MetaData.Track.clusters := [("GENRE", ["Rock"])];
     MetaData.Track.audioStreams := streams;
     MetaData.Track.duration := duration;
     MetaData.Track.title := "Song";
     MetaData.Track.trackNumber := Some 3;
     MetaData.Track.discNumber := Some 1;
     MetaData.Track.totalTrack := None;
     MetaData.Track.totalDisc := None;
     MetaData.Track.discSubtitle := "";
     MetaData.Track.date := date;
     MetaData.Track.originalDate := originalDate;
     MetaData.Track.recordingMBID := recordingMBID;
     MetaData.Track.trackMBID := None;
     MetaData.Track.hasCover := false;
     MetaData.Track.copyright := "";
     MetaData.Track.copyrightURL := "";
     MetaData.Track.trackReplayGain := None;
     MetaData.Track.albumReplayGain := None |}.

Definition plainQueen : MetaData.Artist.t :=
  {| MetaData.Artist.name := "Queen"; MetaData.Artist.sortName := None;
     MetaData.Artist.musicBrainzArtistID := None |}.

Definition taggedBowie : MetaData.Artist.t :=
  {| MetaData.Artist.name := "Bowie"; MetaData.Artist.sortName := Some "Bowie, D.";
     MetaData.Artist.musicBrainzArtistID := Some "a-bowie" |}.

Definition stream : MetaData.AudioStream := {| MetaData.bitRate := 320000 |}.

(** copy.flac has become a copy of a.flac: same recording, and not even
    valid audio. *)
Definition infoCopy : MetaData.Track.t :=
  mkTrackInfo [plainQueen] None [] 0%Z NullDate NullDate (Some "R1").

Definition infoSilent : MetaData.Track.t :=
  mkTrackInfo [plainQueen] None [] 180000%Z NullDate NullDate None.

(** No release date, an original date, and an album without a name. *)
Definition infoOld : MetaData.Track.t :=
  mkTrackInfo [plainQueen]
    (Some {| MetaData.Album.name := ""; MetaData.Album.musicBrainzAlbumID := None |})
    [stream] 180000%Z NullDate (Date 1999 1 1) None.

Fixpoint basename (acc p : string) : string :=
  match p with
  | EmptyString => acc
  | String c rest =>
      if Ascii.eqb c "/"%char then basename "" rest
      else basename (acc ++ String c "")%string rest
  end.

Definition endsWith (p ext : string) : bool :=
  String.eqb (substring (String.length p - String.length ext)
                        (String.length ext) p) ext.

Definition env0 : Env :=
  {| getLastWriteTime := fun p =>
       if String.eqb p "/music/locked.flac"
       then inl {| what := "Failed to get last write time" |}
       else if String.eqb p "/music/a.flac" then inr time0
       else inr time1;
     parse := fun _ p =>
       if String.eqb p "/music/copy.flac" then Some infoCopy
       else if String.eqb p "/music/silent.flac" then Some infoSilent
       else if String.eqb p "/music/old.flac" then Some infoOld
       else None;
     currentDateTime := fun _ => now0;
     exploreFilesRecursive := fun dir _ =>
       if String.eqb dir "/music"
       then [ ({| ec_value := 0; ec_message := "" |}, "/music/a.flac") ]
       else [];
     hasFileAnyExtension := fun p exts => existsb (endsWith p) exts;
     filename := basename "";
     excludeDirFileName := ".lmsignore";
     abortScan := fun _ => false |}.

Definition stats0 : ScanStats :=
  {| filesScanned := 1; skips := 0; scans := 0; additions := 0; updates := 0;
     deletions := 0; errors := [] |}.

Definition st0 : St :=
  {| self := step0; db := db0;
     context := {| directory := "/music"; forceScan := false; stats := stats0;
                   currentStepStats := {| totalElems := 0; processedElems := 0 |} |};
     progressCalls := [] |}.

End Example.

(** ** More states to run the scanner on *)

Module Cases.

(** The example state, with the force-scan flag set. *)
Definition stForce : St :=
  with_context (fun c =>
    {| directory := directory c; forceScan := true; stats := stats c;
       currentStepStats := currentStepStats c |}) Example.st0.

Definition abbeyTagged : Release.t :=
  {| Release.getId := 30; Release.getName := "Abbey Road";
     Release.getMBID := Some "r-abbey" |}.
Definition abbeyPlain : Release.t :=
  {| Release.getId := 31; Release.getName := "Abbey Road";
     Release.getMBID := None |}.

(** The example catalog with two releases of the same name. *)
Definition dbReleases : Session.t :=
  Session.with_releases (fun _ => [abbeyTagged; abbeyPlain]) Example.db0.

Definition albumRemaster : MetaData.Album.t :=
  {| MetaData.Album.name := "Abbey Road (Remaster)";
     MetaData.Album.musicBrainzAlbumID := Some "r-abbey" |}.
Definition albumPlain : MetaData.Album.t :=
  {| MetaData.Album.name := "Abbey Road";
     MetaData.Album.musicBrainzAlbumID := None |}.

(** A parsed artist with neither name nor MBID. *)
Definition nobody : MetaData.Artist.t :=
  {| MetaData.Artist.name := ""; MetaData.Artist.sortName := None;
     MetaData.Artist.musicBrainzArtistID := None |}.

(** Two spellings of one tagged artist, unknown to the example catalog. *)
Definition prince : MetaData.Artist.t :=
  {| MetaData.Artist.name := "Prince"; MetaData.Artist.sortName := None;
     MetaData.Artist.musicBrainzArtistID := Some "a-prince" |}.
Definition tafkap : MetaData.Artist.t :=
  {| MetaData.Artist.name := "The Artist"; MetaData.Artist.sortName := None;
     MetaData.Artist.musicBrainzArtistID := Some "a-prince" |}.

End Cases.

Unset Implicit Arguments.

(** ** Properties *)

(** *** The monad *)

Lemma bind_unfold {S A B} (m : M S A) (f : A -> M S B) (s : S) :
  bind m f s = f (fst (m s)) (snd (m s)).
Proof. unfold bind. destruct (m s); reflexivity. Qed.

Lemma exec_bind {S A B} (m : M S A) (f : A -> M S B) (s : S) :
  exec (bind m f) s = exec (f (eval m s)) (exec m s).
Proof. unfold exec, eval. rewrite bind_unfold. reflexivity. Qed.

Lemma eval_bind {S A B} (m : M S A) (f : A -> M S B) (s : S) :
  eval (bind m f) s = eval (f (eval m s)) (exec m s).
Proof. unfold exec, eval. rewrite bind_unfold. reflexivity. Qed.

Lemma liftDb_unfold {A} (m : DbM A) (st : St) :
  liftDb m st = (fst (m (db st)), with_db (fun _ => snd (m (db st))) st).
Proof. unfold liftDb. destruct (m (db st)); reflexivity. Qed.


Lemma with_db_same (st : St) : with_db (fun _ => db st) st = st.
Proof. destruct st; reflexivity. Qed.

Lemma liftDb_gets {A} (f : Session.t -> A) (st : St) :
  liftDb (gets f) st = (f (db st), st).
Proof. unfold liftDb, gets. now rewrite with_db_same. Qed.

Lemma liftDb_exec {A} (m : DbM A) (st : St) :
  exec (liftDb m) st = with_db (fun _ => exec m (db st)) st.
Proof. unfold exec. rewrite liftDb_unfold. reflexivity. Qed.

Lemma liftDb_eval {A} (m : DbM A) (st : St) :
  eval (liftDb m) st = eval m (db st).
Proof. unfold eval. rewrite liftDb_unfold. reflexivity. Qed.

Lemma lastWriteIsTheSame_run p lastWriteTime st :
  lastWriteIsTheSame p lastWriteTime st =
  (negb (forceScan (context st)) &&
   match eval (findTrackByPath p) (db st) with
   | Some t =>
       (toTime_t (Track.getLastWriteTime t) =? toTime_t lastWriteTime)%Z
       && (Track.getScanVersion t =? scanVersion (_settings (self st)))
   | None => false
   end, st).
Proof.
  unfold lastWriteIsTheSame. rewrite bind_unfold. cbn [gets fst snd].
  destruct (forceScan (context st)); cbn [negb andb]; [reflexivity|].
  rewrite bind_unfold. unfold findTrackByPath. rewrite liftDb_gets. reflexivity.
Qed.

Lemma scanAudioFile_not_readable env p st e :
  getLastWriteTime env p = inl e ->
  scanAudioFile env p st = modifyStats (with_skips incr) st.
Proof. intros H. unfold scanAudioFile. now rewrite H. Qed.

Lemma scanAudioFile_same env p st lastWriteTime :
  getLastWriteTime env p = inr lastWriteTime ->
  eval (lastWriteIsTheSame p lastWriteTime) st = true ->
  scanAudioFile env p st = modifyStats (with_skips incr) st.
Proof.
  intros Hlwt Hsame. unfold scanAudioFile. rewrite Hlwt, bind_unfold.
  unfold eval in Hsame. rewrite Hsame.
  rewrite lastWriteIsTheSame_run. reflexivity.
Qed.

Lemma scanAudioFile_parsed env p st lastWriteTime trackInfo :
  getLastWriteTime env p = inr lastWriteTime ->
  eval (lastWriteIsTheSame p lastWriteTime) st = false ->
  parse env (_metadataParser (self st)) p = Some trackInfo ->
  scanAudioFile env p st = scanParsedFile env p lastWriteTime trackInfo st.
Proof.
  intros Hlwt Hsame Hparse. unfold scanAudioFile. rewrite Hlwt, bind_unfold.
  unfold eval in Hsame. rewrite Hsame.
  rewrite lastWriteIsTheSame_run. cbn [snd]. rewrite bind_unfold.
  cbn [gets fst snd]. rewrite Hparse. reflexivity.
Qed.

Lemma skipDuplicateRecordingMBIDLoop_run track others st :
  skipDuplicateRecordingMBIDLoop track others st =
  if existsb (isOtherTrack track) others
  then (true, exec (removeIfExists track) st)
  else (false, st).
Proof.
  induction others as [|o rest IH]; [reflexivity|].
  cbn [skipDuplicateRecordingMBIDLoop existsb]. unfold isOtherTrack at 1.
  destruct (match track with Some t => _ | None => false end); cbn [negb orb].
  - exact IH.
  - rewrite bind_unfold. reflexivity.
Qed.

Lemma removeIfExists_run track st :
  removeIfExists track st =
  (tt, with_context
         (with_stats (with_deletions (if isSome track then incr else fun n => n)))
         (with_db (withoutTrack track) st)).
Proof.
  destruct track as [t|]; cbn [removeIfExists isSome withoutTrack].
  - rewrite bind_unfold. unfold exec. rewrite liftDb_unfold. reflexivity.
  - destruct st as [a b [c d [] f] g]. reflexivity.
Qed.

Lemma bind_ret {S A B} (a : A) (k : A -> M S B) (s : S) :
  bind (ret a) k s = k a s.
Proof. reflexivity. Qed.

Lemma bind_gets {S A B} (f : S -> A) (k : A -> M S B) (s : S) :
  bind (gets f) k s = k (f s) s.
Proof. reflexivity. Qed.

Lemma bind_modify {S B} (f : S -> S) (k : unit -> M S B) (s : S) :
  bind (modify f) k s = k tt (f s).
Proof. reflexivity. Qed.

Lemma bind_liftDb_gets {A B} (f : Session.t -> A) (k : A -> M St B) (st : St) :
  bind (liftDb (gets f)) k st = k (f (db st)) st.
Proof. rewrite bind_unfold, liftDb_gets. reflexivity. Qed.

Lemma scanParsedFile_run env p lastWriteTime trackInfo st :
  scanParsedFile env p lastWriteTime trackInfo st =
  let st1 := with_context (with_stats (with_scans incr)) st in
  let track := eval (findTrackByPath p) (db st) in
  if duplicateFound p trackInfo st
  then removeIfExists track st1
  else
    match MetaData.Track.audioStreams trackInfo with
    | [] => invalidAudio p NoAudioTrack track st1
    | _ :: _ =>
        if (MetaData.Track.duration trackInfo =? 0)%Z
        then invalidAudio p BadDuration track st1
        else upsertTrack env p lastWriteTime trackInfo track st1
    end.
Proof.
  unfold scanParsedFile, duplicateFound, modifyStats at 1,
    findTrackByPath, findTracksByRecordingMBID, eval.
  rewrite bind_modify, bind_liftDb_gets, bind_gets. cbn [gets fst].
  set (st1 := with_context _ st).
  change (db st1) with (db st). change (self st1) with (self st).
  set (track := find _ (Session.tracks (db st))).
  rewrite bind_unfold.
  destruct (MetaData.Track.recordingMBID trackInfo) as [mbid|].
  2: { cbn [ret fst snd]. destruct (MetaData.Track.audioStreams trackInfo); [reflexivity|].
       destruct (MetaData.Track.duration trackInfo =? 0)%Z; reflexivity. }
  destruct (skipDuplicateRecordingMBID _); cbn [andb].
  2: { cbn [ret fst snd]. destruct (MetaData.Track.audioStreams trackInfo); [reflexivity|].
       destruct (MetaData.Track.duration trackInfo =? 0)%Z; reflexivity. }
  rewrite bind_liftDb_gets, skipDuplicateRecordingMBIDLoop_run.
  change (db st1) with (db st).
  destruct (existsb _ _); cbn [fst snd].
  - unfold exec. rewrite removeIfExists_run. reflexivity.
  - destruct (MetaData.Track.audioStreams trackInfo); [reflexivity|].
    destruct (MetaData.Track.duration trackInfo =? 0)%Z; reflexivity.
Qed.

(** *** Change detection *)

(** C1. A file whose path has a cataloged track, scanned without the
    force flag, with the stored last-write time equal to the file's and the
    stored scan version equal to the current one: the catalog is left as it
    is, and of the statistics only the skip counter moves (by one); no
    error is added. *)
Theorem scanAudioFile_unchanged_file_only_skips env p st lastWriteTime track :
  getLastWriteTime env p = inr lastWriteTime ->
  forceScan (context st) = false ->
  eval (findTrackByPath p) (db st) = Some track ->
  Track.getLastWriteTime track = lastWriteTime ->
  Track.getScanVersion track = scanVersion (_settings (self st)) ->
  let st' := exec (scanAudioFile env p) st in
  let s := stats (context st) in
  db st' = db st /\
  stats (context st') =
    {| filesScanned := filesScanned s; skips := incr (skips s);
       scans := scans s; additions := additions s; updates := updates s;
       deletions := deletions s; errors := errors s |}.
Proof.
  intros Hlwt Hforce Hfind Htime Hver st' s. subst st' s. unfold exec.
  rewrite (scanAudioFile_same env p st _ Hlwt).
  - cbn. split; [reflexivity|]. destruct (stats (context st)); reflexivity.
  - unfold eval. rewrite lastWriteIsTheSame_run. cbn [fst].
    rewrite Hforce, Hfind, Htime, Hver, Z.eqb_refl, N.eqb_refl. reflexivity.
Qed.

Lemma scanAudioFile_unchanged_file_only_skips_witness :
  let st' := exec (scanAudioFile Example.env0 "/music/a.flac") Example.st0 in
  db st' = Example.db0 /\
  stats (context st') =
    {| filesScanned := 1; skips := 1; scans := 0; additions := 0; updates := 0;
       deletions := 0; errors := [] |}.
Proof.
  exact (scanAudioFile_unchanged_file_only_skips Example.env0 "/music/a.flac"
           Example.st0 Example.time0 Example.trackA
           eq_refl eq_refl eq_refl eq_refl eq_refl).
Defined.

(** C6, as the code has it. When the last-write time of a file cannot be
    read, the exception is logged, the skip counter moves by one and the
    file is left: the catalog is not touched and the error list is left as
    it is. *)
Theorem scanAudioFile_unreadable_file_only_skips env p st e :
  getLastWriteTime env p = inl e ->
  let st' := exec (scanAudioFile env p) st in
  let s := stats (context st) in
  db st' = db st /\
  stats (context st') =
    {| filesScanned := filesScanned s; skips := incr (skips s);
       scans := scans s; additions := additions s; updates := updates s;
       deletions := deletions s; errors := errors s |}.
Proof.
  intros Hlwt st' s. subst st' s. unfold exec.
  rewrite (scanAudioFile_not_readable env p st _ Hlwt).
  cbn. split; [reflexivity|]. destruct (stats (context st)); reflexivity.
Qed.

Lemma scanAudioFile_unreadable_file_only_skips_witness :
  let st' := exec (scanAudioFile Example.env0 "/music/locked.flac") Example.st0 in
  db st' = Example.db0 /\
  stats (context st') =
    {| filesScanned := 1; skips := 1; scans := 0; additions := 0; updates := 0;
       deletions := 0; errors := [] |}.
Proof.
  exact (scanAudioFile_unreadable_file_only_skips Example.env0
           "/music/locked.flac" Example.st0
           {| what := "Failed to get last write time" |} eq_refl).
Defined.

(** C6, as stated, fails: the last-write time of locked.flac cannot be
    read, and the run's error list holds no [CannotReadFile] error after the
    file has been handled. *)
Lemma scanAudioFile_unreadable_file_records_no_error :
  getLastWriteTime Example.env0 "/music/locked.flac"
    = inl {| what := "Failed to get last write time" |} /\
  ~ exists e,
      In e (errors (stats (context
              (exec (scanAudioFile Example.env0 "/music/locked.flac") Example.st0))))
      /\ error e = CannotReadFile.
Proof.
  split; [reflexivity|]. intros [e [Hin _]]. exact Hin.
Qed.

(** *** The read style of the parser *)

(** C8. The option "scanner-parser-read-style" selects the read style:
    "fast", "average" and "accurate" give [Fast], [Average] and [Accurate];
    an unset option gives [Accurate]; any other value makes
    [getParserReadStyle] throw, and with it the constructor of the step, so
    that no step object exists to process a file. *)
Theorem getParserReadStyle_cases (config : IConfig) (initParams : InitParams) :
  let key := "scanner-parser-read-style" in
  let value := getString config key "accurate" in
  ((forall v, ~ In (key, v) config) ->
   getParserReadStyle config = inr MetaData.Accurate) /\
  (value = "fast" -> getParserReadStyle config = inr MetaData.Fast) /\
  (value = "average" -> getParserReadStyle config = inr MetaData.Average) /\
  (value = "accurate" -> getParserReadStyle config = inr MetaData.Accurate) /\
  (value <> "fast" -> value <> "average" -> value <> "accurate" ->
   getParserReadStyle config
     = inl {| what := "Invalid value for 'scanner-parser-read-style'" |} /\
   ScanStepScanFiles_new config initParams
     = inl {| what := "Invalid value for 'scanner-parser-read-style'" |}) /\
  (forall readStyle, getParserReadStyle config = inr readStyle ->
   ScanStepScanFiles_new config initParams
     = inr {| _settings := initSettings initParams;
              _metadataParser := MetaData.createParser MetaData.TagLib readStyle |}).
Proof.
  intros key value. repeat split.
  - intros Hunset. unfold getParserReadStyle. fold key.
    assert (Hdef : getString config key "accurate" = "accurate").
    { induction config as [|[k v] rest IH]; [reflexivity|].
      cbn [getString]. destruct (String.eqb_spec k key) as [->|Hne].
      + exfalso. apply (Hunset v). now left.
      + apply IH. intros v' Hin. apply (Hunset v'). now right. }
    now rewrite Hdef.
  - intros Hv. unfold getParserReadStyle. fold key. fold value. now rewrite Hv.
  - intros Hv. unfold getParserReadStyle. fold key. fold value. now rewrite Hv.
  - intros Hv. unfold getParserReadStyle. fold key. fold value. now rewrite Hv.
  - unfold getParserReadStyle. fold key. fold value.
    destruct (String.eqb_spec value "fast"); [contradiction|].
    destruct (String.eqb_spec value "average"); [contradiction|].
    destruct (String.eqb_spec value "accurate"); [contradiction|]. reflexivity.
  - unfold ScanStepScanFiles_new, getParserReadStyle. fold key. fold value.
    destruct (String.eqb_spec value "fast"); [contradiction|].
    destruct (String.eqb_spec value "average"); [contradiction|].
    destruct (String.eqb_spec value "accurate"); [contradiction|]. reflexivity.
  - intros rs Hrs. unfold ScanStepScanFiles_new. now rewrite Hrs.
Qed.

(** *** Duplicate recordings and invalid audio *)

Lemma existsb_isOtherTrack_intro track others other :
  In other others ->
  (forall t, track = Some t -> Track.getId t <> Track.getId other) ->
  existsb (isOtherTrack track) others = true.
Proof.
  intros Hin Hother. apply existsb_exists. exists other. split; [exact Hin|].
  unfold isOtherTrack. destruct track as [t|]; [|reflexivity].
  apply negb_true_iff, N.eqb_neq, Hother. reflexivity.
Qed.

Lemma opt_eqb_string_refl (m : string) :
  opt_eqb String.eqb (Some m) (Some m) = true.
Proof. apply String.eqb_refl. Qed.

Lemma opt_eqb_string_eq (x y : option string) :
  opt_eqb String.eqb x y = true <-> x = y.
Proof.
  destruct x as [a|], y as [b|]; cbn; try (split; congruence).
  rewrite String.eqb_eq. split; congruence.
Qed.

Lemma duplicateFound_true_iff p trackInfo st :
  duplicateFound p trackInfo st = true <->
  exists mbid other,
    MetaData.Track.recordingMBID trackInfo = Some mbid /\
    skipDuplicateRecordingMBID (_settings (self st)) = true /\
    In other (Session.tracks (db st)) /\
    Track.getRecordingMBID other = Some mbid /\
    isOtherTrack (eval (findTrackByPath p) (db st)) other = true.
Proof.
  unfold duplicateFound. split.
  - destruct (MetaData.Track.recordingMBID trackInfo) as [mbid|]; [|discriminate].
    intros H. apply andb_true_iff in H. destruct H as [Hpolicy Hex].
    apply existsb_exists in Hex. destruct Hex as [other [Hin Hother]].
    unfold eval, findTracksByRecordingMBID, gets in Hin. cbn [fst] in Hin.
    apply filter_In in Hin. destruct Hin as [Hin Hmbid].
    apply opt_eqb_string_eq in Hmbid. now exists mbid, other.
  - intros (mbid & other & Hmbid & Hpolicy & Hin & Hrec & Hother).
    rewrite Hmbid, Hpolicy. cbn [andb]. apply existsb_exists. exists other.
    split; [|exact Hother].
    unfold eval, findTracksByRecordingMBID, gets. cbn [fst].
    apply filter_In. split; [exact Hin|]. now apply opt_eqb_string_eq.
Qed.

(** C3. A parsed file carries a recording MBID, the policy is on, and the
    catalog holds a track with this recording MBID that is not the track
    found at the file's path.  Then the scan of the file ends there: the
    track at the path, if there is one, is removed and counted as a
    deletion; nothing else of the catalog changes; no track is added or
    updated; and no error is recorded, whatever the audio streams and the
    duration of the file are, since the validity checks are not reached. *)
Theorem scanAudioFile_duplicate_recording env p st lastWriteTime trackInfo mbid other :
  getLastWriteTime env p = inr lastWriteTime ->
  eval (lastWriteIsTheSame p lastWriteTime) st = false ->
  parse env (_metadataParser (self st)) p = Some trackInfo ->
  MetaData.Track.recordingMBID trackInfo = Some mbid ->
  skipDuplicateRecordingMBID (_settings (self st)) = true ->
  In other (Session.tracks (db st)) ->
  Track.getRecordingMBID other = Some mbid ->
  (forall t, eval (findTrackByPath p) (db st) = Some t ->
             Track.getId t <> Track.getId other) ->
  let track := eval (findTrackByPath p) (db st) in
  let st' := exec (scanAudioFile env p) st in
  let s := stats (context st) in
  db st' = withoutTrack track (db st) /\
  stats (context st') =
    {| filesScanned := filesScanned s; skips := skips s;
       scans := incr (scans s); additions := additions s; updates := updates s;
       deletions := if isSome track then incr (deletions s) else deletions s;
       errors := errors s |}.
Proof.
  intros Hlwt Hsame Hparse Hmbid Hpolicy Hin Hother Hdiff track st' s.
  subst st' s. unfold exec.
  rewrite (scanAudioFile_parsed env p st _ _ Hlwt Hsame Hparse), scanParsedFile_run.
  cbn zeta. fold track.
  assert (Hdup : duplicateFound p trackInfo st = true).
  { unfold duplicateFound. rewrite Hmbid, Hpolicy. cbn [andb].
    apply existsb_isOtherTrack_intro with (other := other); [|exact Hdiff].
    unfold eval, findTracksByRecordingMBID, gets. cbn [fst].
    apply filter_In. split; [exact Hin|]. rewrite Hother. apply opt_eqb_string_refl. }
  rewrite Hdup, removeIfExists_run. cbn [snd]. split; [reflexivity|].
  clearbody track. destruct track; cbn; destruct (stats (context st)); reflexivity.
Qed.

Lemma scanAudioFile_duplicate_recording_witness :
  let st' := exec (scanAudioFile Example.env0 "/music/copy.flac") Example.st0 in
  db st' = withoutTrack (Some Example.trackCopy) Example.db0 /\
  stats (context st') =
    {| filesScanned := 1; skips := 0; scans := 1; additions := 0; updates := 0;
       deletions := 1; errors := [] |}.
Proof.
  refine (scanAudioFile_duplicate_recording Example.env0 "/music/copy.flac"
            Example.st0 Example.time1 Example.infoCopy "R1" Example.trackA
            eq_refl eq_refl eq_refl eq_refl eq_refl _ eq_refl _).
  - left. reflexivity.
  - intros t Ht. injection Ht as <-. discriminate.
Defined.

(** C5. A parsed file passes the duplicate check and has no audio stream,
    or a duration of zero.  Then the track at the path, if there is one, is
    removed and counted as a deletion, one error is recorded for the file
    ([NoAudioTrack] when there is no audio stream, [BadDuration] otherwise),
    and that is all: nothing else of the catalog changes, no track is
    added or updated. *)
Theorem scanAudioFile_invalid_audio env p st lastWriteTime trackInfo :
  getLastWriteTime env p = inr lastWriteTime ->
  eval (lastWriteIsTheSame p lastWriteTime) st = false ->
  parse env (_metadataParser (self st)) p = Some trackInfo ->
  duplicateFound p trackInfo st = false ->
  MetaData.Track.audioStreams trackInfo = []
    \/ MetaData.Track.duration trackInfo = 0%Z ->
  let track := eval (findTrackByPath p) (db st) in
  let st' := exec (scanAudioFile env p) st in
  let s := stats (context st) in
  db st' = withoutTrack track (db st) /\
  stats (context st') =
    {| filesScanned := filesScanned s; skips := skips s;
       scans := incr (scans s); additions := additions s; updates := updates s;
       deletions := if isSome track then incr (deletions s) else deletions s;
       errors := errors s ++
         [ {| file := p;
              error := match MetaData.Track.audioStreams trackInfo with
                       | [] => NoAudioTrack
                       | _ :: _ => BadDuration
                       end;
              systemError := "" |} ] |}.
Proof.
  intros Hlwt Hsame Hparse Hdup Hinvalid track st' s. subst st' s. unfold exec.
  rewrite (scanAudioFile_parsed env p st _ _ Hlwt Hsame Hparse), scanParsedFile_run.
  cbn zeta. fold track. rewrite Hdup.
  assert (Hrun : forall ty st1,
    snd (invalidAudio p ty track st1) =
    with_context (with_stats (emplace_error
        {| file := p; error := ty; systemError := "" |}))
      (with_context
         (with_stats (with_deletions (if isSome track then incr else fun n => n)))
         (with_db (withoutTrack track) st1))).
  { intros ty st1. unfold invalidAudio. rewrite bind_unfold, removeIfExists_run.
    reflexivity. }
  destruct (MetaData.Track.audioStreams trackInfo) as [|a l].
  - rewrite Hrun. split; [reflexivity|].
    clearbody track. destruct track; cbn; destruct (stats (context st)); reflexivity.
  - destruct Hinvalid as [Hstreams|Hduration]; [discriminate Hstreams|].
    rewrite Hduration. cbn [Z.eqb]. rewrite Hrun. split; [reflexivity|].
    clearbody track. destruct track; cbn; destruct (stats (context st)); reflexivity.
Qed.

Lemma scanAudioFile_invalid_audio_witness :
  let st' := exec (scanAudioFile Example.env0 "/music/silent.flac") Example.st0 in
  db st' = withoutTrack (Some Example.trackSilent) Example.db0 /\
  stats (context st') =
    {| filesScanned := 1; skips := 0; scans := 1; additions := 0; updates := 0;
       deletions := 1;
       errors := [ {| file := "/music/silent.flac"; error := NoAudioTrack;
                      systemError := "" |} ] |}.
Proof.
  refine (scanAudioFile_invalid_audio Example.env0 "/music/silent.flac"
            Example.st0 Example.time1 Example.infoSilent
            eq_refl eq_refl eq_refl eq_refl _).
  left. reflexivity.
Defined.

(** *** Artist resolution *)

Lemma with_artists_compose f g s :
  Session.with_artists f (Session.with_artists g s)
  = Session.with_artists (fun l => f (g l)) s.
Proof. destruct s; reflexivity. Qed.

Lemma with_artists_ext f g s :
  (forall l, f l = g l) -> Session.with_artists f s = Session.with_artists g s.
Proof. intros H. destruct s; cbn. now rewrite H. Qed.

Lemma with_artists_id s : Session.with_artists (fun l => l) s = s.
Proof. destruct s; reflexivity. Qed.

Lemma updateArtistIfNeeded_run artist artistInfo s :
  updateArtistIfNeeded artist artistInfo s =
  (tt, Session.with_artists
         (map (fun x => if Artist.getId x =? Artist.getId artist
                        then updatedArtist artist artistInfo x else x)) s).
Proof.
  unfold updateArtistIfNeeded, updatedArtist, modifyArtist, bind, modify, ret.
  destruct (negb (String.eqb (Artist.getName artist) _));
    destruct (MetaData.Artist.sortName artistInfo) as [sn|];
    try destruct (negb (opt_eqb String.eqb (Some sn) _));
    cbv beta iota; f_equal;
    rewrite ?with_artists_compose;
    try (apply with_artists_ext; intros l; rewrite ?map_map; apply map_ext;
         intros x; destruct (Artist.getId x =? Artist.getId artist) eqn:E;
         cbn; rewrite ?E; reflexivity).
  all: etransitivity; [symmetry; apply with_artists_id|];
    apply with_artists_ext; intros l;
    etransitivity; [symmetry; apply map_id|]; apply map_ext; intros x;
    destruct (Artist.getId x =? Artist.getId artist); reflexivity.
Qed.

Lemma updatedArtist_self artist artistInfo :
  updatedArtist artist artistInfo artist =
  {| Artist.getId := Artist.getId artist;
     Artist.getName := MetaData.Artist.name artistInfo;
     Artist.getSortName :=
       match MetaData.Artist.sortName artistInfo with
       | Some sortName => Some sortName
       | None => Artist.getSortName artist
       end;
     Artist.getMBID := Artist.getMBID artist |}.
Proof.
  unfold updatedArtist. destruct artist as [i n sn m].
  cbn [Artist.getId Artist.getName Artist.getSortName Artist.getMBID].
  destruct (MetaData.Artist.sortName artistInfo) as [s'|].
  - destruct (opt_eqb String.eqb (Some s') sn) eqn:E.
    + apply opt_eqb_string_eq in E. subst sn.
      destruct (String.eqb_spec n (MetaData.Artist.name artistInfo)) as [->|Hn];
        reflexivity.
    + destruct (String.eqb_spec n (MetaData.Artist.name artistInfo)) as [->|Hn];
        reflexivity.
  - destruct (String.eqb_spec n (MetaData.Artist.name artistInfo)) as [->|Hn];
      reflexivity.
Qed.

Lemma map_fresh_id (f : Artist.t -> Artist.t) (i : Id) (l : list Artist.t) :
  (forall x, In x l -> Artist.getId x <> i) ->
  map (fun x => if Artist.getId x =? i then f x else x) l = l.
Proof.
  intros Hfresh. rewrite <- (map_id l) at 2. apply map_ext_in. intros x Hx.
  destruct (N.eqb_spec (Artist.getId x) i) as [E|_]; [|reflexivity].
  now apply Hfresh in Hx.
Qed.

Lemma createArtist_run artistInfo s :
  (forall x, In x (Session.artists s) -> Artist.getId x <> Session.nextId s) ->
  createArtist artistInfo s =
  (Session.nextId s,
   Session.with_artists (fun l => l ++ [newArtist (Session.nextId s) artistInfo])
     (Session.with_nextId N.succ s)).
Proof.
  intros Hfresh. unfold createArtist, createArtistObject, freshId, modifyArtist, newArtist.
  destruct s as [a r ct c tr l tf n]. cbn in Hfresh.
  destruct artistInfo as [nm sn mb]. cbn.
  unfold bind, gets, modify, ret. cbn.
  destruct mb as [m|], sn as [sn|]; cbn; rewrite ?map_app; cbn;
    rewrite ?N.eqb_refl; repeat rewrite (map_fresh_id _ n a Hfresh);
    reflexivity.
Qed.

Lemma selectSameNamedArtist_spec allow sameNamed :
  selectSameNamedArtist allow sameNamed =
  if allow then hd_error sameNamed
  else find (fun a => negb (isSome (Artist.getMBID a))) sameNamed.
Proof.
  destruct allow.
  - destruct sameNamed; reflexivity.
  - induction sameNamed as [|a rest IH]; [reflexivity|].
    cbn. destruct (isSome (Artist.getMBID a)); cbn; [exact IH|reflexivity].
Qed.

Lemma getOrCreateArtists_single artistInfo allow s :
  getOrCreateArtists [artistInfo] allow s =
  (match eval (getOrCreateArtist artistInfo allow) s with
   | Some a => [a]
   | None => []
   end, exec (getOrCreateArtist artistInfo allow) s).
Proof.
  cbn [getOrCreateArtists]. rewrite bind_unfold. reflexivity.
Qed.

Lemma getOrCreateArtist_update_run artist artistInfo s :
  (updateArtistIfNeeded artist artistInfo ;; ret (Some (Artist.getId artist))) s =
  (Some (Artist.getId artist),
   Session.with_artists
     (map (fun x => if Artist.getId x =? Artist.getId artist
                    then updatedArtist artist artistInfo x else x)) s).
Proof. rewrite bind_unfold, updateArtistIfNeeded_run. reflexivity. Qed.

Lemma getOrCreateArtist_create_run artistInfo s :
  (forall x, In x (Session.artists s) -> Artist.getId x <> Session.nextId s) ->
  (artist <- createArtist artistInfo ;; ret (Some artist)) s =
  (Some (Session.nextId s),
   Session.with_artists (fun l => l ++ [newArtist (Session.nextId s) artistInfo])
     (Session.with_nextId N.succ s)).
Proof. intros Hfresh. rewrite bind_unfold, (createArtist_run _ _ Hfresh). reflexivity. Qed.

Lemma getOrCreateArtist_by_MBID_run artistInfo allow s mbid :
  MetaData.Artist.musicBrainzArtistID artistInfo = Some mbid ->
  getOrCreateArtist artistInfo allow s =
  match eval (findArtistByMBID mbid) s with
  | None => (artist <- createArtist artistInfo ;; ret (Some artist)) s
  | Some artist =>
      (updateArtistIfNeeded artist artistInfo ;; ret (Some (Artist.getId artist))) s
  end.
Proof.
  intros Hmbid. unfold getOrCreateArtist. rewrite Hmbid.
  unfold findArtistByMBID, eval. rewrite bind_gets. cbn [gets fst].
  destruct (find _ _); reflexivity.
Qed.

Lemma getOrCreateArtist_by_name_run artistInfo allow s :
  MetaData.Artist.musicBrainzArtistID artistInfo = None ->
  MetaData.Artist.name artistInfo <> "" ->
  getOrCreateArtist artistInfo allow s =
  match selectSameNamedArtist allow
          (eval (findArtistsByName (MetaData.Artist.name artistInfo)) s) with
  | None => (artist <- createArtist artistInfo ;; ret (Some artist)) s
  | Some artist =>
      (updateArtistIfNeeded artist artistInfo ;; ret (Some (Artist.getId artist))) s
  end.
Proof.
  intros Hmbid Hname. unfold getOrCreateArtist. rewrite Hmbid.
  destruct (String.eqb_spec (MetaData.Artist.name artistInfo) "") as [E|_];
    [contradiction|]. cbn [negb].
  unfold findArtistsByName, eval. rewrite bind_gets. cbn [gets fst].
  destruct (selectSameNamedArtist _ _); reflexivity.
Qed.

(** The resolution of a list, record after record. *)
Lemma getOrCreateArtists_cons artistInfo rest allow s :
  let s1 := exec (getOrCreateArtist artistInfo allow) s in
  getOrCreateArtists (artistInfo :: rest) allow s =
  (match eval (getOrCreateArtist artistInfo allow) s with
   | Some a => a :: eval (getOrCreateArtists rest allow) s1
   | None => eval (getOrCreateArtists rest allow) s1
   end, exec (getOrCreateArtists rest allow) s1).
Proof.
  cbn zeta. cbn [getOrCreateArtists]. unfold eval, exec. rewrite !bind_unfold.
  reflexivity.
Qed.

Lemma getOrCreateArtists_app before after allow : forall s,
  let s0 := exec (getOrCreateArtists before allow) s in
  getOrCreateArtists (before ++ after) allow s =
  (eval (getOrCreateArtists before allow) s
   ++ eval (getOrCreateArtists after allow) s0,
   exec (getOrCreateArtists after allow) s0).
Proof.
  induction before as [|b before IH]; intros s; cbn zeta.
  - cbn [app]. unfold eval, exec. cbn. now destruct (getOrCreateArtists after allow s).
  - specialize (IH (snd (getOrCreateArtist b allow s))). cbn zeta in IH.
    unfold eval, exec in *. cbn [app getOrCreateArtists].
    rewrite !bind_unfold. cbn [ret fst snd]. rewrite IH. cbn [fst snd].
    destruct (fst (getOrCreateArtist b allow s)); reflexivity.
Qed.

(** A record of the list that is resolved to the artist [a], the catalog
    becoming [s1]: the artists before it, [a], the artists after it. *)
Lemma getOrCreateArtists_at before artistInfo after allow s a s1 :
  getOrCreateArtist artistInfo allow (exec (getOrCreateArtists before allow) s)
  = (Some a, s1) ->
  getOrCreateArtists (before ++ artistInfo :: after) allow s =
  (eval (getOrCreateArtists before allow) s
   ++ a :: eval (getOrCreateArtists after allow) s1,
   exec (getOrCreateArtists after allow) s1).
Proof.
  intros Hrun. rewrite getOrCreateArtists_app. cbn zeta.
  set (s0 := exec (getOrCreateArtists before allow) s) in *.
  assert (Hcons := getOrCreateArtists_cons artistInfo after allow s0).
  cbn zeta in Hcons.
  assert (Hv : eval (getOrCreateArtist artistInfo allow) s0 = Some a)
    by (unfold eval; now rewrite Hrun).
  assert (He : exec (getOrCreateArtist artistInfo allow) s0 = s1)
    by (unfold exec; now rewrite Hrun).
  rewrite Hv, He in Hcons.
  unfold eval at 2, exec at 1. rewrite Hcons. reflexivity.
Qed.

(** C4. Every parsed artist with an MBID, wherever it stands in the list
    handed to the resolution, is looked up by this MBID in the catalog as
    the records before it have left it.  When an artist is found, the
    pointer to it is the result for this record (after the results of the
    records before it and before those of the records after it), no artist
    is created, and the stored name becomes the parsed name and the stored
    sort name the parsed one if there is one (the other records are
    untouched).  When none is found, an artist is created with the parsed
    name, the MBID and the parsed sort name, if any, and it is the result
    for this record.  The records after it are resolved in the catalog
    that this leaves. *)
Theorem getOrCreateArtists_by_MBID before artistInfo after allow s mbid :
  MetaData.Artist.musicBrainzArtistID artistInfo = Some mbid ->
  let s0 := exec (getOrCreateArtists before allow) s in
  let result :=
    eval (getOrCreateArtists (before ++ artistInfo :: after) allow) s in
  let s' := exec (getOrCreateArtists (before ++ artistInfo :: after) allow) s in
  match eval (findArtistByMBID mbid) s0 with
  | Some artist =>
      let g := fun x => if Artist.getId x =? Artist.getId artist
                        then updatedArtist artist artistInfo x else x in
      let s1 := Session.with_artists (map g) s0 in
      result = eval (getOrCreateArtists before allow) s
               ++ Artist.getId artist
                  :: eval (getOrCreateArtists after allow) s1 /\
      s' = exec (getOrCreateArtists after allow) s1 /\
      (forall x, Artist.getId x <> Artist.getId artist -> g x = x) /\
      g artist =
        {| Artist.getId := Artist.getId artist;
           Artist.getName := MetaData.Artist.name artistInfo;
           Artist.getSortName :=
             match MetaData.Artist.sortName artistInfo with
             | Some sortName => Some sortName
             | None => Artist.getSortName artist
             end;
           Artist.getMBID := Artist.getMBID artist |}
  | None =>
      (forall x, In x (Session.artists s0) -> Artist.getId x <> Session.nextId s0) ->
      let s1 := Session.with_artists (fun l => l ++
                  [ {| Artist.getId := Session.nextId s0;
                       Artist.getName := MetaData.Artist.name artistInfo;
                       Artist.getSortName := MetaData.Artist.sortName artistInfo;
                       Artist.getMBID := Some mbid |} ])
                  (Session.with_nextId N.succ s0) in
      result = eval (getOrCreateArtists before allow) s
               ++ Session.nextId s0
                  :: eval (getOrCreateArtists after allow) s1 /\
      s' = exec (getOrCreateArtists after allow) s1
  end.
Proof.
  intros Hmbid s0 result s'. subst result s'.
  destruct (eval (findArtistByMBID mbid) s0) as [artist|] eqn:Hfind.
  - intros g s1.
    assert (Hrun : getOrCreateArtist artistInfo allow s0 =
                   (Some (Artist.getId artist), s1)).
    { rewrite (getOrCreateArtist_by_MBID_run _ _ _ _ Hmbid), Hfind.
      apply getOrCreateArtist_update_run. }
    apply (getOrCreateArtists_at before artistInfo after allow s) in Hrun.
    unfold eval at 1, exec at 1. rewrite Hrun. cbn [fst snd].
    split; [reflexivity|]. split; [reflexivity|]. split.
    + intros x Hx. apply N.eqb_neq in Hx. subst g. cbv beta. now rewrite Hx.
    + subst g. cbv beta. rewrite N.eqb_refl. apply updatedArtist_self.
  - intros Hfresh s1.
    assert (Hrun : getOrCreateArtist artistInfo allow s0 =
                   (Some (Session.nextId s0), s1)).
    { rewrite (getOrCreateArtist_by_MBID_run _ _ _ _ Hmbid), Hfind,
        (getOrCreateArtist_create_run _ _ Hfresh).
      subst s1. unfold newArtist. now rewrite Hmbid. }
    apply (getOrCreateArtists_at before artistInfo after allow s) in Hrun.
    unfold eval at 1, exec at 1. rewrite Hrun. split; reflexivity.
Qed.

Lemma getOrCreateArtists_by_MBID_witness :
  let records := [Cases.prince; Cases.tafkap; Example.plainQueen] in
  eval (getOrCreateArtists records false) Example.db0 = [100; 100; 2] /\
  Session.artists (exec (getOrCreateArtists records false) Example.db0)
  = [ Example.queenTagged; Example.queenPlain; Example.bowie;
      {| Artist.getId := 100; Artist.getName := "The Artist";
         Artist.getSortName := None; Artist.getMBID := Some "a-prince" |} ].
Proof.
  destruct (getOrCreateArtists_by_MBID [Cases.prince] Cases.tafkap
              [Example.plainQueen] false Example.db0 "a-prince" eq_refl)
    as (Hresult & Hs' & _ & _).
  cbn zeta. split.
  - etransitivity; [exact Hresult|reflexivity].
  - etransitivity; [exact (f_equal Session.artists Hs')|reflexivity].
Defined.

Lemma bind_assoc {S A B C} (m : M S A) (f : A -> M S B) (g : B -> M S C) (s : S) :
  bind (bind m f) g s = bind m (fun x => bind (f x) g) s.
Proof. unfold bind. destruct (m s) as [a s1]. reflexivity. Qed.

Lemma bind_ext {S A B} (m : M S A) (f g : A -> M S B) :
  (forall a s, f a s = g a s) -> forall s, bind m f s = bind m g s.
Proof. intros H s. unfold bind. destruct (m s) as [a s1]. apply H. Qed.

Lemma bind_ext_l {S A B} (m m' : M S A) (f : A -> M S B) :
  (forall s, m s = m' s) -> forall s, bind m f s = bind m' f s.
Proof. intros H s. unfold bind. now rewrite H. Qed.

Lemma forEach_app {S A} (xs ys : list A) (body : A -> M S unit) (s : S) :
  forEach (xs ++ ys) body s = (forEach xs body ;; forEach ys body) s.
Proof.
  revert s. induction xs as [|x xs IH]; intros s; [reflexivity|].
  cbn [app forEach]. rewrite bind_assoc. apply bind_ext. intros _ s1. apply IH.
Qed.

Lemma forEach_map {S A B} (F : A -> B) (xs : list A) (body : B -> M S unit) (s : S) :
  forEach (map F xs) body s = forEach xs (fun x => body (F x)) s.
Proof.
  revert s. induction xs as [|x xs IH]; intros s; [reflexivity|].
  cbn [map forEach]. apply bind_ext. intros _ s1. apply IH.
Qed.

Lemma rebuildArtistLinks_by_role track trackInfo s :
  rebuildArtistLinks track trackInfo s = rebuildArtistLinksByRole track trackInfo s.
Proof.
  unfold rebuildArtistLinks, rebuildArtistLinksByRole, roleLists.
  revert s. apply bind_ext. intros _.
  cbn [app forEach fst snd allowFallbackOnTaggedEntries].
  do 6 (intros s; rewrite bind_assoc; revert s; apply bind_ext; intros ?;
        apply bind_ext; intros _).
  intros s. rewrite forEach_app.
  etransitivity;
    [|symmetry; apply bind_ext_l; intros s1; apply forEach_map].
  revert s. apply bind_ext. intros _.
  cbn [app forEach fst snd allowFallbackOnTaggedEntries].
  intros s; rewrite bind_assoc; revert s; apply bind_ext; intros ?;
    apply bind_ext; intros _.
  intros s. rewrite bind_assoc. revert s. apply bind_ext. intros lr s.
  unfold bind. destruct (forEach lr _ s) as [[] s1]. reflexivity.
Qed.

(** C2. Every parsed artist without MBID and with a name, wherever it
    stands in the list handed to the resolution, is matched against the
    artists of this name, in the order the catalog lists them when the
    records before it have been resolved.  With the fallback on tagged
    entries off, the first of them without MBID is taken, and an artist is
    created when there is none; with the fallback on, the first of them is
    taken, tagged or not.  The artist taken or created is the result for
    this record, after the results of the records before it and before
    those of the records after it, which are resolved in the catalog that
    this leaves.  When an artist is taken, no artist is created.  The
    scanner calls the resolution with the flag off for the main artists and
    the release artists and on for every other role. *)
Theorem getOrCreateArtists_by_name before artistInfo after (allow : bool) s :
  MetaData.Artist.musicBrainzArtistID artistInfo = None ->
  MetaData.Artist.name artistInfo <> "" ->
  let s0 := exec (getOrCreateArtists before allow) s in
  let sameNamed := filter (fun a => String.eqb (Artist.getName a)
                                      (MetaData.Artist.name artistInfo))
                          (Session.artists s0) in
  let chosen : option Artist.t :=
    if allow then hd_error sameNamed
    else find (fun a => negb (isSome (Artist.getMBID a))) sameNamed in
  let result :=
    eval (getOrCreateArtists (before ++ artistInfo :: after) allow) s in
  let s' := exec (getOrCreateArtists (before ++ artistInfo :: after) allow) s in
  match chosen with
  | Some artist =>
      let s1 := Session.with_artists
                  (map (fun x => if Artist.getId x =? Artist.getId artist
                                 then updatedArtist artist artistInfo x else x))
                  s0 in
      result = eval (getOrCreateArtists before allow) s
               ++ Artist.getId artist
                  :: eval (getOrCreateArtists after allow) s1 /\
      s' = exec (getOrCreateArtists after allow) s1 /\
      map Artist.getId (Session.artists s1) = map Artist.getId (Session.artists s0)
  | None =>
      (forall x, In x (Session.artists s0) -> Artist.getId x <> Session.nextId s0) ->
      let s1 := Session.with_artists (fun l => l ++
                  [ {| Artist.getId := Session.nextId s0;
                       Artist.getName := MetaData.Artist.name artistInfo;
                       Artist.getSortName := MetaData.Artist.sortName artistInfo;
                       Artist.getMBID := None |} ])
                  (Session.with_nextId N.succ s0) in
      result = eval (getOrCreateArtists before allow) s
               ++ Session.nextId s0
                  :: eval (getOrCreateArtists after allow) s1 /\
      s' = exec (getOrCreateArtists after allow) s1
  end /\
  (forall track trackInfo s0,
     rebuildArtistLinks track trackInfo s0
     = rebuildArtistLinksByRole track trackInfo s0) /\
  (forall ty, allowFallbackOnTaggedEntries ty = false
              <-> ty = TrackArtistLinkType.Artist
                  \/ ty = TrackArtistLinkType.ReleaseArtist).
Proof.
  intros Hmbid Hname s0 sameNamed chosen result s'. split; [|split].
  - assert (Hsel : selectSameNamedArtist allow
               (eval (findArtistsByName (MetaData.Artist.name artistInfo)) s0)
             = chosen).
    { rewrite selectSameNamedArtist_spec. reflexivity. }
    assert (Hone := getOrCreateArtist_by_name_run artistInfo allow s0 Hmbid Hname).
    rewrite Hsel in Hone. clear Hsel. subst result s'.
    destruct chosen as [artist|].
    + intros s1. rewrite getOrCreateArtist_update_run in Hone. fold s1 in Hone.
      apply (getOrCreateArtists_at before artistInfo after allow s) in Hone.
      unfold eval at 1, exec at 1. rewrite Hone. cbn [fst snd].
      split; [reflexivity|]. split; [reflexivity|].
      subst s1. destruct s0 as [a r ct c tr l tf n]. cbn. rewrite map_map.
      apply map_ext.
      intros x. destruct (Artist.getId x =? Artist.getId artist); [|reflexivity].
      unfold updatedArtist.
      destruct (negb _); destruct (MetaData.Artist.sortName artistInfo);
        try destruct (negb (opt_eqb _ _ _)); reflexivity.
    + intros Hfresh s1. rewrite (getOrCreateArtist_create_run _ _ Hfresh) in Hone.
      assert (Hrun : getOrCreateArtist artistInfo allow s0
                     = (Some (Session.nextId s0), s1)).
      { rewrite Hone. subst s1. unfold newArtist. now rewrite Hmbid. }
      apply (getOrCreateArtists_at before artistInfo after allow s) in Hrun.
      unfold eval at 1, exec at 1. rewrite Hrun. split; reflexivity.
  - apply rebuildArtistLinks_by_role.
  - intros ty. destruct ty; cbn; split; intros H;
      try discriminate H; try (destruct H as [H|H]; discriminate H); auto.
Qed.

Lemma getOrCreateArtists_by_name_witness :
  let records := [Example.taggedBowie; Example.plainQueen; Cases.prince] in
  (eval (getOrCreateArtists records false) Example.db0 = [3; 2; 100] /\
   map Artist.getId
     (Session.artists (exec (getOrCreateArtists records false) Example.db0))
   = [1; 2; 3; 100]) /\
  (forall track trackInfo s0,
     rebuildArtistLinks track trackInfo s0
     = rebuildArtistLinksByRole track trackInfo s0) /\
  (forall ty, allowFallbackOnTaggedEntries ty = false
              <-> ty = TrackArtistLinkType.Artist
                  \/ ty = TrackArtistLinkType.ReleaseArtist).
Proof.
  destruct (getOrCreateArtists_by_name [Example.taggedBowie] Example.plainQueen
              [Cases.prince] false Example.db0 eq_refl
              ltac:(discriminate))
    as ((Hresult & Hs' & _) & Hroles & Hflag).
  cbn zeta. split; [split|split; [exact Hroles|exact Hflag]].
  - etransitivity; [exact Hresult|reflexivity].
  - etransitivity;
      [exact (f_equal (fun s => map Artist.getId (Session.artists s)) Hs')
      |reflexivity].
Defined.

(** *** The walk and the progress callback *)

Lemma sameFrame_refl st : sameFrame st st.
Proof. repeat split. Qed.

Lemma sameFrame_trans st1 st2 st3 :
  sameFrame st1 st2 -> sameFrame st2 st3 -> sameFrame st1 st3.
Proof.
  unfold sameFrame. intros (A1 & A2 & A3 & A4 & A5 & A6) (B1 & B2 & B3 & B4 & B5 & B6).
  repeat split; congruence.
Qed.

Lemma keepsFrame_ret {A} (a : A) : keepsFrame (ret a).
Proof. intros st. apply sameFrame_refl. Qed.

Lemma keepsFrame_gets {A} (f : St -> A) : keepsFrame (gets f).
Proof. intros st. apply sameFrame_refl. Qed.

Lemma keepsFrame_bind {A B} (m : M St A) (f : A -> M St B) :
  keepsFrame m -> (forall a, keepsFrame (f a)) -> keepsFrame (bind m f).
Proof.
  intros Hm Hf st. rewrite exec_bind.
  eapply sameFrame_trans; [apply Hm|apply Hf].
Qed.

Lemma keepsFrame_liftDb {A} (m : DbM A) : keepsFrame (liftDb m).
Proof. intros st. rewrite liftDb_exec. repeat split. Qed.

Lemma keepsFrame_modifyStats f :
  (forall s, filesScanned (f s) = filesScanned s) -> keepsFrame (modifyStats f).
Proof. intros Hf st. repeat split. cbn. apply Hf. Qed.

Lemma keepsFrame_emplace_error e : keepsFrame (modifyStats (emplace_error e)).
Proof. apply keepsFrame_modifyStats. intros []; reflexivity. Qed.

Lemma keepsFrame_with_skips : keepsFrame (modifyStats (with_skips incr)).
Proof. apply keepsFrame_modifyStats. intros []; reflexivity. Qed.

Lemma keepsFrame_with_scans : keepsFrame (modifyStats (with_scans incr)).
Proof. apply keepsFrame_modifyStats. intros []; reflexivity. Qed.

Lemma keepsFrame_with_additions : keepsFrame (modifyStats (with_additions incr)).
Proof. apply keepsFrame_modifyStats. intros []; reflexivity. Qed.

Lemma keepsFrame_with_updates : keepsFrame (modifyStats (with_updates incr)).
Proof. apply keepsFrame_modifyStats. intros []; reflexivity. Qed.

Lemma keepsFrame_with_deletions : keepsFrame (modifyStats (with_deletions incr)).
Proof. apply keepsFrame_modifyStats. intros []; reflexivity. Qed.

Create HintDb frame.
#[local] Hint Resolve keepsFrame_ret keepsFrame_gets keepsFrame_liftDb
  keepsFrame_emplace_error keepsFrame_with_skips keepsFrame_with_scans
  keepsFrame_with_additions keepsFrame_with_updates keepsFrame_with_deletions
  : frame.

Ltac frame_step :=
  match goal with
  | |- keepsFrame (bind _ _) => apply keepsFrame_bind; [|intros ?]
  | |- keepsFrame (match ?x with _ => _ end) => destruct x
  | |- keepsFrame (if ?b then _ else _) => destruct b
  | |- keepsFrame _ => solve [auto with frame]
  end.

Lemma keepsFrame_skipDuplicateRecordingMBIDLoop track others :
  keepsFrame (skipDuplicateRecordingMBIDLoop track others).
Proof.
  induction others as [|o rest IH]; cbn [skipDuplicateRecordingMBIDLoop];
    [auto with frame|].
  destruct (match track with Some t => _ | None => false end); [exact IH|].
  repeat frame_step.
Qed.

Lemma keepsFrame_upsertTrack env p lastWriteTime trackInfo track :
  keepsFrame (upsertTrack env p lastWriteTime trackInfo track).
Proof. unfold upsertTrack. repeat frame_step. Qed.

Lemma keepsFrame_scanParsedFile env p lastWriteTime trackInfo :
  keepsFrame (scanParsedFile env p lastWriteTime trackInfo).
Proof.
  unfold scanParsedFile.
  repeat first [ apply keepsFrame_skipDuplicateRecordingMBIDLoop
               | apply keepsFrame_upsertTrack
               | frame_step ].
Qed.

Lemma keepsFrame_lastWriteIsTheSame p lastWriteTime :
  keepsFrame (lastWriteIsTheSame p lastWriteTime).
Proof. unfold lastWriteIsTheSame. repeat frame_step. Qed.

Lemma keepsFrame_scanAudioFile env p : keepsFrame (scanAudioFile env p).
Proof.
  unfold scanAudioFile.
  repeat first [ apply keepsFrame_lastWriteIsTheSame
               | apply keepsFrame_scanParsedFile
               | frame_step ].
Qed.

(** The calls that the progress callback receives for [n] files, when the
    step statistics are [s0] before the first of them. *)
Lemma progress_calls_shift (total p0 : size_t) (n : nat) :
  {| totalElems := total; processedElems := incr p0 |}
  :: map (fun i => {| totalElems := total;
                      processedElems := Nat.iter i incr (incr p0) |}) (seq 1 n)
  = map (fun i => {| totalElems := total;
                     processedElems := Nat.iter i incr p0 |}) (seq 1 (S n)).
Proof.
  cbn [seq map Nat.iter]. f_equal. rewrite <- (seq_shift n 1), map_map.
  apply map_ext. intros i. now rewrite Nat.iter_succ_r.
Qed.

Lemma processEntry_audio env k ec p st :
  abortScan env k = false ->
  isAudioEntry env (_settings (self st)) (ec, p) = true ->
  let st1 := exec (scanAudioFile env p) st in
  let current :=
    {| totalElems := totalElems (currentStepStats (context st));
       processedElems := incr (processedElems (currentStepStats (context st))) |} in
  processEntry env k (ec, p) st =
  (true,
   with_progressCalls (fun l => l ++ [current])
     (with_context (with_currentStepStats (fun _ => current)) st1)).
Proof.
  intros Habort Haudio st1 current. unfold isAudioEntry in Haudio.
  apply andb_true_iff in Haudio. destruct Haudio as [Hec Hext].
  apply negb_true_iff in Hec. cbn [fst snd] in Hec, Hext.
  unfold processEntry. rewrite Habort, bind_gets, Hec, Hext.
  rewrite bind_unfold, bind_unfold. fold (exec (scanAudioFile env p) st). fold st1.
  destruct (keepsFrame_scanAudioFile env p st) as (_ & _ & Hcur & _).
  fold st1 in Hcur. subst current. rewrite <- Hcur.
  cbn. reflexivity.
Qed.

Lemma processEntry_other env k ec p st :
  abortScan env k = false ->
  isAudioEntry env (_settings (self st)) (ec, p) = false ->
  eval (processEntry env k (ec, p)) st = true /\
  sameFrame st (exec (processEntry env k (ec, p)) st).
Proof.
  intros Habort Haudio. unfold isAudioEntry in Haudio. cbn [fst snd] in Haudio.
  unfold eval, exec, processEntry. rewrite Habort, bind_gets.
  destruct (ec_is_error ec); cbn [negb andb] in Haudio.
  - rewrite bind_unfold. cbn [ret fst snd]. split; [reflexivity|].
    apply keepsFrame_emplace_error.
  - rewrite Haudio. cbn. split; [reflexivity|]. apply sameFrame_refl.
Qed.

Lemma explore_progressCalls env entries : forall k st,
  let s0 := currentStepStats (context st) in
  let n := length (filter (isAudioEntry env (_settings (self st)))
                          (visitedEntries env k entries)) in
  progressCalls (exec (explore env k entries) st) =
  progressCalls st ++
  map (fun i => {| totalElems := totalElems s0;
                   processedElems := Nat.iter i incr (processedElems s0) |})
      (seq 1 n).
Proof.
  induction entries as [|[ec p] rest IH]; intros k st; cbn zeta.
  - cbn. now rewrite app_nil_r.
  - cbn [explore visitedEntries]. rewrite exec_bind.
    destruct (abortScan env k) eqn:Habort.
    { unfold eval, exec, processEntry. rewrite Habort. cbn. now rewrite app_nil_r. }
    cbn [filter].
    destruct (isAudioEntry env (_settings (self st)) (ec, p)) eqn:Haudio.
    + unfold eval, exec at 2. rewrite (processEntry_audio env k ec p st Habort Haudio).
      cbn [fst snd]. rewrite IH. cbn zeta.
      destruct (keepsFrame_scanAudioFile env p st) as (Hself & Hcalls & _).
      cbn [with_progressCalls with_context progressCalls self context
           with_currentStepStats currentStepStats totalElems processedElems].
      rewrite Hself, Hcalls, <- app_assoc. cbn [app length].
      now rewrite progress_calls_shift.
    + destruct (processEntry_other env k ec p st Habort Haudio) as [Hgo Hframe].
      rewrite Hgo, IH. cbn zeta.
      destruct Hframe as (Hself & Hcalls & Hcur & _).
      now rewrite Hself, Hcalls, Hcur.
Qed.

(** C9, as the code has it. During a scan run the progress callback is
    called exactly once after each entry of the walk that has no error and
    a supported extension, be the file skipped by [scanAudioFile] or not;
    it is not called for the other entries, nor for the entries that the
    walk does not reach because of an abort.  The call number [i] receives
    the processed-elements total after its [i]-th increment, and the total
    number of elements set at the start of the run. *)
Theorem process_progressCalls env st :
  let entries := exploreFilesRecursive env (directory (context st))
                   (excludeDirFileName env) in
  let n := length (filter (isAudioEntry env (_settings (self st)))
                          (visitedEntries env 0 entries)) in
  progressCalls (exec (process env) st) =
  progressCalls st ++
  map (fun i => {| totalElems := filesScanned (stats (context st));
                   processedElems :=
                     Nat.iter i incr
                       (processedElems (currentStepStats (context st))) |})
      (seq 1 n).
Proof.
  cbn zeta. unfold process. rewrite !exec_bind. cbn [modify gets exec eval fst snd].
  rewrite explore_progressCalls. reflexivity.
Qed.

(** C9, as stated, fails: the walk of /music reports one file, a.flac,
    which is unchanged; [scanAudioFile] skips it (one skip, no scan), and
    the progress callback is called after it all the same. *)
Lemma process_reports_progress_after_skipped_file :
  let st' := exec (process Example.env0) Example.st0 in
  exploreFilesRecursive Example.env0 "/music" ".lmsignore"
    = [ ({| ec_value := 0; ec_message := "" |}, "/music/a.flac") ] /\
  skips (stats (context st')) = 1 /\
  scans (stats (context st')) = 0 /\
  progressCalls Example.st0 = [] /\
  progressCalls st' = [ {| totalElems := 1; processedElems := 1 |} ].
Proof. cbv zeta. repeat split. Qed.

(** *** The table of tracks under the resolvers *)

Lemma keepsTracks_ret {A} (a : A) : keepsTracks (ret a).
Proof. intros s. reflexivity. Qed.

Lemma keepsTracks_gets {A} (f : Session.t -> A) : keepsTracks (gets f).
Proof. intros s. reflexivity. Qed.

Lemma keepsTracks_bind {A B} (m : DbM A) (f : A -> DbM B) :
  keepsTracks m -> (forall a, keepsTracks (f a)) -> keepsTracks (bind m f).
Proof. intros Hm Hf s. rewrite exec_bind, Hf, Hm. reflexivity. Qed.

Lemma keepsTracks_with_artists f : keepsTracks (modify (Session.with_artists f)).
Proof. intros []; reflexivity. Qed.

Lemma keepsTracks_with_releases f : keepsTracks (modify (Session.with_releases f)).
Proof. intros []; reflexivity. Qed.

Lemma keepsTracks_with_clusters f : keepsTracks (modify (Session.with_clusters f)).
Proof. intros []; reflexivity. Qed.

Lemma keepsTracks_with_trackArtistLinks f :
  keepsTracks (modify (Session.with_trackArtistLinks f)).
Proof. intros []; reflexivity. Qed.

Lemma keepsTracks_with_trackFeatures f :
  keepsTracks (modify (Session.with_trackFeatures f)).
Proof. intros []; reflexivity. Qed.

Lemma keepsTracks_with_nextId f : keepsTracks (modify (Session.with_nextId f)).
Proof. intros []; reflexivity. Qed.

Create HintDb tracks.
#[local] Hint Resolve keepsTracks_ret keepsTracks_gets keepsTracks_with_artists
  keepsTracks_with_releases keepsTracks_with_clusters
  keepsTracks_with_trackArtistLinks keepsTracks_with_trackFeatures
  keepsTracks_with_nextId : tracks.

Ltac tracks_step :=
  match goal with
  | |- keepsTracks (bind _ _) => apply keepsTracks_bind; [|intros ?]
  | |- keepsTracks (match ?x with _ => _ end) => destruct x
  | |- keepsTracks _ => solve [auto with tracks]
  end.

Lemma keepsTracks_forEach {A} (xs : list A) (body : A -> DbM unit) :
  (forall x, keepsTracks (body x)) -> keepsTracks (forEach xs body).
Proof.
  intros Hbody. induction xs as [|x xs IH]; cbn [forEach]; [auto with tracks|].
  apply keepsTracks_bind; [apply Hbody|intros _; exact IH].
Qed.

Lemma keepsTracks_freshId : keepsTracks freshId.
Proof. unfold freshId. repeat tracks_step. Qed.
#[local] Hint Resolve keepsTracks_freshId : tracks.

Lemma keepsTracks_createArtist artistInfo : keepsTracks (createArtist artistInfo).
Proof.
  unfold createArtist, createArtistObject, modifyArtist. repeat tracks_step.
Qed.

Lemma keepsTracks_updateArtistIfNeeded artist artistInfo :
  keepsTracks (updateArtistIfNeeded artist artistInfo).
Proof. unfold updateArtistIfNeeded, modifyArtist. repeat tracks_step. Qed.
#[local] Hint Resolve keepsTracks_createArtist keepsTracks_updateArtistIfNeeded
  : tracks.

Lemma keepsTracks_getOrCreateArtist artistInfo allow :
  keepsTracks (getOrCreateArtist artistInfo allow).
Proof.
  unfold getOrCreateArtist, findArtistByMBID, findArtistsByName.
  repeat tracks_step.
Qed.
#[local] Hint Resolve keepsTracks_getOrCreateArtist : tracks.

Lemma keepsTracks_getOrCreateArtists artistsInfo allow :
  keepsTracks (getOrCreateArtists artistsInfo allow).
Proof.
  induction artistsInfo as [|a rest IH]; cbn [getOrCreateArtists];
    [auto with tracks|].
  apply keepsTracks_bind; [auto with tracks|intros r].
  apply keepsTracks_bind; [exact IH|intros rs; auto with tracks].
Qed.
#[local] Hint Resolve keepsTracks_getOrCreateArtists : tracks.

Lemma keepsTracks_addArtistLink track artist ty role :
  keepsTracks (addArtistLink track artist ty role).
Proof. unfold addArtistLink. repeat tracks_step. Qed.
#[local] Hint Resolve keepsTracks_addArtistLink : tracks.

Lemma keepsTracks_rebuildArtistLinks track trackInfo :
  keepsTracks (rebuildArtistLinks track trackInfo).
Proof.
  unfold rebuildArtistLinks, clearArtistLinks.
  repeat first [ apply keepsTracks_forEach; intros ? | tracks_step ].
Qed.

Lemma keepsTracks_getOrCreateRelease album : keepsTracks (getOrCreateRelease album).
Proof.
  unfold getOrCreateRelease, findReleaseByMBID, findReleasesByName,
    createReleaseObject, modifyRelease.
  repeat tracks_step.
Qed.

Lemma keepsTracks_getOrCreateClustersOfType ct names :
  keepsTracks (getOrCreateClustersOfType ct names).
Proof.
  induction names as [|n rest IH]; cbn [getOrCreateClustersOfType];
    [auto with tracks|].
  unfold getCluster, createClusterObject.
  repeat first [ exact IH | tracks_step ].
Qed.

Lemma keepsTracks_getOrCreateClusters clustersNames :
  keepsTracks (getOrCreateClusters clustersNames).
Proof.
  induction clustersNames as [|c rest IH]; cbn [getOrCreateClusters];
    [auto with tracks|].
  unfold findClusterType.
  repeat first [ exact IH | apply keepsTracks_getOrCreateClustersOfType
               | tracks_step ].
Qed.
#[local] Hint Resolve keepsTracks_getOrCreateRelease keepsTracks_getOrCreateClusters
  : tracks.

Lemma keepsTracks_findTrackFeatures track : keepsTracks (findTrackFeatures track).
Proof. unfold findTrackFeatures. auto with tracks. Qed.

Lemma keepsTracks_removeTrackFeatures p : keepsTracks (removeTrackFeatures p).
Proof. unfold removeTrackFeatures. auto with tracks. Qed.
#[local] Hint Resolve keepsTracks_findTrackFeatures keepsTracks_removeTrackFeatures
  : tracks.

(** *** Hoare rules, and the fields of the upserted track *)

Lemma hoare_ret {A} (a : A) (P : Session.t -> Prop) : hoare P (ret a) (fun _ => P).
Proof. intros s Hs. exact Hs. Qed.

Lemma hoare_bind {A B} (m : DbM A) (f : A -> DbM B) P Q R :
  hoare P m Q -> (forall a, hoare (Q a) (f a) R) -> hoare P (bind m f) R.
Proof.
  intros Hm Hf s Hs. rewrite eval_bind, exec_bind. apply Hf, Hm, Hs.
Qed.

Lemma hoare_keepsTracks {A X} (m : DbM A) (g : Track.t -> X) v tid :
  keepsTracks m -> hoare (trackField g v tid) m (fun _ => trackField g v tid).
Proof. intros Hm s Hs. unfold trackField. rewrite Hm. exact Hs. Qed.

Lemma modifyTrack_tracks p f s :
  Session.tracks (exec (modifyTrack p f) s)
  = map (fun tr => if Track.getId tr =? p then f tr else tr) (Session.tracks s).
Proof. destruct s; reflexivity. Qed.

Lemma hoare_modifyTrack_keep {X} (g : Track.t -> X) v tid p f :
  (forall t, Track.getId (f t) = Track.getId t) ->
  (forall t, g (f t) = g t) ->
  hoare (trackField g v tid) (modifyTrack p f) (fun _ => trackField g v tid).
Proof.
  intros Hid Hg s [[t [Hin Ht]] Hall]. unfold trackField.
  rewrite modifyTrack_tracks. split.
  - exists (if Track.getId t =? p then f t else t). split.
    + apply in_map_iff. exists t. split; [reflexivity|exact Hin].
    + destruct (Track.getId t =? p); [rewrite Hid|]; exact Ht.
  - intros t' Hin' Ht'. apply in_map_iff in Hin'. destruct Hin' as [t0 [E Hin0]].
    subst t'. destruct (Track.getId t0 =? p).
    + rewrite Hg. apply Hall; [exact Hin0|]. now rewrite <- Hid.
    + now apply Hall.
Qed.

Lemma hoare_modifyTrack_set {X} (g : Track.t -> X) v tid f :
  (forall t, Track.getId (f t) = Track.getId t) ->
  (forall t, g (f t) = v) ->
  hoare (trackExists tid) (modifyTrack tid f) (fun _ => trackField g v tid).
Proof.
  intros Hid Hg s [[t [Hin Ht]] _]. unfold trackField.
  rewrite modifyTrack_tracks. split.
  - exists (f t). split; [|now rewrite Hid].
    apply in_map_iff. exists t. split; [|exact Hin].
    rewrite Ht, N.eqb_refl. reflexivity.
  - intros t' Hin' Ht'. apply in_map_iff in Hin'. destruct Hin' as [t0 [E Hin0]].
    subst t'. destruct (N.eqb_spec (Track.getId t0) tid) as [_|Hne].
    + apply Hg.
    + contradiction.
Qed.

Lemma trackField_exists {X} (g : Track.t -> X) v tid s :
  trackField g v tid s -> trackExists tid s.
Proof. intros [He _]. split; [exact He|]. intros t _ _. now destruct (tt). Qed.

Ltac solve_keep :=
  lazymatch goal with
  | |- hoare _ (bind _ _) _ =>
      eapply hoare_bind; [solve_keep | intros ?; solve_keep]
  | |- hoare _ (modifyTrack _ _) _ =>
      apply hoare_modifyTrack_keep; intros []; reflexivity
  | |- hoare _ (ret _) _ => apply hoare_ret
  | |- hoare _ (match ?x with _ => _ end) _ => destruct x; solve_keep
  | |- _ => apply hoare_keepsTracks; auto with tracks
  end.

Ltac keep_step :=
  eapply hoare_bind; [solve_keep | intros ?].

(** The date that [updateTrackData] leaves on the track. *)
Lemma updateTrackData_date settings tid trackInfo lastWriteTime title now :
  hoare (trackExists tid)
    (updateTrackData settings tid trackInfo lastWriteTime title now)
    (fun _ => trackField Track.getDate
       (if negb (isValid (MetaData.Track.date trackInfo))
           && isValid (MetaData.Track.originalDate trackInfo)
        then MetaData.Track.originalDate trackInfo
        else MetaData.Track.date trackInfo) tid).
Proof.
  unfold updateTrackData, trackExists.
  do 13 keep_step.
  eapply hoare_bind;
    [apply hoare_modifyTrack_set
       with (g := Track.getDate) (v := MetaData.Track.date trackInfo);
       intros []; reflexivity
    |intros ?].
  keep_step.
  eapply hoare_bind with
    (Q := fun _ => trackField Track.getDate
       (if negb (isValid (MetaData.Track.date trackInfo))
           && isValid (MetaData.Track.originalDate trackInfo)
        then MetaData.Track.originalDate trackInfo
        else MetaData.Track.date trackInfo) tid).
  - destruct (negb _ && _).
    + intros s Hs. apply trackField_exists in Hs. revert s Hs.
      apply hoare_modifyTrack_set; intros []; reflexivity.
    + apply hoare_ret.
  - intros ?. solve_keep.
Qed.

Lemma scanAudioFile_upsert env p st lastWriteTime trackInfo :
  getLastWriteTime env p = inr lastWriteTime ->
  eval (lastWriteIsTheSame p lastWriteTime) st = false ->
  parse env (_metadataParser (self st)) p = Some trackInfo ->
  duplicateFound p trackInfo st = false ->
  MetaData.Track.audioStreams trackInfo <> [] ->
  MetaData.Track.duration trackInfo <> 0%Z ->
  scanAudioFile env p st =
  upsertTrack env p lastWriteTime trackInfo (eval (findTrackByPath p) (db st))
    (with_context (with_stats (with_scans incr)) st).
Proof.
  intros Hlwt Hsame Hparse Hdup Hstreams Hduration.
  rewrite (scanAudioFile_parsed env p st _ _ Hlwt Hsame Hparse), scanParsedFile_run.
  cbn zeta. rewrite Hdup.
  destruct (MetaData.Track.audioStreams trackInfo); [contradiction|].
  destruct (Z.eqb_spec (MetaData.Track.duration trackInfo) 0); [contradiction|].
  reflexivity.
Qed.

Lemma eval_ret {S A} (a : A) (s : S) : eval (ret a) s = a.
Proof. reflexivity. Qed.

Lemma exec_ret {S A} (a : A) (s : S) : exec (ret a) s = s.
Proof. reflexivity. Qed.

Lemma exec_gets {S A} (f : S -> A) (s : S) : exec (gets f) s = s.
Proof. reflexivity. Qed.

Lemma eval_gets {S A} (f : S -> A) (s : S) : eval (gets f) s = f s.
Proof. reflexivity. Qed.

Lemma db_modifyStats f st : db (exec (modifyStats f) st) = db st.
Proof. reflexivity. Qed.

Lemma db_liftDb {A} (m : DbM A) st : db (exec (liftDb m) st) = exec m (db st).
Proof. rewrite liftDb_exec. reflexivity. Qed.

Lemma createTrackObject_tracks p s :
  Session.tracks (exec (createTrackObject p) s)
  = Session.tracks s ++ [Track.create (Session.nextId s) p].
Proof. destruct s; reflexivity. Qed.

Lemma upsertTrack_trackField {X} env p lastWriteTime trackInfo st st1
  (g : Track.t -> X) (v : X) :
  db st1 = db st ->
  (forall settings tid title now,
     hoare (trackExists tid)
       (updateTrackData settings tid trackInfo lastWriteTime title now)
       (fun _ => trackField g v tid)) ->
  trackField g v (upsertedTrackId p (db st))
    (db (exec (upsertTrack env p lastWriteTime trackInfo
                 (eval (findTrackByPath p) (db st))) st1)).
Proof.
  intros Hdb Hupdate. unfold upsertTrack, upsertedTrackId.
  set (title := if negb _ then _ else _).
  destruct (eval (findTrackByPath p) (db st)) as [t|] eqn:Hfind.
  - rewrite !exec_bind, !eval_bind, !eval_ret, !exec_ret, !exec_gets, !db_liftDb,
      db_modifyStats, Hdb.
    apply (Hupdate _ (Track.getId t) title).
    apply (hoare_keepsTracks _ (fun _ => tt) tt _
             (keepsTracks_rebuildArtistLinks (Track.getId t) trackInfo)).
    split; [|intros t' _ _; now destruct (tt)].
    exists t. split; [|reflexivity].
    unfold eval, findTrackByPath, gets in Hfind. cbn [fst] in Hfind.
    apply find_some in Hfind. apply Hfind.
  - rewrite !exec_bind, !eval_bind, !eval_ret, !exec_ret, !exec_gets, !liftDb_eval.
    repeat (rewrite db_liftDb || rewrite db_modifyStats). rewrite Hdb.
    assert (Hid : eval (createTrackObject p) (db st) = Session.nextId (db st)).
    { destruct (db st); reflexivity. }
    rewrite Hid.
    apply (Hupdate _ (Session.nextId (db st)) title).
    apply (hoare_keepsTracks _ (fun _ => tt) tt _
             (keepsTracks_rebuildArtistLinks (Session.nextId (db st)) trackInfo)).
    split; [|intros t' _ _; now destruct (tt)].
    exists (Track.create (Session.nextId (db st)) p). split; [|reflexivity].
    rewrite createTrackObject_tracks. apply in_or_app. right. now left.
Qed.

(** C7. A file that reaches the upsert: the track written for it exists,
    and its stored release date is the parsed original release date when
    the parsed release date is not valid and the original one is, and the
    parsed release date when this one is valid. *)
Theorem scanAudioFile_release_date env p st lastWriteTime trackInfo :
  getLastWriteTime env p = inr lastWriteTime ->
  eval (lastWriteIsTheSame p lastWriteTime) st = false ->
  parse env (_metadataParser (self st)) p = Some trackInfo ->
  duplicateFound p trackInfo st = false ->
  MetaData.Track.audioStreams trackInfo <> [] ->
  MetaData.Track.duration trackInfo <> 0%Z ->
  let tid := upsertedTrackId p (db st) in
  let st' := exec (scanAudioFile env p) st in
  (exists t, In t (Session.tracks (db st')) /\ Track.getId t = tid) /\
  (forall t, In t (Session.tracks (db st')) -> Track.getId t = tid ->
     (isValid (MetaData.Track.date trackInfo) = false ->
      isValid (MetaData.Track.originalDate trackInfo) = true ->
      Track.getDate t = MetaData.Track.originalDate trackInfo) /\
     (isValid (MetaData.Track.date trackInfo) = true ->
      Track.getDate t = MetaData.Track.date trackInfo)).
Proof.
  intros Hlwt Hsame Hparse Hdup Hstreams Hduration tid st'. subst tid st'.
  unfold exec at 1 2.
  rewrite (scanAudioFile_upsert env p st _ _ Hlwt Hsame Hparse Hdup Hstreams Hduration).
  destruct (upsertTrack_trackField env p lastWriteTime trackInfo st
              (with_context (with_stats (with_scans incr)) st)
              Track.getDate _ eq_refl
              (fun settings tid title now =>
                 updateTrackData_date settings tid trackInfo lastWriteTime title now))
    as [Hex Hall].
  split; [exact Hex|]. intros t Hin Hid. specialize (Hall t Hin Hid).
  split.
  - intros Hd Ho. rewrite Hall, Hd, Ho. reflexivity.
  - intros Hd. rewrite Hall, Hd. reflexivity.
Qed.

Lemma scanAudioFile_release_date_witness :
  let st' := exec (scanAudioFile Example.env0 "/music/old.flac") Example.st0 in
  (exists t, In t (Session.tracks (db st')) /\ Track.getId t = 100) /\
  (forall t, In t (Session.tracks (db st')) -> Track.getId t = 100 ->
     Track.getDate t = Date 1999 1 1).
Proof.
  destruct (scanAudioFile_release_date Example.env0 "/music/old.flac" Example.st0
              Example.time1 Example.infoOld eq_refl eq_refl eq_refl eq_refl
              ltac:(discriminate) ltac:(discriminate)) as [Hex Hall].
  split; [exact Hex|]. intros t Hin Hid.
  exact (proj1 (Hall t Hin Hid) eq_refl eq_refl).
Defined.

(** *** An album without name and MBID *)

Lemma getOrCreateRelease_nothing album s :
  MetaData.Album.name album = "" ->
  MetaData.Album.musicBrainzAlbumID album = None ->
  getOrCreateRelease album s = (None, s).
Proof.
  intros Hname Hmbid. unfold getOrCreateRelease. rewrite Hmbid, Hname. reflexivity.
Qed.

Lemma updateTrackData_no_release settings tid trackInfo lastWriteTime title now :
  match MetaData.Track.album trackInfo with
  | Some album => MetaData.Album.name album = ""
                  /\ MetaData.Album.musicBrainzAlbumID album = None
  | None => True
  end ->
  hoare (trackExists tid)
    (updateTrackData settings tid trackInfo lastWriteTime title now)
    (fun _ => trackField Track.getRelease None tid).
Proof.
  intros Halbum. unfold updateTrackData, trackExists.
  keep_step.
  eapply hoare_bind with (Q := fun _ => trackField Track.getRelease None tid).
  - destruct (MetaData.Track.album trackInfo) as [album|].
    + destruct Halbum as [Hname Hmbid]. intros s Hs.
      cbv beta. rewrite exec_bind. unfold eval, exec at 2.
      rewrite (getOrCreateRelease_nothing album s Hname Hmbid). cbn [fst snd].
      revert s Hs. apply hoare_modifyTrack_set; intros []; reflexivity.
    + apply hoare_modifyTrack_set; intros []; reflexivity.
  - intros ?. solve_keep.
Qed.

Lemma updateTrackData_album_irrelevant settings tid trackInfo lastWriteTime title now
  album s :
  MetaData.Track.album trackInfo = Some album ->
  MetaData.Album.name album = "" ->
  MetaData.Album.musicBrainzAlbumID album = None ->
  updateTrackData settings tid trackInfo lastWriteTime title now s =
  updateTrackData settings tid (MetaData.Track.with_album None trackInfo)
    lastWriteTime title now s.
Proof.
  intros Halbum Hname Hmbid. destruct trackInfo. cbn in Halbum. subst album0.
  destruct album as [n m]. cbn in Hname, Hmbid. subst n m.
  reflexivity.
Qed.

Lemma scanParsedFile_album_irrelevant env p lastWriteTime trackInfo album st :
  MetaData.Track.album trackInfo = Some album ->
  MetaData.Album.name album = "" ->
  MetaData.Album.musicBrainzAlbumID album = None ->
  scanParsedFile env p lastWriteTime trackInfo st =
  scanParsedFile env p lastWriteTime (MetaData.Track.with_album None trackInfo) st.
Proof.
  intros Halbum Hname Hmbid. destruct trackInfo. cbn in Halbum. subst album0.
  destruct album as [n m]. cbn in Hname, Hmbid. subst n m.
  reflexivity.
Qed.

(** C10. A parsed record whose album information is present, with an
    empty album name and no album MBID: the release resolution returns no
    release and leaves the catalog as it is; the scan of the file does
    exactly what it does for the same record without album information;
    and when the file reaches the upsert, the track written for it has no
    release. *)
Theorem scanAudioFile_album_without_name env p st lastWriteTime trackInfo album :
  getLastWriteTime env p = inr lastWriteTime ->
  eval (lastWriteIsTheSame p lastWriteTime) st = false ->
  parse env (_metadataParser (self st)) p = Some trackInfo ->
  MetaData.Track.album trackInfo = Some album ->
  MetaData.Album.name album = "" ->
  MetaData.Album.musicBrainzAlbumID album = None ->
  let st' := exec (scanAudioFile env p) st in
  let tid := upsertedTrackId p (db st) in
  (forall s, getOrCreateRelease album s = (None, s)) /\
  st' = exec (scanParsedFile env p lastWriteTime
                (MetaData.Track.with_album None trackInfo)) st /\
  (duplicateFound p trackInfo st = false ->
   MetaData.Track.audioStreams trackInfo <> [] ->
   MetaData.Track.duration trackInfo <> 0%Z ->
   (exists t, In t (Session.tracks (db st')) /\ Track.getId t = tid) /\
   (forall t, In t (Session.tracks (db st')) -> Track.getId t = tid ->
      Track.getRelease t = None)).
Proof.
  intros Hlwt Hsame Hparse Halbum Hname Hmbid st' tid. subst st' tid.
  split; [|split].
  - intros s. now apply getOrCreateRelease_nothing.
  - unfold exec.
    rewrite (scanAudioFile_parsed env p st _ _ Hlwt Hsame Hparse).
    now rewrite (scanParsedFile_album_irrelevant env p lastWriteTime trackInfo
                   album st Halbum Hname Hmbid).
  - intros Hdup Hstreams Hduration. unfold exec at 1 2.
    rewrite (scanAudioFile_upsert env p st _ _ Hlwt Hsame Hparse Hdup Hstreams
               Hduration).
    apply (upsertTrack_trackField env p lastWriteTime trackInfo st
             (with_context (with_stats (with_scans incr)) st)
             Track.getRelease None eq_refl).
    intros settings tid title now. apply updateTrackData_no_release.
    rewrite Halbum. now split.
Qed.

Lemma scanAudioFile_album_without_name_witness :
  let st' := exec (scanAudioFile Example.env0 "/music/old.flac") Example.st0 in
  (forall s,
     getOrCreateRelease
       {| MetaData.Album.name := ""; MetaData.Album.musicBrainzAlbumID := None |} s
     = (None, s)) /\
  st' = exec (scanParsedFile Example.env0 "/music/old.flac" Example.time1
                (MetaData.Track.with_album None Example.infoOld)) Example.st0 /\
  (exists t, In t (Session.tracks (db st')) /\ Track.getId t = 100) /\
  (forall t, In t (Session.tracks (db st')) -> Track.getId t = 100 ->
     Track.getRelease t = None).
Proof.
  destruct (scanAudioFile_album_without_name Example.env0 "/music/old.flac"
              Example.st0 Example.time1 Example.infoOld
              {| MetaData.Album.name := "";
                 MetaData.Album.musicBrainzAlbumID := None |}
              eq_refl eq_refl eq_refl eq_refl eq_refl eq_refl)
    as (Hnone & Hsame & Hupsert).
  split; [exact Hnone|]. split; [exact Hsame|].
  apply Hupsert; [reflexivity|discriminate|discriminate].
Defined.

(** ** Further properties of the scan step *)

(** *** Parts of the state that a computation leaves alone *)

Lemma preserves_ret {S A X} (proj : S -> X) (a : A) : preserves proj (ret a).
Proof. intros s. reflexivity. Qed.

Lemma preserves_gets {S A X} (proj : S -> X) (f : S -> A) :
  preserves proj (gets f).
Proof. intros s. reflexivity. Qed.

Lemma preserves_bind {S A B X} (proj : S -> X) (m : M S A) (f : A -> M S B) :
  preserves proj m -> (forall a, preserves proj (f a)) ->
  preserves proj (bind m f).
Proof. intros Hm Hf s. rewrite exec_bind, Hf, Hm. reflexivity. Qed.

Lemma preserves_modify {S X} (proj : S -> X) (f : S -> S) :
  (forall s, proj (f s) = proj s) -> preserves proj (modify f).
Proof. intros Hf s. apply Hf. Qed.

Lemma preserves_forEach {S A X} (proj : S -> X) (xs : list A)
  (body : A -> M S unit) :
  (forall x, preserves proj (body x)) -> preserves proj (forEach xs body).
Proof.
  intros Hbody. induction xs as [|x xs IH]; cbn [forEach].
  - apply preserves_ret.
  - apply preserves_bind; [apply Hbody|intros _; exact IH].
Qed.

Lemma preserves_liftDb {A X} (proj : St -> X) (m : DbM A) :
  (forall f st, proj (with_db f st) = proj st) -> preserves proj (liftDb m).
Proof. intros Hproj st. rewrite liftDb_exec. apply Hproj. Qed.

(** The scan context under the database operations. *)
Lemma preserves_context_liftDb {A} (m : DbM A) : preserves context (liftDb m).
Proof. apply preserves_liftDb. reflexivity. Qed.

Lemma context_upsertTrack env p lastWriteTime trackInfo track st :
  context (exec (upsertTrack env p lastWriteTime trackInfo track) st) =
  with_stats (if isSome track then with_updates incr else with_additions incr)
    (context st).
Proof.
  unfold upsertTrack. rewrite exec_bind.
  rewrite (preserves_bind context _ _ (preserves_context_liftDb _)).
  2: { intros _. apply preserves_bind; [apply preserves_gets|].
       intros settings. apply preserves_context_liftDb. }
  destruct track as [t|]; cbn [isSome].
  - rewrite exec_bind. reflexivity.
  - rewrite !exec_bind, exec_ret.
    change (context (exec (modifyStats (with_additions incr))
                       (exec (liftDb (createTrackObject p)) st)))
      with (with_stats (with_additions incr)
              (context (exec (liftDb (createTrackObject p)) st))).
    now rewrite preserves_context_liftDb.
Qed.

(** X1. A file that the parser cannot read: one [CannotParseFile] error
    is recorded for it and nothing else happens; the catalog is as before
    and no counter moves, the scan counter included. *)
Theorem scanAudioFile_unparsable_file env p st lastWriteTime :
  getLastWriteTime env p = inr lastWriteTime ->
  eval (lastWriteIsTheSame p lastWriteTime) st = false ->
  parse env (_metadataParser (self st)) p = None ->
  let st' := exec (scanAudioFile env p) st in
  let s := stats (context st) in
  db st' = db st /\
  stats (context st') =
    {| filesScanned := filesScanned s; skips := skips s; scans := scans s;
       additions := additions s; updates := updates s; deletions := deletions s;
       errors := errors s ++
         [ {| file := p; error := CannotParseFile; systemError := "" |} ] |}.
Proof.
  intros Hlwt Hsame Hparse st' s. subst st' s. unfold exec, scanAudioFile.
  rewrite Hlwt, bind_unfold. unfold eval in Hsame. rewrite Hsame.
  rewrite lastWriteIsTheSame_run. cbn [snd]. rewrite bind_gets, Hparse.
  cbn. split; [reflexivity|]. destruct (stats (context st)); reflexivity.
Qed.

Lemma scanAudioFile_unparsable_file_witness :
  let st' := exec (scanAudioFile Example.env0 "/music/broken.flac") Example.st0 in
  db st' = Example.db0 /\
  stats (context st') =
    {| filesScanned := 1; skips := 0; scans := 0; additions := 0; updates := 0;
       deletions := 0;
       errors := [ {| file := "/music/broken.flac"; error := CannotParseFile;
                      systemError := "" |} ] |}.
Proof.
  exact (scanAudioFile_unparsable_file Example.env0 "/music/broken.flac"
           Example.st0 Example.time1 eq_refl eq_refl eq_refl).
Defined.

Lemma context_invalidAudio p ty track st :
  context (exec (invalidAudio p ty track) st) =
  with_stats (emplace_error {| file := p; error := ty; systemError := "" |})
    (with_stats (with_deletions (if isSome track then incr else fun n => n))
       (context st)).
Proof.
  unfold invalidAudio, exec. rewrite bind_unfold, removeIfExists_run. reflexivity.
Qed.

Lemma context_removeIfExists track st :
  context (exec (removeIfExists track) st) =
  with_stats (with_deletions (if isSome track then incr else fun n => n))
    (context st).
Proof. unfold exec. rewrite removeIfExists_run. reflexivity. Qed.

Lemma scanParsedFile_counts env p lastWriteTime trackInfo st :
  let s := stats (context st) in
  let s' := stats (context (exec (scanParsedFile env p lastWriteTime trackInfo) st)) in
  filesScanned s' = filesScanned s /\ skips s' = skips s /\ scans s' = incr (scans s).
Proof.
  cbn zeta. unfold exec at 1 2 3. rewrite scanParsedFile_run. cbn zeta.
  set (track := eval (findTrackByPath p) (db st)).
  set (st1 := with_context (with_stats (with_scans incr)) st).
  assert (H1 : forall w : ScanStats -> ScanStats,
            (forall x, filesScanned (w x) = filesScanned x) ->
            (forall x, skips (w x) = skips x) ->
            (forall x, scans (w x) = scans x) ->
            filesScanned (w (stats (context st1))) = filesScanned (stats (context st))
            /\ skips (w (stats (context st1))) = skips (stats (context st))
            /\ scans (w (stats (context st1))) = incr (scans (stats (context st)))).
  { intros w Hf Hk Hc. rewrite Hf, Hk, Hc. subst st1. cbn.
    destruct (stats (context st)); cbn. repeat split. }
  destruct (duplicateFound p trackInfo st).
  { fold (exec (removeIfExists track) st1). rewrite context_removeIfExists.
    apply (H1 (with_deletions _)); intros []; reflexivity. }
  destruct (MetaData.Track.audioStreams trackInfo).
  { fold (exec (invalidAudio p NoAudioTrack track) st1). rewrite context_invalidAudio.
    apply (H1 (fun x => emplace_error _ (with_deletions _ x))); intros []; reflexivity. }
  destruct (MetaData.Track.duration trackInfo =? 0)%Z.
  { fold (exec (invalidAudio p BadDuration track) st1). rewrite context_invalidAudio.
    apply (H1 (fun x => emplace_error _ (with_deletions _ x))); intros []; reflexivity. }
  fold (exec (upsertTrack env p lastWriteTime trackInfo track) st1).
  rewrite context_upsertTrack.
  destruct track; cbn [isSome].
  - apply (H1 (with_updates incr)); intros []; reflexivity.
  - apply (H1 (with_additions incr)); intros []; reflexivity.
Qed.

(** X2. A file that is read and parsed is counted as one scan and is not
    counted as a skip, whatever becomes of it afterwards (duplicate,
    invalid audio, track added or updated). *)
Theorem scanAudioFile_parsed_file_counted_once env p st lastWriteTime trackInfo :
  getLastWriteTime env p = inr lastWriteTime ->
  eval (lastWriteIsTheSame p lastWriteTime) st = false ->
  parse env (_metadataParser (self st)) p = Some trackInfo ->
  let s := stats (context st) in
  let s' := stats (context (exec (scanAudioFile env p) st)) in
  scans s' = incr (scans s) /\ skips s' = skips s.
Proof.
  intros Hlwt Hsame Hparse s s'. subst s s'. unfold exec.
  rewrite (scanAudioFile_parsed env p st _ _ Hlwt Hsame Hparse).
  destruct (scanParsedFile_counts env p lastWriteTime trackInfo st) as (_ & Hk & Hc).
  split; assumption.
Qed.

Lemma scanAudioFile_parsed_file_counted_once_witness :
  let s' := stats (context (exec (scanAudioFile Example.env0 "/music/old.flac")
                              Example.st0)) in
  scans s' = 1 /\ skips s' = 0.
Proof.
  exact (scanAudioFile_parsed_file_counted_once Example.env0 "/music/old.flac"
           Example.st0 Example.time1 Example.infoOld eq_refl eq_refl eq_refl).
Defined.

(** X3. With the force-scan flag set, a file whose last-write time can be
    read is never counted as a skip, be it unchanged or not. *)
Theorem scanAudioFile_force_never_skips env p st lastWriteTime :
  getLastWriteTime env p = inr lastWriteTime ->
  forceScan (context st) = true ->
  skips (stats (context (exec (scanAudioFile env p) st)))
  = skips (stats (context st)).
Proof.
  intros Hlwt Hforce.
  assert (Hsame : eval (lastWriteIsTheSame p lastWriteTime) st = false).
  { unfold eval. rewrite lastWriteIsTheSame_run. cbn [fst]. now rewrite Hforce. }
  destruct (parse env (_metadataParser (self st)) p) as [trackInfo|] eqn:Hparse.
  - unfold exec. rewrite (scanAudioFile_parsed env p st _ _ Hlwt Hsame Hparse).
    apply (scanParsedFile_counts env p lastWriteTime trackInfo st).
  - unfold exec, scanAudioFile. rewrite Hlwt, bind_unfold.
    unfold eval in Hsame. rewrite Hsame, lastWriteIsTheSame_run. cbn [snd].
    rewrite bind_gets, Hparse. cbn. destruct (stats (context st)); reflexivity.
Qed.

(** X4. A file that reaches the upsert is counted as an addition when no
    track was cataloged at its path, and as an update otherwise; it is also
    counted as a scan, and no deletion and no error is recorded. *)
Theorem scanAudioFile_upsert_stats env p st lastWriteTime trackInfo :
  getLastWriteTime env p = inr lastWriteTime ->
  eval (lastWriteIsTheSame p lastWriteTime) st = false ->
  parse env (_metadataParser (self st)) p = Some trackInfo ->
  duplicateFound p trackInfo st = false ->
  MetaData.Track.audioStreams trackInfo <> [] ->
  MetaData.Track.duration trackInfo <> 0%Z ->
  let existed := isSome (eval (findTrackByPath p) (db st)) in
  let s := stats (context st) in
  stats (context (exec (scanAudioFile env p) st)) =
    {| filesScanned := filesScanned s; skips := skips s; scans := incr (scans s);
       additions := if existed then additions s else incr (additions s);
       updates := if existed then incr (updates s) else updates s;
       deletions := deletions s; errors := errors s |}.
Proof.
  intros Hlwt Hsame Hparse Hdup Hstreams Hduration existed s. subst existed s.
  unfold exec.
  rewrite (scanAudioFile_upsert env p st _ _ Hlwt Hsame Hparse Hdup Hstreams
             Hduration).
  fold (exec (upsertTrack env p lastWriteTime trackInfo
                (eval (findTrackByPath p) (db st)))
             (with_context (with_stats (with_scans incr)) st)).
  rewrite context_upsertTrack.
  destruct (eval (findTrackByPath p) (db st)); cbn;
    destruct (stats (context st)); reflexivity.
Qed.

(** *** What the upsert writes *)

Lemma hoare_post {A} (m : DbM A) (P : Session.t -> Prop)
  (Q Q' : A -> Session.t -> Prop) :
  hoare P m Q' -> (forall a s, Q' a s -> Q a s) -> hoare P m Q.
Proof. intros Hm HQ s Hs. apply HQ, Hm, Hs. Qed.

Lemma hoare_exists {A X} (m : DbM A) (P : X -> Session.t -> Prop)
  (Q : A -> Session.t -> Prop) :
  (forall x, hoare (P x) m Q) -> hoare (fun s => exists x, P x s) m Q.
Proof. intros Hm s [x Hs]. exact (Hm x s Hs). Qed.

Lemma tracksUpdated_keepsTracks {A} (m : DbM A) tid l0 F :
  keepsTracks m ->
  hoare (tracksUpdated tid l0 F) m (fun _ => tracksUpdated tid l0 F).
Proof. intros Hm s Hs. unfold tracksUpdated. rewrite Hm. exact Hs. Qed.

Lemma tracksUpdated_modifyTrack tid l0 F f :
  (forall t, Track.getId (f t) = Track.getId t) ->
  (forall t, Track.getPath (f t) = Track.getPath t) ->
  hoare (tracksUpdated tid l0 F) (modifyTrack tid f)
    (fun _ => tracksUpdated tid l0 (fun t => f (F t))).
Proof.
  intros Hid Hpath s (Htracks & HFid & HFpath). unfold tracksUpdated.
  rewrite modifyTrack_tracks, Htracks, map_map. split; [|split].
  - apply map_ext. intros t.
    destruct (Track.getId t =? tid) eqn:E; [|now rewrite E].
    now rewrite HFid, E.
  - intros t. now rewrite Hid, HFid.
  - intros t. now rewrite Hpath, HFpath.
Qed.

Ltac written_step :=
  eapply hoare_bind;
  [ first [ apply tracksUpdated_modifyTrack; intros []; reflexivity
          | apply tracksUpdated_keepsTracks; auto with tracks ]
  | intros ? ].

Lemma updateTrackData_tracks settings tid trackInfo lastWriteTime title now l0 :
  hoare (fun s => Session.tracks s = l0)
    (updateTrackData settings tid trackInfo lastWriteTime title now)
    (fun _ s => exists release clusters,
       tracksUpdated tid l0
         (writtenTrack settings trackInfo lastWriteTime title now release clusters)
         s).
Proof.
  intros s Hs.
  assert (H0 : tracksUpdated tid l0 (fun t => t) s).
  { split; [|split; reflexivity]. rewrite Hs.
    rewrite <- (map_id l0) at 1. apply map_ext. intros t.
    now destruct (Track.getId t =? tid). }
  clear Hs. revert s H0.
  change (hoare (tracksUpdated tid l0 (fun t => t))
    (updateTrackData settings tid trackInfo lastWriteTime title now)
    (fun _ s => exists release clusters,
       tracksUpdated tid l0
         (writtenTrack settings trackInfo lastWriteTime title now release clusters)
         s)).
  unfold updateTrackData.
  written_step.
  eapply hoare_bind with
    (Q := fun _ s => exists release,
       tracksUpdated tid l0
         (fun t => Track.setRelease release
                     (Track.setScanVersion (scanVersion settings) t)) s).
  { destruct (MetaData.Track.album trackInfo) as [album|].
    - eapply hoare_bind;
        [apply tracksUpdated_keepsTracks; auto with tracks|intros release].
      eapply hoare_post;
        [apply tracksUpdated_modifyTrack; intros []; reflexivity|].
      intros ? s Hs. now exists release.
    - eapply hoare_post;
        [apply tracksUpdated_modifyTrack; intros []; reflexivity|].
      intros ? s Hs. now exists None. }
  intros ?. apply hoare_exists. intros release.
  eapply hoare_bind;
    [apply tracksUpdated_keepsTracks; auto with tracks|intros clusters].
  do 12 written_step.
  eapply hoare_bind with
    (Q := fun _ => tracksUpdated tid l0 (fun t =>
       let t := Track.setOriginalDate (MetaData.Track.originalDate trackInfo)
         (Track.setDate (MetaData.Track.date trackInfo)
         (Track.setDiscSubtitle (MetaData.Track.discSubtitle trackInfo)
         (Track.setTotalDisc (MetaData.Track.totalDisc trackInfo)
         (Track.setTotalTrack (MetaData.Track.totalTrack trackInfo)
         (Track.setDiscNumber
            (match MetaData.Track.discNumber trackInfo with
             | Some n => n | None => 0 end)
         (Track.setTrackNumber
            (match MetaData.Track.trackNumber trackInfo with
             | Some n => n | None => 0 end)
         (Track.setAddedTime now
         (Track.setDuration (MetaData.Track.duration trackInfo)
         (Track.setName title
         (Track.setLastWriteTime lastWriteTime
         (Track.setClusters clusters
         (Track.setRelease release
         (Track.setScanVersion (scanVersion settings) t))))))))))))) in
       if negb (isValid (MetaData.Track.date trackInfo))
          && isValid (MetaData.Track.originalDate trackInfo)
       then Track.setDate (MetaData.Track.originalDate trackInfo) t
       else t)).
  { destruct (negb _ && _).
    - apply tracksUpdated_modifyTrack; intros []; reflexivity.
    - apply hoare_ret. }
  intros ?.
  do 2 written_step.
  eapply hoare_bind;
    [apply tracksUpdated_keepsTracks; auto with tracks|intros features].
  eapply hoare_bind;
    [apply tracksUpdated_keepsTracks; destruct features; auto with tracks|intros ?].
  do 4 written_step.
  eapply hoare_post;
    [apply tracksUpdated_modifyTrack; intros []; reflexivity|].
  intros ? s Hs. exists release, clusters. exact Hs.
Qed.

Lemma self_liftDb {A} (m : DbM A) st : self (exec (liftDb m) st) = self st.
Proof. rewrite liftDb_exec. reflexivity. Qed.

Lemma self_modifyStats f st : self (exec (modifyStats f) st) = self st.
Proof. reflexivity. Qed.

Lemma upsertTrack_tracks env p lastWriteTime trackInfo st st1 :
  db st1 = db st ->
  let track := eval (findTrackByPath p) (db st) in
  let tid := upsertedTrackId p (db st) in
  let l1 := Session.tracks (db st)
            ++ (if isSome track then [] else [Track.create tid p]) in
  exists release clusters,
    tracksUpdated tid l1
      (writtenTrack (_settings (self st1)) trackInfo lastWriteTime
         (trackTitle env p trackInfo) (currentDateTime env p) release clusters)
      (db (exec (upsertTrack env p lastWriteTime trackInfo track) st1)).
Proof.
  intros Hdb track tid l1. subst track tid l1.
  unfold upsertTrack, upsertedTrackId. fold (trackTitle env p trackInfo).
  destruct (eval (findTrackByPath p) (db st)) as [t|] eqn:Hfind; cbn [isSome].
  - rewrite !exec_bind, !eval_bind, !eval_ret, !exec_ret, !exec_gets, !eval_gets.
    repeat (rewrite db_liftDb || rewrite db_modifyStats
            || rewrite self_liftDb || rewrite self_modifyStats).
    apply (updateTrackData_tracks _ (Track.getId t) trackInfo lastWriteTime
             (trackTitle env p trackInfo) (currentDateTime env p)).
    rewrite keepsTracks_rebuildArtistLinks, Hdb. now rewrite app_nil_r.
  - rewrite !exec_bind, !eval_bind, !eval_ret, !exec_ret, !exec_gets, !eval_gets,
      !liftDb_eval.
    repeat (rewrite db_liftDb || rewrite db_modifyStats
            || rewrite self_liftDb || rewrite self_modifyStats).
    rewrite Hdb.
    assert (Hid : eval (createTrackObject p) (db st) = Session.nextId (db st)).
    { destruct (db st); reflexivity. }
    rewrite Hid.
    apply (updateTrackData_tracks _ (Session.nextId (db st)) trackInfo lastWriteTime
             (trackTitle env p trackInfo) (currentDateTime env p)).
    now rewrite keepsTracks_rebuildArtistLinks, createTrackObject_tracks.
Qed.

Lemma find_map_same {A} (pred : A -> bool) (F : A -> A) (l : list A) :
  (forall x, pred (F x) = pred x) ->
  find pred (map F l) = option_map F (find pred l).
Proof.
  intros H. induction l as [|x l IH]; [reflexivity|].
  cbn [map find]. rewrite H. destruct (pred x); [reflexivity|exact IH].
Qed.

Lemma find_app {A} (pred : A -> bool) (l1 l2 : list A) :
  find pred (l1 ++ l2)
  = match find pred l1 with Some x => Some x | None => find pred l2 end.
Proof.
  induction l1 as [|x l1 IH]; [reflexivity|].
  cbn [app find]. destruct (pred x); [reflexivity|exact IH].
Qed.

Lemma findTrackByPath_eval p s :
  eval (findTrackByPath p) s
  = find (fun tr => String.eqb (Track.getPath tr) p) (Session.tracks s).
Proof. reflexivity. Qed.

(** The track found at the path once the upsert is done: the track that
    was there, or the created one, as [updateTrackData] writes it. *)
Lemma findTrackByPath_after_upsert env p st lastWriteTime trackInfo :
  getLastWriteTime env p = inr lastWriteTime ->
  eval (lastWriteIsTheSame p lastWriteTime) st = false ->
  parse env (_metadataParser (self st)) p = Some trackInfo ->
  duplicateFound p trackInfo st = false ->
  MetaData.Track.audioStreams trackInfo <> [] ->
  MetaData.Track.duration trackInfo <> 0%Z ->
  exists release clusters t1,
    Track.getId t1 = upsertedTrackId p (db st) /\
    Track.getPath t1 = p /\
    eval (findTrackByPath p) (db (exec (scanAudioFile env p) st))
    = Some (writtenTrack (_settings (self st)) trackInfo lastWriteTime
              (trackTitle env p trackInfo) (currentDateTime env p)
              release clusters t1).
Proof.
  intros Hlwt Hsame Hparse Hdup Hstreams Hduration. unfold exec.
  rewrite (scanAudioFile_upsert env p st _ _ Hlwt Hsame Hparse Hdup Hstreams
             Hduration).
  destruct (upsertTrack_tracks env p lastWriteTime trackInfo st
              (with_context (with_stats (with_scans incr)) st) eq_refl)
    as (release & clusters & Htracks & Hid & Hpath).
  cbn zeta in Htracks. unfold exec in Htracks.
  change (self (with_context (with_stats (with_scans incr)) st)) with (self st)
    in Htracks, Hid, Hpath.
  set (W := writtenTrack _ _ _ _ _ release clusters) in *.
  exists release, clusters.
  rewrite findTrackByPath_eval, Htracks.
  rewrite find_map_same.
  2: { intros t. destruct (Track.getId t =? _); [now rewrite Hpath|reflexivity]. }
  rewrite find_app. unfold upsertedTrackId.
  destruct (eval (findTrackByPath p) (db st)) as [t0|] eqn:Hfind.
  - rewrite findTrackByPath_eval in Hfind.
    rewrite Hfind. cbn [option_map isSome]. rewrite N.eqb_refl.
    apply find_some in Hfind. destruct Hfind as [_ Hp].
    apply String.eqb_eq in Hp. now exists t0.
  - rewrite findTrackByPath_eval in Hfind.
    rewrite Hfind. cbn [isSome find Track.create Track.getPath].
    rewrite String.eqb_refl. cbn [option_map Track.getId]. rewrite N.eqb_refl.
    now exists (Track.create (Session.nextId (db st)) p).
Qed.

(** X5. The fields of a file that reaches the upsert go to its track as
    they are parsed: the track found at the path afterwards carries the
    current scan version, the last-write time of the file, the parsed
    title (the file name when the title is empty), the parsed duration,
    the parsed track and disc numbers (0 when absent), totals, disc
    subtitle, original date, MBIDs, cover flag, copyright and replay
    gains, and the current time as its added time. *)
Theorem scanAudioFile_fields_round_trip env p st lastWriteTime trackInfo :
  getLastWriteTime env p = inr lastWriteTime ->
  eval (lastWriteIsTheSame p lastWriteTime) st = false ->
  parse env (_metadataParser (self st)) p = Some trackInfo ->
  duplicateFound p trackInfo st = false ->
  MetaData.Track.audioStreams trackInfo <> [] ->
  MetaData.Track.duration trackInfo <> 0%Z ->
  exists t,
    eval (findTrackByPath p) (db (exec (scanAudioFile env p) st)) = Some t /\
    Track.getId t = upsertedTrackId p (db st) /\
    Track.getPath t = p /\
    Track.getScanVersion t = scanVersion (_settings (self st)) /\
    Track.getLastWriteTime t = lastWriteTime /\
    Track.getName t = (if String.eqb (MetaData.Track.title trackInfo) ""
                       then filename env p else MetaData.Track.title trackInfo) /\
    Track.getDuration t = MetaData.Track.duration trackInfo /\
    Track.getAddedTime t = currentDateTime env p /\
    Track.getTrackNumber t = match MetaData.Track.trackNumber trackInfo with
                             | Some n => n | None => 0 end /\
    Track.getDiscNumber t = match MetaData.Track.discNumber trackInfo with
                            | Some n => n | None => 0 end /\
    Track.getTotalTrack t = MetaData.Track.totalTrack trackInfo /\
    Track.getTotalDisc t = MetaData.Track.totalDisc trackInfo /\
    Track.getDiscSubtitle t = MetaData.Track.discSubtitle trackInfo /\
    Track.getOriginalDate t = MetaData.Track.originalDate trackInfo /\
    Track.getRecordingMBID t = MetaData.Track.recordingMBID trackInfo /\
    Track.getTrackMBID t = MetaData.Track.trackMBID trackInfo /\
    Track.hasCover t = MetaData.Track.hasCover trackInfo /\
    Track.getCopyright t = MetaData.Track.copyright trackInfo /\
    Track.getCopyrightURL t = MetaData.Track.copyrightURL trackInfo /\
    Track.getTrackReplayGain t = MetaData.Track.trackReplayGain trackInfo /\
    Track.getReleaseReplayGain t = MetaData.Track.albumReplayGain trackInfo.
Proof.
  intros Hlwt Hsame Hparse Hdup Hstreams Hduration.
  destruct (findTrackByPath_after_upsert env p st lastWriteTime trackInfo
              Hlwt Hsame Hparse Hdup Hstreams Hduration)
    as (release & clusters & t1 & Hid & Hpath & Hfind).
  eexists. split; [exact Hfind|].
  unfold writtenTrack, trackTitle. destruct t1. cbn in Hid, Hpath. subst.
  destruct (negb (isValid _) && _);
    destruct (String.eqb (MetaData.Track.title trackInfo) "");
    cbn; repeat split.
Qed.

Lemma scanAudioFile_fields_round_trip_witness :
  exists t,
    eval (findTrackByPath "/music/old.flac")
      (db (exec (scanAudioFile Example.env0 "/music/old.flac") Example.st0))
    = Some t /\
    Track.getId t = 100 /\ Track.getPath t = "/music/old.flac" /\
    Track.getScanVersion t = 3 /\ Track.getLastWriteTime t = Example.time1 /\
    Track.getName t = "Song" /\ Track.getDuration t = 180000%Z /\
    Track.getAddedTime t = Example.now0 /\
    Track.getTrackNumber t = 3 /\ Track.getDiscNumber t = 1 /\
    Track.getTotalTrack t = None /\ Track.getTotalDisc t = None /\
    Track.getDiscSubtitle t = "" /\ Track.getOriginalDate t = Date 1999 1 1 /\
    Track.getRecordingMBID t = None /\ Track.getTrackMBID t = None /\
    Track.hasCover t = false /\ Track.getCopyright t = "" /\
    Track.getCopyrightURL t = "" /\ Track.getTrackReplayGain t = None /\
    Track.getReleaseReplayGain t = None.
Proof.
  refine (scanAudioFile_fields_round_trip Example.env0 "/music/old.flac"
            Example.st0 Example.time1 Example.infoOld
            eq_refl eq_refl eq_refl eq_refl _ _); discriminate.
Defined.

(** X6. A file that has just been cataloged is skipped by the next scan:
    when the force flag is off and nothing changes in the file, scanning it
    again leaves the catalog as it is and moves the skip counter only. *)
Theorem scanAudioFile_rescan_skips env p st lastWriteTime trackInfo :
  getLastWriteTime env p = inr lastWriteTime ->
  eval (lastWriteIsTheSame p lastWriteTime) st = false ->
  parse env (_metadataParser (self st)) p = Some trackInfo ->
  duplicateFound p trackInfo st = false ->
  MetaData.Track.audioStreams trackInfo <> [] ->
  MetaData.Track.duration trackInfo <> 0%Z ->
  forceScan (context st) = false ->
  let st1 := exec (scanAudioFile env p) st in
  let st2 := exec (scanAudioFile env p) st1 in
  let s1 := stats (context st1) in
  db st2 = db st1 /\
  stats (context st2) =
    {| filesScanned := filesScanned s1; skips := incr (skips s1);
       scans := scans s1; additions := additions s1; updates := updates s1;
       deletions := deletions s1; errors := errors s1 |}.
Proof.
  intros Hlwt Hsame Hparse Hdup Hstreams Hduration Hforce st1 st2 s1.
  destruct (findTrackByPath_after_upsert env p st lastWriteTime trackInfo
              Hlwt Hsame Hparse Hdup Hstreams Hduration)
    as (release & clusters & t1 & Hid & Hpath & Hfind).
  fold st1 in Hfind.
  destruct (keepsFrame_scanAudioFile env p st) as (Hself & _ & _ & _ & Hf & _).
  fold st1 in Hself, Hf.
  assert (Hsame1 : eval (lastWriteIsTheSame p lastWriteTime) st1 = true).
  { unfold eval. rewrite lastWriteIsTheSame_run. cbn [fst].
    rewrite Hf, Hforce, Hfind, Hself. cbn [negb andb].
    unfold writtenTrack. destruct t1.
    destruct (negb (isValid _) && _); cbn;
      now rewrite Z.eqb_refl, N.eqb_refl. }
  subst st2 s1.
  change (exec (scanAudioFile env p) st1) with (snd (scanAudioFile env p st1)).
  rewrite (scanAudioFile_same env p st1 _ Hlwt Hsame1).
  clearbody st1. cbn. split; [reflexivity|].
  destruct (stats (context st1)); reflexivity.
Qed.

Lemma scanAudioFile_rescan_skips_witness :
  let st1 := exec (scanAudioFile Example.env0 "/music/old.flac") Example.st0 in
  let st2 := exec (scanAudioFile Example.env0 "/music/old.flac") st1 in
  db st2 = db st1 /\
  stats (context st2) =
    {| filesScanned := filesScanned (stats (context st1));
       skips := incr (skips (stats (context st1)));
       scans := scans (stats (context st1));
       additions := additions (stats (context st1));
       updates := updates (stats (context st1));
       deletions := deletions (stats (context st1));
       errors := errors (stats (context st1)) |}.
Proof.
  refine (scanAudioFile_rescan_skips Example.env0 "/music/old.flac" Example.st0
            Example.time1 Example.infoOld
            eq_refl eq_refl eq_refl eq_refl _ _ eq_refl); discriminate.
Defined.

Lemma filter_filter_same {A} (f : A -> bool) (l : list A) :
  filter f (filter f l) = filter f l.
Proof.
  induction l as [|x l IH]; [reflexivity|].
  cbn [filter]. destruct (f x) eqn:E; [|exact IH].
  cbn [filter]. now rewrite E, IH.
Qed.

Lemma tracks_withoutTrack p s :
  let tid := upsertedTrackId p s in
  filter (fun t => negb (Track.getId t =? tid))
    (Session.tracks (withoutTrack (eval (findTrackByPath p) s) s))
  = filter (fun t => negb (Track.getId t =? tid)) (Session.tracks s).
Proof.
  cbn zeta. unfold upsertedTrackId.
  destruct (eval (findTrackByPath p) s) as [t|]; [|reflexivity].
  destruct s; cbn. apply filter_filter_same.
Qed.

Lemma scanAudioFile_unparsable_file_db env p st lastWriteTime :
  getLastWriteTime env p = inr lastWriteTime ->
  eval (lastWriteIsTheSame p lastWriteTime) st = false ->
  parse env (_metadataParser (self st)) p = None ->
  db (exec (scanAudioFile env p) st) = db st /\
  self (exec (scanAudioFile env p) st) = self st.
Proof.
  intros Hlwt Hsame Hparse. unfold exec, scanAudioFile.
  rewrite Hlwt, bind_unfold. unfold eval in Hsame. rewrite Hsame.
  rewrite lastWriteIsTheSame_run. cbn [snd]. rewrite bind_gets, Hparse.
  split; reflexivity.
Qed.

(** X7. Scanning a file leaves the other tracks alone: whatever the
    outcome, the tracks whose identifier is not the one of the track at the
    path (or the one that a created track receives) are the same after the
    scan as before, in the same order. *)
Theorem scanAudioFile_other_tracks_untouched env p st :
  let tid := upsertedTrackId p (db st) in
  filter (fun t => negb (Track.getId t =? tid))
    (Session.tracks (db (exec (scanAudioFile env p) st)))
  = filter (fun t => negb (Track.getId t =? tid)) (Session.tracks (db st)).
Proof.
  cbn zeta.
  destruct (getLastWriteTime env p) as [e|lastWriteTime] eqn:Hlwt.
  { unfold exec. now rewrite (scanAudioFile_not_readable env p st e Hlwt). }
  destruct (eval (lastWriteIsTheSame p lastWriteTime) st) eqn:Hsame.
  { unfold exec. now rewrite (scanAudioFile_same env p st _ Hlwt Hsame). }
  destruct (parse env (_metadataParser (self st)) p) as [trackInfo|] eqn:Hparse.
  2: { destruct (scanAudioFile_unparsable_file_db env p st _ Hlwt Hsame Hparse)
         as [Hdb _]. now rewrite Hdb. }
  unfold exec. rewrite (scanAudioFile_parsed env p st _ _ Hlwt Hsame Hparse).
  rewrite scanParsedFile_run. cbn zeta.
  set (st1 := with_context (with_stats (with_scans incr)) st).
  assert (Hremove : forall m : M St unit,
            db (snd (m st1)) = withoutTrack (eval (findTrackByPath p) (db st)) (db st) ->
            filter (fun t => negb (Track.getId t =? upsertedTrackId p (db st)))
              (Session.tracks (db (snd (m st1))))
            = filter (fun t => negb (Track.getId t =? upsertedTrackId p (db st)))
                (Session.tracks (db st))).
  { intros m Hm. rewrite Hm. apply tracks_withoutTrack. }
  destruct (duplicateFound p trackInfo st).
  { apply Hremove. now rewrite removeIfExists_run. }
  destruct (MetaData.Track.audioStreams trackInfo).
  { apply Hremove. unfold invalidAudio. now rewrite bind_unfold, removeIfExists_run. }
  destruct (MetaData.Track.duration trackInfo =? 0)%Z.
  { apply Hremove. unfold invalidAudio. now rewrite bind_unfold, removeIfExists_run. }
  destruct (upsertTrack_tracks env p lastWriteTime trackInfo st st1 eq_refl)
    as (release & clusters & Htracks & Hid & _).
  cbn zeta in Htracks. unfold exec in Htracks. rewrite Htracks.
  set (tid := upsertedTrackId p (db st)) in *.
  set (W := writtenTrack _ _ _ _ _ release clusters) in *.
  assert (Hmap : forall ts,
            filter (fun t => negb (Track.getId t =? tid))
              (map (fun t => if Track.getId t =? tid then W t else t) ts)
            = filter (fun t => negb (Track.getId t =? tid)) ts).
  { intros ts. induction ts as [|t ts IH]; [reflexivity|]. cbn [map filter].
    destruct (Track.getId t =? tid) eqn:E.
    - rewrite Hid, E. cbn [negb]. exact IH.
    - rewrite E. cbn [negb]. now rewrite IH. }
  rewrite Hmap, filter_app.
  destruct (isSome _); cbn [filter]; [now rewrite app_nil_r|].
  cbn [Track.create Track.getId]. rewrite N.eqb_refl. cbn [negb].
  now rewrite app_nil_r.
Qed.

(** *** The tables that each operation writes *)

Ltac preserves_step :=
  match goal with
  | |- preserves _ (bind _ _) => apply preserves_bind; [|intros ?]
  | |- preserves _ (ret _) => apply preserves_ret
  | |- preserves _ (gets _) => apply preserves_gets
  | H : ignores ?proj ?w |- preserves ?proj (modify (?w _)) =>
      apply preserves_modify; intros ?; apply H
  | |- preserves _ (forEach _ _) => apply preserves_forEach; intros ?
  | |- preserves _ (match ?x with _ => _ end) => destruct x
  | H : preserves ?proj ?m |- preserves ?proj ?m => exact H
  end.

Section Footprints.

Context {X : Type} (proj : Session.t -> X).

Lemma preserves_freshId :
  ignores proj Session.with_nextId -> preserves proj freshId.
Proof. intros Hn. unfold freshId. repeat preserves_step. Qed.

Lemma preserves_createArtist artistInfo :
  ignores proj Session.with_artists -> ignores proj Session.with_nextId ->
  preserves proj (createArtist artistInfo).
Proof.
  intros Ha Hn. pose proof (preserves_freshId Hn) as Hfresh.
  unfold createArtist, createArtistObject, modifyArtist. repeat preserves_step.
Qed.

Lemma preserves_updateArtistIfNeeded artist artistInfo :
  ignores proj Session.with_artists ->
  preserves proj (updateArtistIfNeeded artist artistInfo).
Proof.
  intros Ha. unfold updateArtistIfNeeded, modifyArtist. repeat preserves_step.
Qed.

Lemma preserves_getOrCreateArtist artistInfo allow :
  ignores proj Session.with_artists -> ignores proj Session.with_nextId ->
  preserves proj (getOrCreateArtist artistInfo allow).
Proof.
  intros Ha Hn.
  pose proof (preserves_createArtist artistInfo Ha Hn) as Hcreate.
  assert (Hupdate := fun a => preserves_updateArtistIfNeeded a artistInfo Ha).
  unfold getOrCreateArtist, findArtistByMBID, findArtistsByName.
  repeat first [ apply Hupdate | preserves_step ].
Qed.

Lemma preserves_getOrCreateArtists artistsInfo allow :
  ignores proj Session.with_artists -> ignores proj Session.with_nextId ->
  preserves proj (getOrCreateArtists artistsInfo allow).
Proof.
  intros Ha Hn. induction artistsInfo as [|a rest IH]; cbn [getOrCreateArtists].
  - apply preserves_ret.
  - pose proof (preserves_getOrCreateArtist a allow Ha Hn) as Hone.
    repeat preserves_step.
Qed.

Lemma preserves_getOrCreateRelease album :
  ignores proj Session.with_releases -> ignores proj Session.with_nextId ->
  preserves proj (getOrCreateRelease album).
Proof.
  intros Hr Hn. pose proof (preserves_freshId Hn) as Hfresh.
  unfold getOrCreateRelease, findReleaseByMBID, findReleasesByName,
    createReleaseObject, modifyRelease.
  repeat preserves_step.
Qed.

Lemma preserves_getOrCreateClustersOfType ct names :
  ignores proj Session.with_clusters -> ignores proj Session.with_nextId ->
  preserves proj (getOrCreateClustersOfType ct names).
Proof.
  intros Hc Hn. pose proof (preserves_freshId Hn) as Hfresh.
  induction names as [|n rest IH]; cbn [getOrCreateClustersOfType].
  - apply preserves_ret.
  - unfold getCluster, createClusterObject. repeat preserves_step.
Qed.

Lemma preserves_getOrCreateClusters clustersNames :
  ignores proj Session.with_clusters -> ignores proj Session.with_nextId ->
  preserves proj (getOrCreateClusters clustersNames).
Proof.
  intros Hc Hn. induction clustersNames as [|c rest IH]; cbn [getOrCreateClusters].
  - apply preserves_ret.
  - assert (Hty := fun ct => preserves_getOrCreateClustersOfType ct (snd c) Hc Hn).
    unfold findClusterType. repeat first [ apply Hty | preserves_step ].
Qed.

Lemma preserves_addArtistLink track artist ty role :
  ignores proj Session.with_trackArtistLinks -> ignores proj Session.with_nextId ->
  preserves proj (addArtistLink track artist ty role).
Proof.
  intros Hl Hn. pose proof (preserves_freshId Hn) as Hfresh.
  unfold addArtistLink. repeat preserves_step.
Qed.

Lemma preserves_modifyTrack p f :
  ignores proj Session.with_tracks -> preserves proj (modifyTrack p f).
Proof. intros Ht. unfold modifyTrack. repeat preserves_step. Qed.

Lemma preserves_createTrackObject p :
  ignores proj Session.with_tracks -> ignores proj Session.with_nextId ->
  preserves proj (createTrackObject p).
Proof.
  intros Ht Hn. pose proof (preserves_freshId Hn) as Hfresh.
  unfold createTrackObject. repeat preserves_step.
Qed.

Lemma preserves_removeTrack p :
  ignores proj Session.with_tracks -> ignores proj Session.with_trackArtistLinks ->
  preserves proj (removeTrack p).
Proof. intros Ht Hl. unfold removeTrack. repeat preserves_step. Qed.

Lemma preserves_rebuildArtistLinks track trackInfo :
  ignores proj Session.with_artists ->
  ignores proj Session.with_trackArtistLinks ->
  ignores proj Session.with_nextId ->
  preserves proj (rebuildArtistLinks track trackInfo).
Proof.
  intros Ha Hl Hn.
  assert (Hres := fun infos allow => preserves_getOrCreateArtists infos allow Ha Hn).
  assert (Hadd := fun artist ty role =>
                    preserves_addArtistLink track artist ty role Hl Hn).
  unfold rebuildArtistLinks, clearArtistLinks.
  repeat first [ apply Hres | apply Hadd | preserves_step ].
Qed.

Lemma preserves_updateTrackData settings track trackInfo lastWriteTime title now :
  ignores proj Session.with_releases ->
  ignores proj Session.with_clusters ->
  ignores proj Session.with_tracks ->
  ignores proj Session.with_trackFeatures ->
  ignores proj Session.with_nextId ->
  preserves proj (updateTrackData settings track trackInfo lastWriteTime title now).
Proof.
  intros Hr Hc Ht Hf Hn.
  assert (Hrel := fun album => preserves_getOrCreateRelease album Hr Hn).
  assert (Hclu := preserves_getOrCreateClusters
                    (MetaData.Track.clusters trackInfo) Hc Hn).
  assert (Hmod := fun f => preserves_modifyTrack track f Ht).
  unfold updateTrackData, findTrackFeatures, removeTrackFeatures.
  repeat first [ apply Hrel | apply Hmod | preserves_step ].
Qed.

End Footprints.

(** X8. Each resolver writes its own table only (and takes fresh
    identifiers): the artist resolution leaves releases, cluster types,
    clusters, tracks, artist links and track features as they are; the
    release resolution leaves artists, cluster types, clusters, tracks,
    links and features as they are; the cluster resolution leaves artists,
    releases, cluster types, tracks, links and features as they are. *)
Theorem resolvers_footprint artistsInfo allow album clustersNames s :
  (let s' := exec (getOrCreateArtists artistsInfo allow) s in
   Session.releases s' = Session.releases s /\
   Session.clusterTypes s' = Session.clusterTypes s /\
   Session.clusters s' = Session.clusters s /\
   Session.tracks s' = Session.tracks s /\
   Session.trackArtistLinks s' = Session.trackArtistLinks s /\
   Session.trackFeatures s' = Session.trackFeatures s) /\
  (let s' := exec (getOrCreateRelease album) s in
   Session.artists s' = Session.artists s /\
   Session.clusterTypes s' = Session.clusterTypes s /\
   Session.clusters s' = Session.clusters s /\
   Session.tracks s' = Session.tracks s /\
   Session.trackArtistLinks s' = Session.trackArtistLinks s /\
   Session.trackFeatures s' = Session.trackFeatures s) /\
  (let s' := exec (getOrCreateClusters clustersNames) s in
   Session.artists s' = Session.artists s /\
   Session.releases s' = Session.releases s /\
   Session.clusterTypes s' = Session.clusterTypes s /\
   Session.tracks s' = Session.tracks s /\
   Session.trackArtistLinks s' = Session.trackArtistLinks s /\
   Session.trackFeatures s' = Session.trackFeatures s).
Proof.
  cbn zeta. split; [|split].
  - repeat split; apply preserves_getOrCreateArtists; intros f []; reflexivity.
  - repeat split; apply preserves_getOrCreateRelease; intros f []; reflexivity.
  - repeat split; apply preserves_getOrCreateClusters; intros f []; reflexivity.
Qed.

(** *** What a scan never touches *)

Lemma preserves_db_liftDb {A X} (g : Session.t -> X) (m : DbM A) :
  preserves g m -> preserves (fun st => g (db st)) (liftDb m).
Proof. intros Hm st. rewrite db_liftDb. apply Hm. Qed.

Lemma preserves_db_modifyStats {X} (g : Session.t -> X) f :
  preserves (fun st => g (db st)) (modifyStats f).
Proof. intros st. reflexivity. Qed.

Section ScanFootprint.

Context {X : Type} (g : Session.t -> X).
Hypothesis g_artists : ignores g Session.with_artists.
Hypothesis g_releases : ignores g Session.with_releases.
Hypothesis g_clusters : ignores g Session.with_clusters.
Hypothesis g_tracks : ignores g Session.with_tracks.
Hypothesis g_links : ignores g Session.with_trackArtistLinks.
Hypothesis g_features : ignores g Session.with_trackFeatures.
Hypothesis g_nextId : ignores g Session.with_nextId.

Let G (st : St) : X := g (db st).

Lemma preserves_db_removeIfExists track : preserves G (removeIfExists track).
Proof.
  unfold removeIfExists. destruct track as [t|]; [|apply preserves_ret].
  apply preserves_bind; [|intros _; apply preserves_db_modifyStats].
  apply preserves_db_liftDb, preserves_removeTrack; assumption.
Qed.

Lemma preserves_db_upsertTrack env p lastWriteTime trackInfo track :
  preserves G (upsertTrack env p lastWriteTime trackInfo track).
Proof.
  unfold upsertTrack.
  apply preserves_bind.
  { destruct track as [t|].
    - apply preserves_bind; [apply preserves_db_modifyStats|intros _].
      apply preserves_ret.
    - apply preserves_bind;
        [apply preserves_db_liftDb, preserves_createTrackObject; assumption
        |intros t].
      apply preserves_bind; [apply preserves_db_modifyStats|intros _].
      apply preserves_ret. }
  intros tid. apply preserves_bind.
  { apply preserves_db_liftDb, preserves_rebuildArtistLinks; assumption. }
  intros _. apply preserves_bind; [apply preserves_gets|intros settings].
  apply preserves_db_liftDb, preserves_updateTrackData; assumption.
Qed.

Lemma preserves_db_scanAudioFile env p : preserves G (scanAudioFile env p).
Proof.
  intros st. unfold exec.
  destruct (getLastWriteTime env p) as [e|lastWriteTime] eqn:Hlwt.
  { now rewrite (scanAudioFile_not_readable env p st e Hlwt). }
  destruct (eval (lastWriteIsTheSame p lastWriteTime) st) eqn:Hsame.
  { now rewrite (scanAudioFile_same env p st _ Hlwt Hsame). }
  destruct (parse env (_metadataParser (self st)) p) as [trackInfo|] eqn:Hparse.
  2: { destruct (scanAudioFile_unparsable_file_db env p st _ Hlwt Hsame Hparse)
         as [Hdb _]. unfold G. unfold exec in Hdb. now rewrite Hdb. }
  rewrite (scanAudioFile_parsed env p st _ _ Hlwt Hsame Hparse), scanParsedFile_run.
  cbn zeta. set (st1 := with_context (with_stats (with_scans incr)) st).
  change (G st) with (G st1).
  destruct (duplicateFound p trackInfo st).
  { apply preserves_db_removeIfExists. }
  assert (Hinv : forall ty track, preserves G (invalidAudio p ty track)).
  { intros ty track. unfold invalidAudio.
    apply preserves_bind; [apply preserves_db_removeIfExists|intros _].
    apply preserves_db_modifyStats. }
  destruct (MetaData.Track.audioStreams trackInfo); [apply Hinv|].
  destruct (MetaData.Track.duration trackInfo =? 0)%Z; [apply Hinv|].
  apply preserves_db_upsertTrack.
Qed.

Lemma preserves_db_processEntry env k entry : preserves G (processEntry env k entry).
Proof.
  unfold processEntry. destruct entry as [ec p].
  destruct (abortScan env k); [apply preserves_ret|].
  apply preserves_bind; [apply preserves_gets|intros settings].
  apply preserves_bind; [|intros _; apply preserves_ret].
  destruct (ec_is_error ec); [apply preserves_db_modifyStats|].
  destruct (hasFileAnyExtension env p _); [|apply preserves_ret].
  apply preserves_bind; [apply preserves_db_scanAudioFile|intros _].
  apply preserves_bind; [apply preserves_modify; reflexivity|intros _].
  apply preserves_bind; [apply preserves_gets|intros current].
  apply preserves_modify. reflexivity.
Qed.

Lemma preserves_db_explore env entries : forall k, preserves G (explore env k entries).
Proof.
  induction entries as [|entry rest IH]; intros k; cbn [explore].
  - apply preserves_ret.
  - apply preserves_bind; [apply preserves_db_processEntry|intros goOn].
    destruct goOn; [apply IH|apply preserves_ret].
Qed.

Lemma preserves_db_process env : preserves G (process env).
Proof.
  unfold process.
  apply preserves_bind; [apply preserves_modify; reflexivity|intros _].
  apply preserves_bind; [apply preserves_modify; reflexivity|intros _].
  apply preserves_bind; [apply preserves_gets|intros dir].
  apply preserves_db_explore.
Qed.

End ScanFootprint.

(** X9. A scan run never creates, removes or changes a cluster type: the
    table of cluster types is the same after [process] as before, and so
    it is after the scan of any single file. *)
Theorem process_keeps_cluster_types env st :
  Session.clusterTypes (db (exec (process env) st))
    = Session.clusterTypes (db st) /\
  (forall p, Session.clusterTypes (db (exec (scanAudioFile env p) st))
             = Session.clusterTypes (db st)).
Proof.
  split; [|intros p].
  - apply (preserves_db_process Session.clusterTypes);
      intros f []; reflexivity.
  - apply (preserves_db_scanAudioFile Session.clusterTypes);
      intros f []; reflexivity.
Qed.

(** *** Relations that a computation keeps *)

Section Follows.

Context {S : Type} (R : S -> S -> Prop).
Hypothesis R_refl : forall s, R s s.
Hypothesis R_trans : forall a b c, R a b -> R b c -> R a c.

Lemma follows_ret {A} (a : A) : follows R (ret a).
Proof. intros s. apply R_refl. Qed.

Lemma follows_gets {A} (f : S -> A) : follows R (gets f).
Proof. intros s. apply R_refl. Qed.

Lemma follows_bind {A B} (m : M S A) (f : A -> M S B) :
  follows R m -> (forall a, follows R (f a)) -> follows R (bind m f).
Proof.
  intros Hm Hf s. rewrite exec_bind. eapply R_trans; [apply Hm|apply Hf].
Qed.

Lemma follows_forEach {A} (xs : list A) (body : A -> M S unit) :
  (forall x, follows R (body x)) -> follows R (forEach xs body).
Proof.
  intros Hbody. induction xs as [|x xs IH]; cbn [forEach].
  - apply follows_ret.
  - apply follows_bind; [apply Hbody|intros _; exact IH].
Qed.

End Follows.

(** *** The artist links of a track *)

Lemma linksAdded_refl tid s : linksAdded tid s s.
Proof.
  split; [apply N.le_refl|]. exists []. split; [now rewrite app_nil_r|constructor].
Qed.

Lemma linksAdded_trans tid a b c :
  linksAdded tid a b -> linksAdded tid b c -> linksAdded tid a c.
Proof.
  intros (Hn1 & l1 & Hl1 & Hf1) (Hn2 & l2 & Hl2 & Hf2). split.
  - eapply N.le_trans; eassumption.
  - exists (l1 ++ l2). split; [now rewrite Hl2, Hl1, app_assoc|].
    apply Forall_app. split; [exact Hf1|].
    eapply Forall_impl; [|exact Hf2]. intros l [Ht Hi]. split; [exact Ht|].
    eapply N.le_trans; eassumption.
Qed.

Lemma linksAdded_of_preserved {A} tid (m : DbM A) :
  preserves Session.trackArtistLinks m ->
  follows (fun s s' => Session.nextId s <= Session.nextId s') m ->
  follows (linksAdded tid) m.
Proof.
  intros Hl Hn s. split; [apply Hn|]. exists [].
  split; [now rewrite Hl, app_nil_r|constructor].
Qed.

Ltac nextId_step :=
  match goal with
  | |- follows _ (bind _ _) =>
      apply follows_bind; [intros ? ? ?; apply N.le_trans| |intros ?]
  | |- follows _ (ret _) => apply follows_ret; intros ?; apply N.le_refl
  | |- follows _ (gets _) => apply follows_gets; intros ?; apply N.le_refl
  | |- follows _ (modify (Session.with_nextId N.succ)) =>
      intros []; apply N.le_succ_diag_r
  | |- follows _ (modify _) => intros []; apply N.le_refl
  | |- follows _ (match ?x with _ => _ end) => destruct x
  | H : follows ?R ?m |- follows ?R ?m => exact H
  end.

Lemma nextId_getOrCreateArtists artistsInfo allow :
  follows (fun s s' => Session.nextId s <= Session.nextId s')
    (getOrCreateArtists artistsInfo allow).
Proof.
  induction artistsInfo as [|a rest IH]; cbn [getOrCreateArtists].
  - nextId_step.
  - unfold getOrCreateArtist, findArtistByMBID, findArtistsByName, createArtist,
      updateArtistIfNeeded, createArtistObject, modifyArtist, freshId.
    repeat nextId_step.
Qed.

Lemma linksAdded_addArtistLink tid artist ty role :
  follows (linksAdded tid) (addArtistLink tid artist ty role).
Proof.
  intros []. split; [apply N.le_succ_diag_r|].
  eexists. split; [reflexivity|]. constructor; [|constructor].
  split; [reflexivity|apply N.le_refl].
Qed.

Lemma rebuildArtistLinks_links tid trackInfo s :
  exists added,
    Session.trackArtistLinks (exec (rebuildArtistLinks tid trackInfo) s)
    = filter (fun l => negb (TrackArtistLink.getTrack l =? tid))
        (Session.trackArtistLinks s) ++ added /\
    Forall (fun l => TrackArtistLink.getTrack l = tid
                     /\ Session.nextId s <= TrackArtistLink.getId l) added.
Proof.
  unfold rebuildArtistLinks. rewrite exec_bind.
  set (s1 := exec (clearArtistLinks tid) s).
  assert (Hs1 : Session.trackArtistLinks s1
                = filter (fun l => negb (TrackArtistLink.getTrack l =? tid))
                    (Session.trackArtistLinks s)
                /\ Session.nextId s1 = Session.nextId s).
  { subst s1. destruct s. split; reflexivity. }
  destruct Hs1 as [Hl1 Hn1]. rewrite <- Hl1, <- Hn1.
  assert (Hres := fun infos allow =>
    linksAdded_of_preserved tid (getOrCreateArtists infos allow)
      (preserves_getOrCreateArtists Session.trackArtistLinks infos allow
         ltac:(intros f []; reflexivity) ltac:(intros f []; reflexivity))
      (nextId_getOrCreateArtists infos allow)).
  assert (Hadd := fun ty role artist => linksAdded_addArtistLink tid artist ty role).
  assert (Hrest : forall m : DbM unit, follows (linksAdded tid) m ->
            exists added,
              Session.trackArtistLinks (exec m s1)
              = Session.trackArtistLinks s1 ++ added /\
              Forall (fun l => TrackArtistLink.getTrack l = tid
                               /\ Session.nextId s1 <= TrackArtistLink.getId l)
                added).
  { intros m Hm. exact (proj2 (Hm s1)). }
  apply Hrest.
  repeat first
    [ apply Hres
    | apply Hadd
    | apply follows_forEach;
        [apply linksAdded_refl|apply linksAdded_trans|intros ?]
    | apply follows_bind;
        [apply linksAdded_trans| |intros ?] ].
Qed.

Lemma db_upsertTrack env p lastWriteTime trackInfo track st :
  let tid := match track with
             | Some t => Track.getId t
             | None => Session.nextId (db st)
             end in
  let s0 := match track with
            | Some _ => db st
            | None => exec (createTrackObject p) (db st)
            end in
  db (exec (upsertTrack env p lastWriteTime trackInfo track) st) =
  exec (updateTrackData (_settings (self st)) tid trackInfo lastWriteTime
          (trackTitle env p trackInfo) (currentDateTime env p))
    (exec (rebuildArtistLinks tid trackInfo) s0).
Proof.
  cbn zeta. unfold upsertTrack. fold (trackTitle env p trackInfo).
  destruct track as [t|].
  - rewrite !exec_bind, !eval_bind, !eval_ret, !exec_ret, !exec_gets, !eval_gets.
    repeat (rewrite db_liftDb || rewrite db_modifyStats
            || rewrite self_liftDb || rewrite self_modifyStats).
    reflexivity.
  - rewrite !exec_bind, !eval_bind, !eval_ret, !exec_ret, !exec_gets, !eval_gets,
      !liftDb_eval.
    repeat (rewrite db_liftDb || rewrite db_modifyStats
            || rewrite self_liftDb || rewrite self_modifyStats).
    assert (Hid : eval (createTrackObject p) (db st) = Session.nextId (db st)).
    { destruct (db st); reflexivity. }
    now rewrite Hid.
Qed.

Lemma upsertTrack_links env p lastWriteTime trackInfo st st1 :
  db st1 = db st ->
  let tid := upsertedTrackId p (db st) in
  exists added,
    Session.trackArtistLinks
      (db (exec (upsertTrack env p lastWriteTime trackInfo
                   (eval (findTrackByPath p) (db st))) st1))
    = filter (fun l => negb (TrackArtistLink.getTrack l =? tid))
        (Session.trackArtistLinks (db st)) ++ added /\
    Forall (fun l => TrackArtistLink.getTrack l = tid
                     /\ Session.nextId (db st) <= TrackArtistLink.getId l) added.
Proof.
  intros Hdb tid. subst tid. rewrite db_upsertTrack. cbn zeta.
  rewrite (preserves_updateTrackData Session.trackArtistLinks);
    try (intros f []; reflexivity).
  unfold upsertedTrackId. rewrite Hdb.
  destruct (eval (findTrackByPath p) (db st)) as [t|].
  - apply rebuildArtistLinks_links.
  - destruct (rebuildArtistLinks_links (Session.nextId (db st)) trackInfo
                (exec (createTrackObject p) (db st))) as (added & Hl & Hf).
    exists added. rewrite Hl. split.
    + now destruct (db st).
    + eapply Forall_impl; [|exact Hf]. intros l [Ht Hi]. split; [exact Ht|].
      eapply N.le_trans; [|exact Hi]. destruct (db st). cbn.
      apply N.le_succ_diag_r.
Qed.

Lemma filter_none {A} (f : A -> bool) (l : list A) :
  Forall (fun x => f x = false) l -> filter f l = [].
Proof.
  induction 1 as [|x l Hx _ IH]; [reflexivity|]. cbn [filter]. now rewrite Hx.
Qed.

Lemma links_withoutTrack p s :
  let tid := upsertedTrackId p s in
  filter (fun l => negb (TrackArtistLink.getTrack l =? tid))
    (Session.trackArtistLinks (withoutTrack (eval (findTrackByPath p) s) s))
  = filter (fun l => negb (TrackArtistLink.getTrack l =? tid))
      (Session.trackArtistLinks s).
Proof.
  cbn zeta. unfold upsertedTrackId.
  destruct (eval (findTrackByPath p) s) as [t|]; [|reflexivity].
  destruct s; cbn. apply filter_filter_same.
Qed.

(** X11. Scanning a file leaves the artist links of the other tracks
    alone: whatever the outcome, the links whose track is not the one at
    the path (or the one that a created track receives) are the same after
    the scan as before, in the same order. *)
Theorem scanAudioFile_other_links_untouched env p st :
  let tid := upsertedTrackId p (db st) in
  filter (fun l => negb (TrackArtistLink.getTrack l =? tid))
    (Session.trackArtistLinks (db (exec (scanAudioFile env p) st)))
  = filter (fun l => negb (TrackArtistLink.getTrack l =? tid))
      (Session.trackArtistLinks (db st)).
Proof.
  cbn zeta.
  destruct (getLastWriteTime env p) as [e|lastWriteTime] eqn:Hlwt.
  { unfold exec. now rewrite (scanAudioFile_not_readable env p st e Hlwt). }
  destruct (eval (lastWriteIsTheSame p lastWriteTime) st) eqn:Hsame.
  { unfold exec. now rewrite (scanAudioFile_same env p st _ Hlwt Hsame). }
  destruct (parse env (_metadataParser (self st)) p) as [trackInfo|] eqn:Hparse.
  2: { destruct (scanAudioFile_unparsable_file_db env p st _ Hlwt Hsame Hparse)
         as [Hdb _]. now rewrite Hdb. }
  unfold exec. rewrite (scanAudioFile_parsed env p st _ _ Hlwt Hsame Hparse).
  rewrite scanParsedFile_run. cbn zeta.
  set (st1 := with_context (with_stats (with_scans incr)) st).
  set (tid := upsertedTrackId p (db st)).
  assert (Hremove : forall m : M St unit,
            db (snd (m st1)) = withoutTrack (eval (findTrackByPath p) (db st)) (db st) ->
            filter (fun l => negb (TrackArtistLink.getTrack l =? tid))
              (Session.trackArtistLinks (db (snd (m st1))))
            = filter (fun l => negb (TrackArtistLink.getTrack l =? tid))
                (Session.trackArtistLinks (db st))).
  { intros m Hm. rewrite Hm. apply links_withoutTrack. }
  destruct (duplicateFound p trackInfo st).
  { apply Hremove. now rewrite removeIfExists_run. }
  destruct (MetaData.Track.audioStreams trackInfo).
  { apply Hremove. unfold invalidAudio. now rewrite bind_unfold, removeIfExists_run. }
  destruct (MetaData.Track.duration trackInfo =? 0)%Z.
  { apply Hremove. unfold invalidAudio. now rewrite bind_unfold, removeIfExists_run. }
  destruct (upsertTrack_links env p lastWriteTime trackInfo st st1 eq_refl)
    as (added & Hl & Hf).
  cbn zeta in Hl. unfold exec in Hl. fold tid in Hl, Hf. rewrite Hl.
  rewrite filter_app, filter_filter_same, (filter_none _ added), app_nil_r;
    [reflexivity|].
  eapply Forall_impl; [|exact Hf]. intros lk [Ht _]. cbv beta.
  now rewrite Ht, N.eqb_refl.
Qed.

Lemma scanAudioFile_force_never_skips_witness :
  skips (stats (context (exec (scanAudioFile Example.env0 "/music/a.flac")
                           Cases.stForce))) = 0.
Proof.
  exact (scanAudioFile_force_never_skips Example.env0 "/music/a.flac"
           Cases.stForce Example.time0 eq_refl eq_refl).
Defined.

Lemma scanAudioFile_upsert_stats_witness :
  stats (context (exec (scanAudioFile Example.env0 "/music/old.flac") Example.st0))
  = {| filesScanned := 1; skips := 0; scans := 1; additions := 1; updates := 0;
       deletions := 0; errors := [] |}.
Proof.
  refine (scanAudioFile_upsert_stats Example.env0 "/music/old.flac" Example.st0
            Example.time1 Example.infoOld eq_refl eq_refl eq_refl eq_refl _ _);
    discriminate.
Defined.

(** *** Release resolution *)

Lemma getOrCreateRelease_by_MBID_run album mbid s :
  MetaData.Album.musicBrainzAlbumID album = Some mbid ->
  getOrCreateRelease album s =
  match eval (findReleaseByMBID mbid) s with
  | Some release =>
      (Some (Release.getId release),
       if String.eqb (Release.getName release) (MetaData.Album.name album)
       then s
       else Session.with_releases
              (map (fun r => if Release.getId r =? Release.getId release
                             then Release.setName (MetaData.Album.name album) r
                             else r)) s)
  | None =>
      (Some (Session.nextId s),
       Session.with_releases (fun l => l ++
         [ {| Release.getId := Session.nextId s;
              Release.getName := MetaData.Album.name album;
              Release.getMBID := Some mbid |} ])
         (Session.with_nextId N.succ s))
  end.
Proof.
  intros Hmbid. unfold getOrCreateRelease. rewrite Hmbid.
  unfold findReleaseByMBID, eval. rewrite bind_gets. cbn [gets fst].
  destruct (find _ _) as [release|].
  - destruct (String.eqb (Release.getName release) (MetaData.Album.name album));
      reflexivity.
  - destruct s; reflexivity.
Qed.

(** X12. A parsed album with an MBID is looked up by this MBID.  When a
    release is found it is the result, no release is created, its stored
    name becomes the parsed name, and the releases with another identifier
    are untouched.  When none is found, a release is created with the
    parsed name and the MBID, and nothing else changes. *)
Theorem getOrCreateRelease_by_MBID album mbid s :
  MetaData.Album.musicBrainzAlbumID album = Some mbid ->
  let result := eval (getOrCreateRelease album) s in
  let s' := exec (getOrCreateRelease album) s in
  match eval (findReleaseByMBID mbid) s with
  | Some release =>
      result = Some (Release.getId release) /\
      exists g,
        s' = Session.with_releases (map g) s /\
        (forall r, Release.getId r <> Release.getId release -> g r = r) /\
        g release = {| Release.getId := Release.getId release;
                       Release.getName := MetaData.Album.name album;
                       Release.getMBID := Release.getMBID release |}
  | None =>
      result = Some (Session.nextId s) /\
      s' = Session.with_releases (fun l => l ++
             [ {| Release.getId := Session.nextId s;
                  Release.getName := MetaData.Album.name album;
                  Release.getMBID := Some mbid |} ])
             (Session.with_nextId N.succ s)
  end.
Proof.
  intros Hmbid result s'. subst result s'.
  assert (Hrun := getOrCreateRelease_by_MBID_run album mbid s Hmbid).
  destruct (eval (findReleaseByMBID mbid) s) as [release|];
    unfold eval, exec; rewrite Hrun; cbn [fst snd]; [|split; reflexivity].
  split; [reflexivity|].
  destruct (String.eqb_spec (Release.getName release) (MetaData.Album.name album))
    as [Hname|Hname].
  - exists (fun r => r). split; [|split].
    + destruct s; cbn. now rewrite map_id.
    + reflexivity.
    + rewrite <- Hname. now destruct release.
  - eexists. split; [reflexivity|]. split.
    + intros r Hr. apply N.eqb_neq in Hr. cbv beta. now rewrite Hr.
    + cbv beta. rewrite N.eqb_refl. reflexivity.
Qed.

(** X13. A parsed album without MBID and with a name is matched against
    the releases of this name, in the order of the catalog: the first of
    them that has no MBID is the result, and then the catalog is left as it
    is; a release that has an MBID is never taken; when there is no release
    of this name without MBID, a release is created with the name and no
    MBID. *)
Theorem getOrCreateRelease_by_name album s :
  MetaData.Album.musicBrainzAlbumID album = None ->
  MetaData.Album.name album <> "" ->
  let sameNamed := filter (fun r => String.eqb (Release.getName r)
                                      (MetaData.Album.name album))
                          (Session.releases s) in
  match find (fun r => negb (isSome (Release.getMBID r))) sameNamed with
  | Some release =>
      getOrCreateRelease album s = (Some (Release.getId release), s)
  | None =>
      getOrCreateRelease album s =
      (Some (Session.nextId s),
       Session.with_releases (fun l => l ++
         [ {| Release.getId := Session.nextId s;
              Release.getName := MetaData.Album.name album;
              Release.getMBID := None |} ])
         (Session.with_nextId N.succ s))
  end.
Proof.
  intros Hmbid Hname sameNamed. unfold getOrCreateRelease. rewrite Hmbid.
  destruct (String.eqb_spec (MetaData.Album.name album) "") as [E|_];
    [contradiction|]. cbn [negb].
  unfold findReleasesByName. rewrite bind_gets. fold sameNamed.
  assert (Hsel : selectSameNamedRelease sameNamed
                 = find (fun r => negb (isSome (Release.getMBID r))) sameNamed).
  { clear. induction sameNamed as [|r rest IH]; [reflexivity|].
    cbn. destruct (negb (isSome (Release.getMBID r))); [reflexivity|exact IH]. }
  rewrite Hsel. destruct (find _ sameNamed); [reflexivity|].
  destruct s; reflexivity.
Qed.

Lemma getOrCreateRelease_by_MBID_witness :
  eval (getOrCreateRelease Cases.albumRemaster) Cases.dbReleases = Some 30 /\
  exists g,
    exec (getOrCreateRelease Cases.albumRemaster) Cases.dbReleases
      = Session.with_releases (map g) Cases.dbReleases /\
    (forall r, Release.getId r <> 30 -> g r = r) /\
    g Cases.abbeyTagged =
      {| Release.getId := 30; Release.getName := "Abbey Road (Remaster)";
         Release.getMBID := Some "r-abbey" |}.
Proof.
  exact (getOrCreateRelease_by_MBID Cases.albumRemaster "r-abbey"
           Cases.dbReleases eq_refl).
Defined.

Lemma getOrCreateRelease_by_name_witness :
  getOrCreateRelease Cases.albumPlain Cases.dbReleases
  = (Some 31, Cases.dbReleases).
Proof.
  refine (getOrCreateRelease_by_name Cases.albumPlain Cases.dbReleases eq_refl _).
  discriminate.
Defined.

(** *** More on the artist resolution *)

(** A parsed artist that the resolution can place: it has an MBID or a
    name. *)
Lemma getOrCreateArtist_isSome artistInfo allow s :
  isSome (eval (getOrCreateArtist artistInfo allow) s)
  = isSome (MetaData.Artist.musicBrainzArtistID artistInfo)
    || negb (String.eqb (MetaData.Artist.name artistInfo) "").
Proof.
  unfold eval, getOrCreateArtist.
  destruct (MetaData.Artist.musicBrainzArtistID artistInfo) as [mbid|];
    cbn [isSome orb].
  - unfold findArtistByMBID. rewrite bind_gets.
    destruct (find _ _); rewrite bind_unfold; reflexivity.
  - destruct (negb (String.eqb (MetaData.Artist.name artistInfo) ""));
      [|reflexivity].
    unfold findArtistsByName. rewrite bind_gets.
    destruct (selectSameNamedArtist _ _); rewrite bind_unfold; reflexivity.
Qed.

(** X14. The artist resolution returns as many artists as there are
    parsed artists with an MBID or a name: a parsed artist with neither is
    passed over and contributes nothing. *)
Theorem getOrCreateArtists_length artistsInfo allow s :
  length (eval (getOrCreateArtists artistsInfo allow) s)
  = length (filter (fun i => isSome (MetaData.Artist.musicBrainzArtistID i)
                             || negb (String.eqb (MetaData.Artist.name i) ""))
                   artistsInfo).
Proof.
  revert s. induction artistsInfo as [|a rest IH]; intros s; [reflexivity|].
  cbn [getOrCreateArtists filter]. rewrite !eval_bind, eval_ret.
  rewrite <- (getOrCreateArtist_isSome a allow s).
  destruct (eval (getOrCreateArtist a allow) s); cbn [isSome length];
    now rewrite IH.
Qed.

Lemma findArtistByMBID_eval mbid s :
  eval (findArtistByMBID mbid) s
  = find (fun a => opt_eqb String.eqb (Artist.getMBID a) (Some mbid))
         (Session.artists s).
Proof. reflexivity. Qed.

Lemma updatedArtist_getMBID artist artistInfo x :
  Artist.getMBID (updatedArtist artist artistInfo x) = Artist.getMBID x.
Proof.
  unfold updatedArtist. destruct (negb _);
    destruct (MetaData.Artist.sortName artistInfo);
    try destruct (negb (opt_eqb _ _ _)); reflexivity.
Qed.

Lemma updatedArtist_getId artist artistInfo x :
  Artist.getId (updatedArtist artist artistInfo x) = Artist.getId x.
Proof.
  unfold updatedArtist. destruct (negb _);
    destruct (MetaData.Artist.sortName artistInfo);
    try destruct (negb (opt_eqb _ _ _)); reflexivity.
Qed.

(** The resolution of one parsed artist with an MBID, as a run. *)
Lemma getOrCreateArtists_single_by_MBID artistInfo allow s mbid :
  MetaData.Artist.musicBrainzArtistID artistInfo = Some mbid ->
  (forall x, In x (Session.artists s) -> Artist.getId x <> Session.nextId s) ->
  exists artist,
    getOrCreateArtists [artistInfo] allow s
    = ([Artist.getId artist], exec (getOrCreateArtists [artistInfo] allow) s) /\
    length (Session.artists (exec (getOrCreateArtists [artistInfo] allow) s))
    = (length (Session.artists s)
       + (if isSome (eval (findArtistByMBID mbid) s) then 0 else 1))%nat /\
    eval (findArtistByMBID mbid) (exec (getOrCreateArtists [artistInfo] allow) s)
    = Some artist /\
    Artist.getName artist = MetaData.Artist.name artistInfo.
Proof.
  intros Hmbid Hfresh.
  assert (Hrun := getOrCreateArtists_single artistInfo allow s).
  unfold eval at 1, exec in Hrun.
  rewrite (getOrCreateArtist_by_MBID_run _ allow s _ Hmbid) in Hrun.
  unfold exec at 1 2 3. rewrite Hrun. clear Hrun.
  destruct (eval (findArtistByMBID mbid) s) as [a|] eqn:Hfind; cbn [isSome].
  - rewrite getOrCreateArtist_update_run. cbn [fst snd].
    exists (updatedArtist a artistInfo a). rewrite updatedArtist_getId.
    split; [reflexivity|]. split; [|split].
    + destruct s; cbn. now rewrite length_map, Nat.add_0_r.
    + rewrite findArtistByMBID_eval in *.
      assert (Hart : forall f, Session.artists (Session.with_artists f s)
                               = f (Session.artists s)) by (intros f; now destruct s).
      rewrite Hart, find_map_same, Hfind; cbn [option_map].
      * now rewrite N.eqb_refl.
      * intros x. destruct (Artist.getId x =? Artist.getId a); [|reflexivity].
        now rewrite updatedArtist_getMBID.
    + rewrite updatedArtist_self. reflexivity.
  - rewrite (getOrCreateArtist_create_run _ _ Hfresh). cbn [fst snd].
    exists (newArtist (Session.nextId s) artistInfo).
    split; [reflexivity|]. split; [|split].
    + destruct s; cbn. now rewrite length_app.
    + rewrite findArtistByMBID_eval in *.
      assert (Hart : Session.artists
                (Session.with_artists
                   (fun l => l ++ [newArtist (Session.nextId s) artistInfo])
                   (Session.with_nextId N.succ s))
              = Session.artists s ++ [newArtist (Session.nextId s) artistInfo])
        by now destruct s.
      rewrite Hart, find_app, Hfind. cbn [find newArtist Artist.getMBID].
      now rewrite Hmbid, opt_eqb_string_refl.
    + reflexivity.
Qed.

(** X15. The MBID takes precedence over the spelling: when two parsed
    artists carry the same MBID, be their names different, the second
    resolution returns the artist of the first one and creates no artist;
    afterwards the artist with this MBID bears the name parsed last. *)
Theorem getOrCreateArtists_same_MBID info1 info2 allow1 allow2 s mbid :
  MetaData.Artist.musicBrainzArtistID info1 = Some mbid ->
  MetaData.Artist.musicBrainzArtistID info2 = Some mbid ->
  (forall x, In x (Session.artists s) -> Artist.getId x <> Session.nextId s) ->
  let s1 := exec (getOrCreateArtists [info1] allow1) s in
  let s2 := exec (getOrCreateArtists [info2] allow2) s1 in
  eval (getOrCreateArtists [info2] allow2) s1
    = eval (getOrCreateArtists [info1] allow1) s /\
  length (Session.artists s2) = length (Session.artists s1) /\
  exists artist,
    eval (findArtistByMBID mbid) s2 = Some artist /\
    eval (getOrCreateArtists [info2] allow2) s1 = [Artist.getId artist] /\
    Artist.getName artist = MetaData.Artist.name info2.
Proof.
  intros Hm1 Hm2 Hfresh s1 s2.
  destruct (getOrCreateArtists_single_by_MBID info1 allow1 s mbid Hm1 Hfresh)
    as (a1 & Hrun1 & _ & Hfind1 & _).
  fold s1 in Hrun1, Hfind1.
  assert (Hrun2 := getOrCreateArtists_single info2 allow2 s1).
  unfold eval at 1, exec in Hrun2.
  rewrite (getOrCreateArtist_by_MBID_run _ allow2 s1 _ Hm2), Hfind1,
    getOrCreateArtist_update_run in Hrun2. cbn [fst snd] in Hrun2.
  subst s2. unfold eval at 1 2 4, exec at 1 2.
  fold s1. rewrite Hrun1, Hrun2. cbn [fst snd]. split; [reflexivity|]. split.
  - destruct s1; cbn. now rewrite length_map.
  - exists (updatedArtist a1 info2 a1). split; [|split].
    + rewrite findArtistByMBID_eval in *.
      assert (Hart : forall f, Session.artists (Session.with_artists f s1)
                               = f (Session.artists s1))
        by (intros f; now destruct s1).
      rewrite Hart, find_map_same, Hfind1; cbn [option_map].
      * now rewrite N.eqb_refl.
      * intros x. destruct (Artist.getId x =? Artist.getId a1); [|reflexivity].
        now rewrite updatedArtist_getMBID.
    + now rewrite updatedArtist_getId.
    + now rewrite updatedArtist_self.
Qed.

Lemma getOrCreateArtists_same_MBID_witness :
  let s1 := exec (getOrCreateArtists [Cases.prince] false) Example.db0 in
  let s2 := exec (getOrCreateArtists [Cases.tafkap] true) s1 in
  eval (getOrCreateArtists [Cases.tafkap] true) s1
    = eval (getOrCreateArtists [Cases.prince] false) Example.db0 /\
  length (Session.artists s2) = length (Session.artists s1) /\
  exists artist,
    eval (findArtistByMBID "a-prince") s2 = Some artist /\
    eval (getOrCreateArtists [Cases.tafkap] true) s1 = [Artist.getId artist] /\
    Artist.getName artist = "The Artist".
Proof.
  refine (getOrCreateArtists_same_MBID Cases.prince Cases.tafkap false true
            Example.db0 "a-prince" eq_refl eq_refl _).
  intros x [<-|[<-|[<-|[]]]]; discriminate.
Defined.

(** *** Cluster resolution *)

Lemma clustersGrow_refl s : clustersGrow s s.
Proof. split; [reflexivity|]. exists []. now rewrite app_nil_r. Qed.

Lemma clustersGrow_trans a b c :
  clustersGrow a b -> clustersGrow b c -> clustersGrow a c.
Proof.
  intros (Ht1 & l1 & Hl1) (Ht2 & l2 & Hl2). split; [congruence|].
  exists (l1 ++ l2). now rewrite Hl2, Hl1, app_assoc.
Qed.

Lemma clustersGrow_createClusterObject ct name :
  follows clustersGrow (createClusterObject ct name).
Proof. intros []. split; [reflexivity|]. eexists. reflexivity. Qed.

Lemma clustersGrow_getOrCreateClustersOfType ct names :
  follows clustersGrow (getOrCreateClustersOfType ct names).
Proof.
  induction names as [|n rest IH]; cbn [getOrCreateClustersOfType].
  - apply follows_ret, clustersGrow_refl.
  - apply follows_bind; [apply clustersGrow_trans| |intros found].
    { apply follows_gets, clustersGrow_refl. }
    apply follows_bind; [apply clustersGrow_trans| |intros cluster].
    { destruct found; [apply follows_ret, clustersGrow_refl|].
      apply clustersGrow_createClusterObject. }
    apply follows_bind; [apply clustersGrow_trans|exact IH|intros clusters].
    apply follows_ret, clustersGrow_refl.
Qed.

Lemma clustersGrow_getOrCreateClusters clustersNames :
  follows clustersGrow (getOrCreateClusters clustersNames).
Proof.
  induction clustersNames as [|c rest IH]; cbn [getOrCreateClusters].
  - apply follows_ret, clustersGrow_refl.
  - apply follows_bind; [apply clustersGrow_trans| |intros clusterType].
    { apply follows_gets, clustersGrow_refl. }
    apply follows_bind; [apply clustersGrow_trans| |intros here].
    { destruct clusterType; [|apply follows_ret, clustersGrow_refl].
      apply clustersGrow_getOrCreateClustersOfType. }
    apply follows_bind; [apply clustersGrow_trans|exact IH|intros clusters].
    apply follows_ret, clustersGrow_refl.
Qed.

Lemma getCluster_eval ct name s :
  eval (getCluster ct name) s
  = find (fun c => (Cluster.getType c =? ClusterType.getId ct)
                   && String.eqb (Cluster.getName c) name)
         (Session.clusters s).
Proof. reflexivity. Qed.

(** A cluster that is found stays the one found when the table grows. *)
Lemma getCluster_stable ct name s s' c :
  clustersGrow s s' ->
  eval (getCluster ct name) s = Some c ->
  eval (getCluster ct name) s' = Some c.
Proof.
  intros (_ & added & Hl) Hfind. rewrite getCluster_eval in *.
  now rewrite Hl, find_app, Hfind.
Qed.

Lemma getOrCreateClustersOfType_again ct names : forall s s'',
  clustersGrow (exec (getOrCreateClustersOfType ct names) s) s'' ->
  getOrCreateClustersOfType ct names s''
  = (eval (getOrCreateClustersOfType ct names) s, s'').
Proof.
  induction names as [|n rest IH]; intros s s'' Hgrow; [reflexivity|].
  cbn [getOrCreateClustersOfType] in *.
  rewrite exec_bind in Hgrow.
  change (exec (getCluster ct n) s) with s in Hgrow.
  rewrite eval_bind. change (exec (getCluster ct n) s) with s.
  rewrite bind_unfold.
  change (fst (getCluster ct n s'')) with (eval (getCluster ct n) s'').
  change (snd (getCluster ct n s'')) with s''.
  destruct (eval (getCluster ct n) s) as [c|] eqn:Hfind.
  - rewrite exec_bind, exec_ret, eval_ret, exec_bind, exec_ret in Hgrow.
    rewrite eval_bind, eval_ret, exec_ret, eval_bind, eval_ret.
    assert (Hs : clustersGrow s s'').
    { eapply clustersGrow_trans; [|exact Hgrow].
      apply clustersGrow_getOrCreateClustersOfType. }
    rewrite (getCluster_stable ct n s s'' c Hs Hfind).
    rewrite bind_ret, bind_unfold, (IH s s'' Hgrow). reflexivity.
  - set (s1 := exec (createClusterObject ct n) s) in *.
    rewrite exec_bind, exec_bind, exec_ret in Hgrow. fold s1 in Hgrow.
    rewrite eval_bind, eval_bind, eval_ret. fold s1.
    assert (Hnew : eval (getCluster ct n) s1
                   = Some {| Cluster.getId := Session.nextId s;
                             Cluster.getType := ClusterType.getId ct;
                             Cluster.getName := n |}).
    { rewrite getCluster_eval in *. subst s1. destruct s; cbn in *.
      rewrite find_app, Hfind. cbn. now rewrite N.eqb_refl, String.eqb_refl. }
    assert (Hs1 : clustersGrow s1 s'').
    { eapply clustersGrow_trans; [|exact Hgrow].
      apply clustersGrow_getOrCreateClustersOfType. }
    rewrite (getCluster_stable ct n s1 s'' _ Hs1 Hnew).
    rewrite bind_ret, bind_unfold, (IH s1 s'' Hgrow). cbn [fst snd ret].
    assert (Hid : eval (createClusterObject ct n) s = Session.nextId s)
      by now destruct s.
    now rewrite Hid.
Qed.

Lemma findClusterType_grow name s s' :
  clustersGrow s s' ->
  eval (findClusterType name) s' = eval (findClusterType name) s.
Proof.
  intros [Ht _]. unfold eval, findClusterType, gets. cbn [fst]. now rewrite Ht.
Qed.

Lemma getOrCreateClusters_again clustersNames : forall s s'',
  clustersGrow (exec (getOrCreateClusters clustersNames) s) s'' ->
  getOrCreateClusters clustersNames s''
  = (eval (getOrCreateClusters clustersNames) s, s'').
Proof.
  induction clustersNames as [|c rest IH]; intros s s'' Hgrow; [reflexivity|].
  assert (Hgrow0 : clustersGrow s s'').
  { eapply clustersGrow_trans; [|exact Hgrow].
    apply clustersGrow_getOrCreateClusters. }
  cbn [getOrCreateClusters] in *.
  rewrite exec_bind in Hgrow.
  change (exec (findClusterType (fst c)) s) with s in Hgrow.
  rewrite eval_bind. change (exec (findClusterType (fst c)) s) with s.
  rewrite bind_unfold.
  change (fst (findClusterType (fst c) s'')) with (eval (findClusterType (fst c)) s'').
  change (snd (findClusterType (fst c) s'')) with s''.
  rewrite (findClusterType_grow (fst c) s s'' Hgrow0).
  destruct (eval (findClusterType (fst c)) s) as [ct|].
  - rewrite exec_bind, exec_bind, exec_ret in Hgrow.
    set (sa := exec (getOrCreateClustersOfType ct (snd c)) s) in *.
    assert (Hsa : clustersGrow sa s'').
    { eapply clustersGrow_trans; [|exact Hgrow].
      apply clustersGrow_getOrCreateClusters. }
    rewrite bind_unfold, (getOrCreateClustersOfType_again ct (snd c) s s'' Hsa).
    cbn [fst snd]. rewrite bind_unfold, (IH sa s'' Hgrow).
    rewrite !eval_bind, eval_ret. reflexivity.
  - rewrite exec_bind, exec_ret, exec_bind, exec_ret in Hgrow.
    rewrite bind_ret, bind_unfold, (IH s s'' Hgrow).
    rewrite !eval_bind, !eval_ret, exec_ret. reflexivity.
Qed.

(** X16. The cluster resolution settles: run again on the catalog that
    it has produced, with the same names, it returns the same clusters and
    leaves the catalog exactly as it is (it creates nothing). *)
Theorem getOrCreateClusters_idempotent clustersNames s :
  let s' := exec (getOrCreateClusters clustersNames) s in
  getOrCreateClusters clustersNames s'
  = (eval (getOrCreateClusters clustersNames) s, s').
Proof.
  cbn zeta. apply getOrCreateClusters_again, clustersGrow_refl.
Qed.

(** X17. Names given under a cluster type that the catalog does not have
    are dropped: the resolution does exactly what it does for the list
    without these entries (same clusters returned, same catalog). *)
Theorem getOrCreateClusters_unknown_types_dropped clustersNames s :
  getOrCreateClusters clustersNames s
  = getOrCreateClusters
      (filter (fun c => isSome (eval (findClusterType (fst c)) s)) clustersNames) s.
Proof.
  revert s. induction clustersNames as [|c rest IH]; intros s; [reflexivity|].
  assert (Hfilter : forall s',
            clustersGrow s s' ->
            filter (fun c0 => isSome (eval (findClusterType (fst c0)) s')) rest
            = filter (fun c0 => isSome (eval (findClusterType (fst c0)) s)) rest).
  { intros s' Hs'. apply filter_ext. intros c0.
    now rewrite (findClusterType_grow (fst c0) s s' Hs'). }
  cbn [filter]. 
  destruct (eval (findClusterType (fst c)) s) as [ct|] eqn:Hct; cbn [isSome].
  - cbn [getOrCreateClusters]. rewrite !bind_unfold.
    change (fst (findClusterType (fst c) s)) with (eval (findClusterType (fst c)) s).
    change (snd (findClusterType (fst c) s)) with s.
    rewrite Hct.
    set (sa := snd (getOrCreateClustersOfType ct (snd c) s)).
    rewrite (IH sa), Hfilter; [reflexivity|].
    apply clustersGrow_getOrCreateClustersOfType.
  - cbn [getOrCreateClusters]. rewrite bind_unfold.
    change (fst (findClusterType (fst c) s)) with (eval (findClusterType (fst c)) s).
    change (snd (findClusterType (fst c) s)) with s.
    rewrite Hct, bind_ret, bind_unfold. cbn [app ret fst snd].
    rewrite <- IH. now destruct (getOrCreateClusters rest s).
Qed.

(** *** The run over a directory *)

Lemma explore_visitedEntries env entries : forall k st,
  explore env k entries st = explore env k (visitedEntries env k entries) st.
Proof.
  induction entries as [|[ec p] rest IH]; intros k st; [reflexivity|].
  cbn [explore visitedEntries].
  destruct (abortScan env k) eqn:Habort.
  - rewrite bind_unfold. unfold processEntry. rewrite Habort. reflexivity.
  - cbn [explore]. rewrite !bind_unfold.
    destruct (processEntry env k (ec, p) st) as [[|] st1]; cbn [fst snd];
      [apply IH|reflexivity].
Qed.

Lemma explore_withWalk walk env entries : forall k,
  explore (withWalk walk env) k entries = explore env k entries.
Proof.
  induction entries as [|entry rest IH]; intros k; [reflexivity|].
  cbn [explore]. rewrite IH. reflexivity.
Qed.

(** X18. The entries that the walker would report from the moment the
    abort flag is seen set play no part in a scan run: the run gives the
    same result as over a walk that ends just before that entry. *)
Theorem process_stops_at_abort env st :
  process env st =
  process
    (withWalk (fun dir excluded =>
                 visitedEntries env 0 (exploreFilesRecursive env dir excluded))
              env) st.
Proof.
  unfold process. rewrite !bind_unfold. cbn [modify gets fst snd].
  rewrite explore_withWalk. cbn [withWalk exploreFilesRecursive excludeDirFileName].
  apply explore_visitedEntries.
Qed.

(** *** The errors that a scan records *)

Lemma errors_emplace_error e s : errors (emplace_error e s) = errors s ++ [e].
Proof. now destruct s. Qed.

Lemma errors_with_deletions f s : errors (with_deletions f s) = errors s.
Proof. now destruct s. Qed.

Lemma errors_with_scans f s : errors (with_scans f s) = errors s.
Proof. now destruct s. Qed.

Lemma errors_with_skips f s : errors (with_skips f s) = errors s.
Proof. now destruct s. Qed.

Lemma scanAudioFile_errors_cases env p st :
  let errs st := errors (stats (context st)) in
  errs (exec (scanAudioFile env p) st) = errs st \/
  exists ty, ty <> CannotReadFile /\
    errs (exec (scanAudioFile env p) st)
    = errs st ++ [ {| file := p; error := ty; systemError := "" |} ].
Proof.
  cbn zeta. unfold exec.
  destruct (getLastWriteTime env p) as [e|lastWriteTime] eqn:Hlwt.
  { left. rewrite (scanAudioFile_not_readable env p st e Hlwt).
    cbn. apply errors_with_skips. }
  destruct (eval (lastWriteIsTheSame p lastWriteTime) st) eqn:Hsame.
  { left. rewrite (scanAudioFile_same env p st _ Hlwt Hsame).
    cbn. apply errors_with_skips. }
  destruct (parse env (_metadataParser (self st)) p) as [trackInfo|] eqn:Hparse.
  2: { right. exists CannotParseFile. split; [discriminate|].
       unfold scanAudioFile.
       rewrite Hlwt, bind_unfold. unfold eval in Hsame. rewrite Hsame.
       rewrite lastWriteIsTheSame_run. cbn [snd]. rewrite bind_gets, Hparse.
       cbn. apply errors_emplace_error. }
  rewrite (scanAudioFile_parsed env p st _ _ Hlwt Hsame Hparse), scanParsedFile_run.
  cbn zeta. set (st1 := with_context (with_stats (with_scans incr)) st).
  set (track := eval (findTrackByPath p) (db st)).
  assert (H1 : errors (stats (context st1)) = errors (stats (context st))).
  { subst st1. cbn. apply errors_with_scans. }
  rewrite <- H1.
  assert (Hinv : forall ty, ty <> CannotReadFile ->
            exists ty0, ty0 <> CannotReadFile /\
              errors (stats (context (snd (invalidAudio p ty track st1))))
              = errors (stats (context st1))
                ++ [ {| file := p; error := ty0; systemError := "" |} ]).
  { intros ty Hty. exists ty. split; [exact Hty|].
    change (snd (invalidAudio p ty track st1))
      with (exec (invalidAudio p ty track) st1).
    rewrite context_invalidAudio. cbn [stats with_stats].
    now rewrite errors_emplace_error, errors_with_deletions. }
  destruct (duplicateFound p trackInfo st).
  { left. change (snd (removeIfExists track st1))
      with (exec (removeIfExists track) st1).
    rewrite context_removeIfExists. cbn [stats with_stats].
    apply errors_with_deletions. }
  destruct (MetaData.Track.audioStreams trackInfo);
    [right; apply Hinv; discriminate|].
  destruct (MetaData.Track.duration trackInfo =? 0)%Z;
    [right; apply Hinv; discriminate|].
  left. change (snd (upsertTrack env p lastWriteTime trackInfo track st1))
    with (exec (upsertTrack env p lastWriteTime trackInfo track) st1).
  rewrite context_upsertTrack. cbn [stats with_stats].
  destruct (isSome track), (stats (context st1)); reflexivity.
Qed.

(** X19. The scan of a file records at most one error; the error is
    added at the end of the list, names the file scanned, has no system
    message and is never of the kind that [process] uses for the entries
    the walker could not read. *)
Theorem scanAudioFile_errors env p st :
  exists added,
    errors (stats (context (exec (scanAudioFile env p) st)))
    = errors (stats (context st)) ++ added /\
    (length added <= 1)%nat /\
    Forall (fun e => file e = p /\ error e <> CannotReadFile /\
                     systemError e = "") added.
Proof.
  destruct (scanAudioFile_errors_cases env p st) as [H|(ty & Hty & H)].
  - exists []. rewrite app_nil_r. repeat split; [exact H|apply Nat.le_0_1|constructor].
  - eexists. repeat split; [exact H|apply Nat.le_refl|].
    constructor; [|constructor]. now repeat split.
Qed.

Lemma readErrors_scanAudioFile env p st :
  readErrors (exec (scanAudioFile env p) st) = readErrors st.
Proof.
  unfold readErrors.
  destruct (scanAudioFile_errors_cases env p st) as [H|(ty & Hty & H)];
    cbn zeta in H; rewrite H; [reflexivity|].
  rewrite filter_app. cbn [filter]. unfold isCannotReadFile at 2. cbn [error].
  destruct ty; [contradiction| | |]; apply app_nil_r.
Qed.

Lemma explore_readErrors env entries : forall k st,
  readErrors (exec (explore env k entries) st) =
  readErrors st ++
  map readErrorOf
    (filter (fun e => ec_is_error (fst e)) (visitedEntries env k entries)).
Proof.
  induction entries as [|[ec p] rest IH]; intros k st.
  - cbn. now rewrite app_nil_r.
  - cbn [explore visitedEntries]. rewrite exec_bind.
    destruct (abortScan env k) eqn:Habort.
    { unfold eval, exec, processEntry. rewrite Habort. cbn. now rewrite app_nil_r. }
    cbn [filter fst].
    destruct (ec_is_error ec) eqn:Hec.
    + unfold eval, exec at 2, processEntry. rewrite Habort, bind_gets, Hec.
      cbn [modifyStats modify bind ret fst snd]. rewrite IH.
      unfold readErrors at 1. cbn [context with_context stats with_stats].
      rewrite errors_emplace_error, filter_app. cbn [filter map].
      unfold isCannotReadFile at 2. cbn [error].
      fold (readErrors st). rewrite <- app_assoc. reflexivity.
    + destruct (isAudioEntry env (_settings (self st)) (ec, p)) eqn:Haudio.
      * unfold eval, exec at 2.
        rewrite (processEntry_audio env k ec p st Habort Haudio).
        cbn [fst snd]. rewrite IH. f_equal.
        unfold readErrors at 1.
        cbn [with_progressCalls with_context context with_currentStepStats stats].
        apply readErrors_scanAudioFile.
      * unfold isAudioEntry in Haudio. cbn [fst snd] in Haudio.
        rewrite Hec in Haudio. cbn [negb andb] in Haudio.
        unfold eval, exec at 2, processEntry.
        rewrite Habort, bind_gets, Hec, Haudio. cbn [bind ret fst snd].
        apply IH.
Qed.

(** X20. The errors of kind [CannotReadFile] that a scan run records
    are, in the order of the walk, those of the entries that the walker
    reports with an error code before the abort flag is seen set: one
    error each, with the path of the entry and the message of its error
    code, after the errors of this kind that were there before. *)
Theorem process_read_errors env st :
  let entries := exploreFilesRecursive env (directory (context st))
                   (excludeDirFileName env) in
  readErrors (exec (process env) st) =
  readErrors st ++
  map readErrorOf
    (filter (fun e => ec_is_error (fst e)) (visitedEntries env 0 entries)).
Proof.
  cbn zeta. unfold process. rewrite !exec_bind. cbn [modify gets exec eval fst snd].
  rewrite explore_readErrors. reflexivity.
Qed.

Lemma explore_currentStepStats env entries : forall k st,
  let n := length (filter (isAudioEntry env (_settings (self st)))
                          (visitedEntries env k entries)) in
  let current := currentStepStats (context st) in
  currentStepStats (context (exec (explore env k entries) st)) =
  {| totalElems := totalElems current;
     processedElems := Nat.iter n incr (processedElems current) |}.
Proof.
  induction entries as [|[ec p] rest IH]; intros k st; cbn zeta.
  - cbn. now destruct (currentStepStats (context st)).
  - cbn [explore visitedEntries]. rewrite exec_bind.
    destruct (abortScan env k) eqn:Habort.
    { unfold eval, exec, processEntry. rewrite Habort. cbn.
      now destruct (currentStepStats (context st)). }
    cbn [filter].
    destruct (isAudioEntry env (_settings (self st)) (ec, p)) eqn:Haudio.
    + unfold eval, exec at 2. rewrite (processEntry_audio env k ec p st Habort Haudio).
      cbn [fst snd]. rewrite IH. cbn zeta.
      destruct (keepsFrame_scanAudioFile env p st) as (Hself & _).
      cbn [with_progressCalls with_context progressCalls self context
           with_currentStepStats currentStepStats totalElems processedElems].
      rewrite Hself. cbn [length]. now rewrite Nat.iter_succ_r.
    + destruct (processEntry_other env k ec p st Habort Haudio) as [Hgo Hframe].
      rewrite Hgo, IH. cbn zeta.
      destruct Hframe as (Hself & _ & Hcur & _).
      now rewrite Hself, Hcur.
Qed.

(** X21. After a scan run the statistics of the step hold, as the total
    number of elements, the number of files scanned that the context held
    when the run started, and the number of processed elements has been
    incremented once for each entry of the walk that has no error and a
    supported extension, up to the abort. *)
Theorem process_currentStepStats env st :
  let entries := exploreFilesRecursive env (directory (context st))
                   (excludeDirFileName env) in
  let n := length (filter (isAudioEntry env (_settings (self st)))
                          (visitedEntries env 0 entries)) in
  currentStepStats (context (exec (process env) st)) =
  {| totalElems := filesScanned (stats (context st));
     processedElems :=
       Nat.iter n incr (processedElems (currentStepStats (context st))) |}.
Proof.
  cbn zeta. unfold process. rewrite !exec_bind. cbn [modify gets exec eval fst snd].
  rewrite explore_currentStepStats. reflexivity.
Qed.

(** *** Resolving the same parsed artist again *)

Lemma updatedArtist_settled artist artistInfo x :
  Artist.getName artist = MetaData.Artist.name artistInfo ->
  (forall sortName, MetaData.Artist.sortName artistInfo = Some sortName ->
                    Artist.getSortName artist = Some sortName) ->
  updatedArtist artist artistInfo x = x.
Proof.
  intros Hname Hsort. unfold updatedArtist.
  rewrite Hname, String.eqb_refl. cbn [negb].
  destruct (MetaData.Artist.sortName artistInfo) as [sn|]; [|reflexivity].
  rewrite (Hsort sn eq_refl), opt_eqb_string_refl. reflexivity.
Qed.

Lemma getOrCreateArtist_settled_run artist artistInfo s :
  Artist.getName artist = MetaData.Artist.name artistInfo ->
  (forall sortName, MetaData.Artist.sortName artistInfo = Some sortName ->
                    Artist.getSortName artist = Some sortName) ->
  (updateArtistIfNeeded artist artistInfo ;; ret (Some (Artist.getId artist))) s
  = (Some (Artist.getId artist), s).
Proof.
  intros Hname Hsort. rewrite getOrCreateArtist_update_run. f_equal.
  rewrite <- (with_artists_id s) at 2. apply with_artists_ext. intros l.
  rewrite <- (map_id l) at 2. apply map_ext. intros x.
  destruct (Artist.getId x =? Artist.getId artist); [|reflexivity].
  now apply updatedArtist_settled.
Qed.

Lemma updatedArtist_self_settled artist artistInfo :
  let artist' := updatedArtist artist artistInfo artist in
  Artist.getId artist' = Artist.getId artist /\
  Artist.getName artist' = MetaData.Artist.name artistInfo /\
  (forall sortName, MetaData.Artist.sortName artistInfo = Some sortName ->
                    Artist.getSortName artist' = Some sortName).
Proof.
  cbn zeta. rewrite updatedArtist_self. cbn. repeat split.
  intros sn Hsn. now rewrite Hsn.
Qed.

Lemma newArtist_settled i artistInfo :
  Artist.getName (newArtist i artistInfo) = MetaData.Artist.name artistInfo /\
  (forall sortName, MetaData.Artist.sortName artistInfo = Some sortName ->
                    Artist.getSortName (newArtist i artistInfo) = Some sortName).
Proof. split; [reflexivity|]. intros sn Hsn. exact Hsn. Qed.

Lemma filter_map_same {A} (pred : A -> bool) (F : A -> A) (l : list A) :
  (forall x, pred (F x) = pred x) ->
  filter pred (map F l) = map F (filter pred l).
Proof.
  intros H. induction l as [|x l IH]; [reflexivity|].
  cbn [map filter]. rewrite H. destruct (pred x); cbn [map]; now rewrite IH.
Qed.

Lemma selectSameNamedArtist_map allow (F : Artist.t -> Artist.t) l :
  (forall x, Artist.getMBID (F x) = Artist.getMBID x) ->
  selectSameNamedArtist allow (map F l)
  = option_map F (selectSameNamedArtist allow l).
Proof.
  intros H. induction l as [|x l IH]; [reflexivity|].
  cbn [map selectSameNamedArtist]. rewrite H.
  destruct (negb allow && isSome (Artist.getMBID x)); [exact IH|reflexivity].
Qed.

Lemma selectSameNamedArtist_app_none allow l1 l2 :
  selectSameNamedArtist allow l1 = None ->
  selectSameNamedArtist allow (l1 ++ l2) = selectSameNamedArtist allow l2.
Proof.
  induction l1 as [|x l1 IH]; [reflexivity|].
  cbn [app selectSameNamedArtist].
  destruct (negb allow && isSome (Artist.getMBID x)); [exact IH|discriminate].
Qed.

Lemma selectSameNamedArtist_In allow l artist :
  selectSameNamedArtist allow l = Some artist -> In artist l.
Proof.
  induction l as [|x l IH]; [discriminate|].
  cbn [selectSameNamedArtist].
  destruct (negb allow && isSome (Artist.getMBID x)).
  - intros H. right. now apply IH.
  - intros [= <-]. now left.
Qed.

Lemma artists_with_artists f s :
  Session.artists (Session.with_artists f s) = f (Session.artists s).
Proof. now destruct s. Qed.

Lemma findArtistsByName_eval name s :
  eval (findArtistsByName name) s
  = filter (fun a => String.eqb (Artist.getName a) name) (Session.artists s).
Proof. reflexivity. Qed.

Lemma updatedArtist_getName artist artistInfo x :
  Artist.getName artist = MetaData.Artist.name artistInfo ->
  Artist.getName (updatedArtist artist artistInfo x) = Artist.getName x.
Proof.
  intros Hname. unfold updatedArtist. rewrite Hname, String.eqb_refl. cbn [negb].
  destruct (MetaData.Artist.sortName artistInfo);
    try destruct (negb (opt_eqb _ _ _)); reflexivity.
Qed.

Lemma getOrCreateArtist_again artistInfo allow s :
  (forall x, In x (Session.artists s) -> Artist.getId x <> Session.nextId s) ->
  let s1 := exec (getOrCreateArtist artistInfo allow) s in
  getOrCreateArtist artistInfo allow s1
  = (eval (getOrCreateArtist artistInfo allow) s, s1).
Proof.
  intros Hfresh s1. subst s1. unfold eval, exec.
  destruct (MetaData.Artist.musicBrainzArtistID artistInfo) as [mbid|] eqn:Hmbid.
  - (* by MBID *)
    rewrite (getOrCreateArtist_by_MBID_run _ allow s _ Hmbid).
    destruct (eval (findArtistByMBID mbid) s) as [a|] eqn:Hfind.
    + rewrite getOrCreateArtist_update_run. cbn [fst snd].
      set (s1 := Session.with_artists _ s).
      rewrite (getOrCreateArtist_by_MBID_run _ allow s1 _ Hmbid).
      assert (Hfind1 : eval (findArtistByMBID mbid) s1
                       = Some (updatedArtist a artistInfo a)).
      { subst s1. rewrite findArtistByMBID_eval in *.
        rewrite artists_with_artists, find_map_same, Hfind; cbn [option_map].
        - now rewrite N.eqb_refl.
        - intros x. destruct (Artist.getId x =? Artist.getId a); [|reflexivity].
          now rewrite updatedArtist_getMBID. }
      rewrite Hfind1.
      destruct (updatedArtist_self_settled a artistInfo) as (Hid & Hname & Hsort).
      rewrite (getOrCreateArtist_settled_run _ _ s1 Hname Hsort), Hid. reflexivity.
    + rewrite (getOrCreateArtist_create_run _ _ Hfresh). cbn [fst snd].
      set (new := newArtist (Session.nextId s) artistInfo).
      set (s1 := Session.with_artists _ _).
      rewrite (getOrCreateArtist_by_MBID_run _ allow s1 _ Hmbid).
      assert (Hfind1 : eval (findArtistByMBID mbid) s1 = Some new).
      { subst s1. rewrite findArtistByMBID_eval in *.
        rewrite artists_with_artists.
        replace (Session.artists (Session.with_nextId N.succ s))
          with (Session.artists s) by now destruct s.
        rewrite find_app, Hfind. subst new. cbn [find newArtist Artist.getMBID].
        now rewrite Hmbid, opt_eqb_string_refl. }
      rewrite Hfind1.
      destruct (newArtist_settled (Session.nextId s) artistInfo) as (Hname & Hsort).
      rewrite (getOrCreateArtist_settled_run new _ s1 Hname Hsort). reflexivity.
  - destruct (String.eqb_spec (MetaData.Artist.name artistInfo) "") as [Hempty|Hname].
    { unfold getOrCreateArtist. rewrite Hmbid, Hempty. reflexivity. }
    rewrite (getOrCreateArtist_by_name_run _ allow s Hmbid Hname).
    set (n := MetaData.Artist.name artistInfo) in *.
    destruct (selectSameNamedArtist allow (eval (findArtistsByName n) s))
      as [a|] eqn:Hsel.
    + assert (Ha : Artist.getName a = n).
      { apply selectSameNamedArtist_In in Hsel.
        rewrite findArtistsByName_eval in Hsel. apply filter_In in Hsel.
        now apply String.eqb_eq. }
      rewrite getOrCreateArtist_update_run. cbn [fst snd].
      set (G := fun x => if Artist.getId x =? Artist.getId a
                         then updatedArtist a artistInfo x else x).
      set (s1 := Session.with_artists _ s).
      rewrite (getOrCreateArtist_by_name_run _ allow s1 Hmbid Hname). fold n.
      assert (Hsel1 : selectSameNamedArtist allow (eval (findArtistsByName n) s1)
                      = Some (updatedArtist a artistInfo a)).
      { subst s1. rewrite findArtistsByName_eval in *.
        rewrite artists_with_artists.
        rewrite (filter_map_same _ G), (selectSameNamedArtist_map allow G), Hsel.
        - cbn [option_map]. unfold G. now rewrite N.eqb_refl.
        - intros x. unfold G.
          destruct (Artist.getId x =? Artist.getId a); [|reflexivity].
          apply updatedArtist_getMBID.
        - intros x. unfold G.
          destruct (Artist.getId x =? Artist.getId a); [|reflexivity].
          now rewrite (updatedArtist_getName a artistInfo x Ha). }
      rewrite Hsel1.
      destruct (updatedArtist_self_settled a artistInfo) as (Hid & Hname' & Hsort).
      rewrite (getOrCreateArtist_settled_run _ _ s1 Hname' Hsort), Hid. reflexivity.
    + rewrite (getOrCreateArtist_create_run _ _ Hfresh). cbn [fst snd].
      set (new := newArtist (Session.nextId s) artistInfo).
      set (s1 := Session.with_artists _ _).
      rewrite (getOrCreateArtist_by_name_run _ allow s1 Hmbid Hname). fold n.
      assert (Hsel1 : selectSameNamedArtist allow (eval (findArtistsByName n) s1)
                      = Some new).
      { subst s1. rewrite findArtistsByName_eval in *.
        rewrite artists_with_artists.
        replace (Session.artists (Session.with_nextId N.succ s))
          with (Session.artists s) by now destruct s.
        rewrite filter_app, (selectSameNamedArtist_app_none _ _ _ Hsel).
        subst new. cbn [filter newArtist Artist.getName]. fold n.
        rewrite String.eqb_refl. cbn [selectSameNamedArtist Artist.getMBID].
        change (Artist.getMBID (newArtist (Session.nextId s) artistInfo))
          with (MetaData.Artist.musicBrainzArtistID artistInfo).
        rewrite Hmbid. cbn [isSome]. now rewrite andb_false_r. }
      rewrite Hsel1.
      destruct (newArtist_settled (Session.nextId s) artistInfo) as (Hname' & Hsort).
      rewrite (getOrCreateArtist_settled_run new _ s1 Hname' Hsort). reflexivity.
Qed.

(** X22. Resolving the same parsed artist a second time changes nothing:
    it returns the artist of the first resolution, be it found by MBID, by
    name or created, and leaves the catalog as the first one left it. *)
Theorem getOrCreateArtists_idempotent artistInfo allow s :
  (forall x, In x (Session.artists s) -> Artist.getId x <> Session.nextId s) ->
  let s1 := exec (getOrCreateArtists [artistInfo] allow) s in
  getOrCreateArtists [artistInfo] allow s1
  = (eval (getOrCreateArtists [artistInfo] allow) s, s1).
Proof.
  intros Hfresh s1. subst s1.
  assert (Hrun := getOrCreateArtists_single artistInfo allow s).
  assert (Hagain := getOrCreateArtist_again artistInfo allow s Hfresh).
  cbn zeta in Hagain.
  assert (He : exec (getOrCreateArtists [artistInfo] allow) s
               = exec (getOrCreateArtist artistInfo allow) s)
    by (unfold exec at 1; now rewrite Hrun).
  assert (Hv : eval (getOrCreateArtists [artistInfo] allow) s
               = match eval (getOrCreateArtist artistInfo allow) s with
                 | Some a => [a]
                 | None => []
                 end)
    by (unfold eval at 1; now rewrite Hrun).
  assert (Hv2 : eval (getOrCreateArtist artistInfo allow)
                  (exec (getOrCreateArtist artistInfo allow) s)
                = eval (getOrCreateArtist artistInfo allow) s)
    by (unfold eval at 1; now rewrite Hagain).
  assert (He2 : exec (getOrCreateArtist artistInfo allow)
                  (exec (getOrCreateArtist artistInfo allow) s)
                = exec (getOrCreateArtist artistInfo allow) s)
    by (unfold exec at 1; now rewrite Hagain).
  rewrite He, Hv, getOrCreateArtists_single, Hv2, He2. reflexivity.
Qed.

Lemma getOrCreateArtists_idempotent_witness :
  let s1 := exec (getOrCreateArtists [Cases.prince] false) Example.db0 in
  getOrCreateArtists [Cases.prince] false s1
  = (eval (getOrCreateArtists [Cases.prince] false) Example.db0, s1).
Proof.
  refine (getOrCreateArtists_idempotent Cases.prince false Example.db0 _).
  intros x [<-|[<-|[<-|[]]]]; discriminate.
Defined.

(** *** The links that the upsert builds *)

Lemma linksAddedAs_trans tid k1 k2 a b c :
  linksAddedAs tid k1 a b -> linksAddedAs tid k2 b c ->
  linksAddedAs tid (k1 ++ k2) a c.
Proof.
  intros (Hn1 & (e1 & He1) & l1 & Hl1 & Hf1 & Hk1)
         (Hn2 & (e2 & He2) & l2 & Hl2 & Hf2 & Hk2).
  split; [eapply N.le_trans; eassumption|]. split.
  { exists (e1 ++ e2). now rewrite He2, He1, app_assoc. }
  exists (l1 ++ l2). split; [now rewrite Hl2, Hl1, app_assoc|]. split.
  - apply Forall_app. split.
    + eapply Forall_impl; [|exact Hf1]. intros l (Ht & Hi & Ha).
      repeat split; [exact Ht|exact Hi|].
      rewrite He2. apply in_or_app. now left.
    + eapply Forall_impl; [|exact Hf2]. intros l (Ht & Hi & Ha).
      repeat split; [exact Ht| |exact Ha].
      eapply N.le_trans; eassumption.
  - now rewrite map_app, Hk1, Hk2.
Qed.

Lemma artistIds_with_artists_map (f : Artist.t -> Artist.t) s :
  (forall x, Artist.getId (f x) = Artist.getId x) ->
  artistIds (Session.with_artists (map f) s) = artistIds s.
Proof.
  intros Hf. unfold artistIds. rewrite artists_with_artists, map_map.
  apply map_ext. exact Hf.
Qed.

Lemma artistIds_modifyArtist p f s :
  (forall x, Artist.getId (f x) = Artist.getId x) ->
  artistIds (exec (modifyArtist p f) s) = artistIds s.
Proof.
  intros Hf. apply artistIds_with_artists_map. intros x.
  destruct (Artist.getId x =? p); [apply Hf|reflexivity].
Qed.

Lemma artistIds_createArtist artistInfo s :
  artistIds (exec (createArtist artistInfo) s) = artistIds s ++ [Session.nextId s] /\
  eval (createArtist artistInfo) s = Session.nextId s.
Proof.
  unfold createArtist. rewrite !exec_bind, !eval_bind, eval_ret, exec_ret.
  assert (Hobj : artistIds (exec (createArtistObject (MetaData.Artist.name artistInfo)) s)
                 = artistIds s ++ [Session.nextId s]
                 /\ eval (createArtistObject (MetaData.Artist.name artistInfo)) s
                    = Session.nextId s).
  { destruct s. unfold artistIds. cbn. rewrite map_app. split; reflexivity. }
  destruct Hobj as [Hids Hid]. rewrite Hid. split; [|reflexivity].
  set (s1 := exec (createArtistObject _) s) in *.
  assert (Hm : forall (o : option string) (set : string -> Artist.t -> Artist.t) s2,
            (forall v x, Artist.getId (set v x) = Artist.getId x) ->
            artistIds (exec match o with
                            | Some v => modifyArtist (Session.nextId s) (set v)
                            | None => ret tt
                            end s2) = artistIds s2).
  { intros [v|] set s2 Hset; [|reflexivity].
    apply artistIds_modifyArtist. apply Hset. }
  rewrite (Hm _ Artist.setSortName) by reflexivity.
  rewrite (Hm _ Artist.setMBID) by reflexivity.
  exact Hids.
Qed.

Lemma artistIds_getOrCreateArtist artistInfo allow s :
  (exists extra,
     artistIds (exec (getOrCreateArtist artistInfo allow) s) = artistIds s ++ extra) /\
  (forall a, eval (getOrCreateArtist artistInfo allow) s = Some a ->
             In a (artistIds (exec (getOrCreateArtist artistInfo allow) s))).
Proof.
  assert (Hupdate : forall artist,
            In artist (Session.artists s) ->
            let m := (updateArtistIfNeeded artist artistInfo ;;
                      ret (Some (Artist.getId artist))) in
            (exists extra, artistIds (snd (m s)) = artistIds s ++ extra) /\
            (forall a, fst (m s) = Some a -> In a (artistIds (snd (m s))))).
  { intros artist Hin m. subst m. rewrite getOrCreateArtist_update_run.
    cbn [fst snd].
    assert (Hids : artistIds
              (Session.with_artists
                 (map (fun x => if Artist.getId x =? Artist.getId artist
                                then updatedArtist artist artistInfo x else x)) s)
              = artistIds s).
    { apply artistIds_with_artists_map. intros x.
      destruct (Artist.getId x =? Artist.getId artist); [|reflexivity].
      apply updatedArtist_getId. }
    rewrite Hids. split; [exists []; now rewrite app_nil_r|].
    intros a [= <-]. unfold artistIds. now apply in_map. }
  assert (Hcreate :
            let m := (artist <- createArtist artistInfo ;; ret (Some artist)) in
            (exists extra, artistIds (snd (m s)) = artistIds s ++ extra) /\
            (forall a, fst (m s) = Some a -> In a (artistIds (snd (m s))))).
  { cbn zeta. rewrite bind_unfold. cbn [ret fst snd].
    destruct (artistIds_createArtist artistInfo s) as [Hids Hid].
    unfold eval, exec in Hids, Hid. rewrite Hids, Hid.
    split; [now eexists|]. intros a [= <-]. apply in_or_app. right. now left. }
  unfold eval, exec.
  destruct (MetaData.Artist.musicBrainzArtistID artistInfo) as [mbid|] eqn:Hmbid.
  - rewrite (getOrCreateArtist_by_MBID_run _ allow s _ Hmbid).
    destruct (eval (findArtistByMBID mbid) s) as [artist|] eqn:Hfind;
      [|exact Hcreate].
    apply Hupdate. rewrite findArtistByMBID_eval in Hfind.
    now apply find_some in Hfind.
  - destruct (String.eqb_spec (MetaData.Artist.name artistInfo) "") as [Hempty|Hname].
    { unfold getOrCreateArtist. rewrite Hmbid, Hempty. cbn.
      split; [exists []; now rewrite app_nil_r|discriminate]. }
    rewrite (getOrCreateArtist_by_name_run _ allow s Hmbid Hname).
    destruct (selectSameNamedArtist allow _) as [artist|] eqn:Hsel;
      [|exact Hcreate].
    apply Hupdate. apply selectSameNamedArtist_In in Hsel.
    rewrite findArtistsByName_eval in Hsel. now apply filter_In in Hsel.
Qed.

Lemma artistIds_getOrCreateArtists artistsInfo allow : forall s,
  (exists extra,
     artistIds (exec (getOrCreateArtists artistsInfo allow) s)
     = artistIds s ++ extra) /\
  Forall (fun a => In a (artistIds (exec (getOrCreateArtists artistsInfo allow) s)))
    (eval (getOrCreateArtists artistsInfo allow) s) /\
  length (eval (getOrCreateArtists artistsInfo allow) s)
  = length (filter hasMBIDOrName artistsInfo).
Proof.
  induction artistsInfo as [|i rest IH]; intros s.
  - split; [exists []; now rewrite app_nil_r|]. split; [constructor|reflexivity].
  - assert (Hcons := getOrCreateArtists_cons i rest allow s). cbn zeta in Hcons.
    destruct (artistIds_getOrCreateArtist i allow s) as [(e1 & He1) Hin1].
    assert (Hsome := getOrCreateArtist_isSome i allow s).
    set (s1 := exec (getOrCreateArtist i allow) s) in *.
    destruct (IH s1) as ((e2 & He2) & Hall & Hlen).
    unfold eval, exec. rewrite Hcons. cbn [fst snd].
    split; [exists (e1 ++ e2); now rewrite He2, He1, app_assoc|].
    cbn [filter]. fold (hasMBIDOrName i) in Hsome.
    destruct (eval (getOrCreateArtist i allow) s) as [a|]; cbn [isSome] in Hsome;
      rewrite <- Hsome.
    + split; [|cbn [length]; now rewrite Hlen].
      constructor; [|exact Hall].
      rewrite He2. apply in_or_app. left. now apply Hin1.
    + split; [exact Hall|exact Hlen].
Qed.

Lemma linksAddedAs_getOrCreateArtists tid artistsInfo allow s :
  linksAddedAs tid [] s (exec (getOrCreateArtists artistsInfo allow) s).
Proof.
  split; [apply nextId_getOrCreateArtists|].
  split; [apply artistIds_getOrCreateArtists|].
  exists []. rewrite app_nil_r. split; [|split; [constructor|reflexivity]].
  apply (preserves_getOrCreateArtists Session.trackArtistLinks);
    intros f []; reflexivity.
Qed.

Lemma linksAddedAs_addArtistLink tid artist ty role s :
  In artist (artistIds s) ->
  linksAddedAs tid [(ty, role)] s (exec (addArtistLink tid artist ty role) s).
Proof.
  intros Hin. destruct s. split; [apply N.le_succ_diag_r|].
  split; [exists []; now rewrite app_nil_r|].
  eexists. split; [reflexivity|]. split; [|reflexivity].
  constructor; [|constructor].
  split; [reflexivity|]. split; [apply N.le_refl|exact Hin].
Qed.

Lemma linksAddedAs_links tid ty role l : forall s,
  Forall (fun a => In a (artistIds s)) l ->
  linksAddedAs tid (repeat (ty, role) (length l)) s
    (exec (forEach l (fun artist => addArtistLink tid artist ty role)) s).
Proof.
  induction l as [|a l IH]; intros s Hall.
  - cbn. split; [apply N.le_refl|]. split; [exists []; now rewrite app_nil_r|].
    exists []. rewrite app_nil_r. split; [reflexivity|]. split; [constructor|reflexivity].
  - inversion Hall as [|? ? Ha Hl]; subst.
    cbn [forEach length repeat]. rewrite exec_bind.
    pose proof (linksAddedAs_addArtistLink tid a ty role s Ha) as H1.
    set (s1 := exec (addArtistLink tid a ty role) s) in *.
    apply (linksAddedAs_trans tid [(ty, role)] _ s s1); [exact H1|].
    apply IH. destruct H1 as (_ & (e & He) & _).
    eapply Forall_impl; [|exact Hl]. intros x Hx. cbv beta.
    rewrite He. apply in_or_app. now left.
Qed.

(** One role list: its artists are resolved, then linked. *)
Lemma linksAddedAs_role tid ty role artistsInfo allow s :
  linksAddedAs tid (repeat (ty, role) (length (filter hasMBIDOrName artistsInfo))) s
    (exec (l <- getOrCreateArtists artistsInfo allow ;;
           forEach l (fun artist => addArtistLink tid artist ty role)) s).
Proof.
  rewrite exec_bind.
  destruct (artistIds_getOrCreateArtists artistsInfo allow s) as (_ & Hall & Hlen).
  rewrite <- Hlen.
  apply (linksAddedAs_trans tid [] _ s (exec (getOrCreateArtists artistsInfo allow) s)).
  - apply linksAddedAs_getOrCreateArtists.
  - now apply linksAddedAs_links.
Qed.

Lemma linksAddedAs_roles tid roles : forall s,
  linksAddedAs tid
    (flat_map (fun r => repeat (fst r) (length (filter hasMBIDOrName (snd r)))) roles)
    s
    (exec (forEach roles (fun r =>
       l <- getOrCreateArtists (snd r) (allowFallbackOnTaggedEntries (fst (fst r))) ;;
       forEach l (fun artist =>
         addArtistLink tid artist (fst (fst r)) (snd (fst r))))) s).
Proof.
  induction roles as [|[[ty role] infos] roles IH]; intros s.
  - cbn. split; [apply N.le_refl|]. split; [exists []; now rewrite app_nil_r|].
    exists []. rewrite app_nil_r. split; [reflexivity|]. split; [constructor|reflexivity].
  - cbn [forEach flat_map fst snd]. rewrite exec_bind.
    eapply linksAddedAs_trans; [apply linksAddedAs_role|apply IH].
Qed.

Lemma rebuildArtistLinks_kinds tid trackInfo s :
  let s1 := exec (clearArtistLinks tid) s in
  linksAddedAs tid (expectedLinkKinds trackInfo) s1
    (exec (rebuildArtistLinks tid trackInfo) s).
Proof.
  cbn zeta. unfold exec at 2. rewrite rebuildArtistLinks_by_role.
  unfold rebuildArtistLinksByRole. rewrite bind_unfold.
  apply linksAddedAs_roles.
Qed.

Lemma upsertTrack_links_kinds env p lastWriteTime trackInfo st st1 :
  db st1 = db st ->
  let tid := upsertedTrackId p (db st) in
  let s' := db (exec (upsertTrack env p lastWriteTime trackInfo
                        (eval (findTrackByPath p) (db st))) st1) in
  exists added,
    Session.trackArtistLinks s'
    = filter (fun l => negb (TrackArtistLink.getTrack l =? tid))
        (Session.trackArtistLinks (db st)) ++ added /\
    Forall (fun l => TrackArtistLink.getTrack l = tid
                     /\ Session.nextId (db st) <= TrackArtistLink.getId l
                     /\ In (TrackArtistLink.getArtist l) (artistIds s')) added /\
    map linkKind added = expectedLinkKinds trackInfo.
Proof.
  intros Hdb tid s'. subst tid s'. rewrite db_upsertTrack. cbn zeta.
  unfold artistIds.
  rewrite (preserves_updateTrackData Session.trackArtistLinks);
    try (intros f []; reflexivity).
  rewrite (preserves_updateTrackData Session.artists);
    try (intros f []; reflexivity).
  fold artistIds.
  unfold upsertedTrackId. rewrite Hdb.
  set (tid := match eval (findTrackByPath p) (db st) with
              | Some t => Track.getId t
              | None => Session.nextId (db st)
              end).
  set (s0 := match eval (findTrackByPath p) (db st) with
             | Some _ => db st
             | None => exec (createTrackObject p) (db st)
             end).
  assert (Hs0 : Session.trackArtistLinks s0 = Session.trackArtistLinks (db st)
                /\ Session.nextId (db st) <= Session.nextId s0).
  { subst s0. destruct (eval (findTrackByPath p) (db st)).
    - split; [reflexivity|apply N.le_refl].
    - destruct (db st). split; [reflexivity|apply N.le_succ_diag_r]. }
  destruct Hs0 as [Hl0 Hn0].
  destruct (rebuildArtistLinks_kinds tid trackInfo s0)
    as (_ & _ & added & Hl & Hf & Hk).
  assert (Hclear : Session.trackArtistLinks (exec (clearArtistLinks tid) s0)
                   = filter (fun l => negb (TrackArtistLink.getTrack l =? tid))
                       (Session.trackArtistLinks s0)
                   /\ Session.nextId (exec (clearArtistLinks tid) s0)
                      = Session.nextId s0).
  { destruct s0. split; reflexivity. }
  destruct Hclear as [Hcl Hcn]. rewrite Hcl, Hl0 in Hl.
  exists added. split; [exact Hl|]. split; [|exact Hk].
  eapply Forall_impl; [|exact Hf]. intros l (Ht & Hi & Ha).
  repeat split; [exact Ht| |exact Ha].
  rewrite Hcn in Hi. eapply N.le_trans; eassumption.
Qed.

(** X10. On the upsert the artist links of the track are built anew.  The
    links of the other tracks stay as they are, in their order, and the
    links that the track had are dropped.  The links that follow are the
    new ones: there is one for each parsed artist that has an MBID or a
    name, in the order of the role lists (main artists, release artists,
    conductors, composers, lyricists, mixers, performers role by role,
    producers, remixers), with the link type of its list and, for a
    performer, the name of the role; each is a link of this track to an
    artist of the catalog, under an identifier that was free before the
    scan. *)
Theorem scanAudioFile_links_rebuilt env p st lastWriteTime trackInfo :
  getLastWriteTime env p = inr lastWriteTime ->
  eval (lastWriteIsTheSame p lastWriteTime) st = false ->
  parse env (_metadataParser (self st)) p = Some trackInfo ->
  duplicateFound p trackInfo st = false ->
  MetaData.Track.audioStreams trackInfo <> [] ->
  MetaData.Track.duration trackInfo <> 0%Z ->
  let tid := upsertedTrackId p (db st) in
  let s' := db (exec (scanAudioFile env p) st) in
  exists added,
    Session.trackArtistLinks s'
    = filter (fun l => negb (TrackArtistLink.getTrack l =? tid))
        (Session.trackArtistLinks (db st)) ++ added /\
    Forall (fun l => TrackArtistLink.getTrack l = tid
                     /\ Session.nextId (db st) <= TrackArtistLink.getId l
                     /\ In (TrackArtistLink.getArtist l) (artistIds s')) added /\
    map linkKind added = expectedLinkKinds trackInfo.
Proof.
  intros Hlwt Hsame Hparse Hdup Hstreams Hduration tid s'. subst s'. unfold exec.
  rewrite (scanAudioFile_upsert env p st _ _ Hlwt Hsame Hparse Hdup Hstreams
             Hduration).
  exact (upsertTrack_links_kinds env p lastWriteTime trackInfo st
           (with_context (with_stats (with_scans incr)) st) eq_refl).
Qed.

Lemma scanAudioFile_links_rebuilt_witness :
  let s' := db (exec (scanAudioFile Example.env0 "/music/old.flac") Example.st0) in
  exists added,
    Session.trackArtistLinks s' = Session.trackArtistLinks Example.db0 ++ added /\
    Forall (fun l => TrackArtistLink.getTrack l = 100
                     /\ 100 <= TrackArtistLink.getId l
                     /\ In (TrackArtistLink.getArtist l) (artistIds s')) added /\
    map linkKind added = [(TrackArtistLinkType.Artist, "")].
Proof.
  refine (scanAudioFile_links_rebuilt Example.env0 "/music/old.flac" Example.st0
            Example.time1 Example.infoOld eq_refl eq_refl eq_refl eq_refl _ _);
    discriminate.
Defined.
